(** * SkSL function declarations: validation, overload resolution, mangling

    A shallow embedding of [SkSLFunctionDeclaration.cpp] (the SkSL front end
    of Skia): the signature validator ([check_modifiers], [check_return_type],
    [check_parameters]), the entry-point checker ([check_main_signature]), the
    generic resolver ([find_generic_index], [type_generically_matches],
    [parameters_match]), the overload resolver ([find_existing_declaration],
    [Convert]), the name mangler ([mangledName]) and call-site resolution
    ([determineFinalTypes]).

    The type system, the modifier bits, the symbol table and the program
    configuration are collaborators of that file.  The type system is taken
    as an interface ([TypeOps]); the other collaborators are small
    definitions, each marked where it is introduced. *)

From stdpp Require Import base gmap list strings pretty.
From Stdlib Require Import ZArith Lia Ascii.

Open Scope Z_scope.

(** ** Collaborators *)

(** Source positions and the diagnostics sink ([ErrorReporter::error]).  A
    function that reports errors returns the errors it reported, in order. *)
Definition Position := nat.
Definition Errors := list (Position * string).

(** The capabilities of [SkSL::Type] used by this file, and the builtin types
    of [context.fTypes] it names.  Indices into a generic family are C [int]s;
    families are short constant tables, so they are modelled as unbounded
    integers. *)
Class TypeOps (Ty : Type) := {
  matches : Ty → Ty → bool;
  canCoerceTo : Ty → Ty → bool → bool;
  isGeneric : Ty → bool;
  coercibleTypes : Ty → list Ty;
  isArray : Ty → bool;
  isOrContainsArray : Ty → bool;
  isOpaque : Ty → bool;
  isEffectChild : Ty → bool;
  isTexture : Ty → bool;
  isStruct : Ty → bool;
  componentType : Ty → Ty;
  typeName : Ty → string;
  abbreviatedName : Ty → string;
  displayName : Ty → string;
  fHalf4 : Ty;
  fFloat4 : Ty;
  fFloat2 : Ty;
  fVoid : Ty
}.

(** The table behind the [SKSL_INTRINSIC_LIST] macro, in declaration order. *)
Class Intrinsics := { SKSL_INTRINSIC_LIST : list string }.

(** Modelled from the spec: the modifier flag bits of [Modifiers::Flag].  The
    header is outside the slice; the flags are distinct single bits. *)
Module Modifiers.
Definition kNo_Flag : Z := 0.
Definition kConst_Flag : Z := Z.shiftl 1 2.
Definition kIn_Flag : Z := Z.shiftl 1 4.
Definition kOut_Flag : Z := Z.shiftl 1 5.
Definition kReadOnly_Flag : Z := Z.shiftl 1 9.
Definition kWriteOnly_Flag : Z := Z.shiftl 1 10.
Definition kES3_Flag : Z := Z.shiftl 1 14.
Definition kHasSideEffects_Flag : Z := Z.shiftl 1 15.
Definition kInline_Flag : Z := Z.shiftl 1 16.
Definition kNoInline_Flag : Z := Z.shiftl 1 17.
End Modifiers.

(** Modelled from the spec: the builtin ids that mark the semantic role of a
    parameter of [main] ([SK_MAIN_COORDS_BUILTIN] and friends); three distinct
    constants. *)
Definition SK_MAIN_COORDS_BUILTIN : Z := 10009.
Definition SK_INPUT_COLOR_BUILTIN : Z := 10010.
Definition SK_DEST_COLOR_BUILTIN : Z := 10011.

(** [Layout]: its flag word and the [builtin] id (-1 when absent). *)
Record Layout := mkLayout { fLayoutFlags : Z; fBuiltin : Z }.

Record ModifiersT := mkModifiers { fFlags : Z; fLayout : Layout }.

#[global] Instance Layout_eq_dec : EqDecision Layout.
Proof. solve_decision. Defined.

#[global] Instance ModifiersT_eq_dec : EqDecision ModifiersT.
Proof. solve_decision. Defined.

(** The entry-point kinds switched over by [check_main_signature]. *)
Inductive ProgramKind :=
  | kRuntimeColorFilter
  | kRuntimeShader
  | kPrivateRuntimeShader
  | kRuntimeBlender
  | kMeshVertex
  | kMeshFragment
  | kGeneric
  | kFragment
  | kGraphiteFragment
  | kVertex
  | kGraphiteVertex
  | kCompute.

#[global] Instance ProgramKind_eq_dec : EqDecision ProgramKind.
Proof. solve_decision. Defined.

(** Modelled from the spec: [ProgramConfig::IsRuntimeEffect] and
    [ProgramConfig::IsFragment], which are outside the slice.  The runtime
    effects are the colour filter, the shaders, the blender and the two mesh
    programs; the fragment programs are the two fragment kinds. *)
Definition IsRuntimeEffect (kind : ProgramKind) : bool :=
  match kind with
  | kRuntimeColorFilter | kRuntimeShader | kPrivateRuntimeShader
  | kRuntimeBlender | kMeshVertex | kMeshFragment => true
  | _ => false
  end.

Definition IsFragment (kind : ProgramKind) : bool :=
  match kind with
  | kFragment | kGraphiteFragment => true
  | _ => false
  end.

(** [context.fConfig]: what the file reads of the program configuration. *)
Record Context := mkContext {
  fIsBuiltinCode : bool;
  strictES2Mode : bool;
  fKind : ProgramKind
}.

(** Modelled from the spec: [Modifiers::checkPermitted], which is outside the
    slice.  Any flag outside the permitted set is an error; so is any layout
    flag outside the permitted layout flags. *)
Definition checkPermitted (m : ModifiersT) (pos : Position)
    (permittedModifierFlags permittedLayoutFlags : Z) : bool * Errors :=
  let badFlags := Z.ldiff (fFlags m) permittedModifierFlags in
  let badLayout := Z.ldiff (fLayoutFlags (fLayout m)) permittedLayoutFlags in
  let e1 := if badFlags =? 0 then []
            else [(pos, "modifier is not permitted here"%string)] in
  let e2 := if badLayout =? 0 then []
            else [(pos, "layout qualifier is not permitted here"%string)] in
  ((badFlags =? 0) && (badLayout =? 0), e1 ++ e2).

(** String helpers of [skstd]. *)
Definition starts_with (s : string) (c : ascii) : bool :=
  match s with
  | String a _ => Ascii.eqb a c
  | EmptyString => false
  end.

Definition remove_prefix (s : string) : string :=
  match s with
  | String _ rest => rest
  | EmptyString => EmptyString
  end.

Fixpoint ends_with (s : string) (c : ascii) : bool :=
  match s with
  | EmptyString => false
  | String a EmptyString => Ascii.eqb a c
  | String _ rest => ends_with rest c
  end.

(** What a call that indexes vectors can do: return a value, return false, or
    index outside a vector (which the source excludes by assertion and leaves
    undefined). *)
Inductive Outcome (A : Type) :=
  | Returns (a : A)
  | ReturnsFalse
  | OutOfRange.
Arguments Returns {A} a.
Arguments ReturnsFalse {A}.
Arguments OutOfRange {A}.

(** ** The embedding *)

Section FunctionDeclaration.
Context {Ty : Type} `{TypeOps Ty} `{Intrinsics}.

(** [Variable]: a function parameter. *)
Record VariableT := mkVariable {
  var_fPosition : Position;
  var_modifiersPosition : Position;
  var_modifiers : ModifiersT;
  var_name : string;
  var_type : Ty
}.

(** [Variable::setModifiers]. *)
Definition setModifiers (v : VariableT) (m : ModifiersT) : VariableT :=
  {| var_fPosition := var_fPosition v;
     var_modifiersPosition := var_modifiersPosition v;
     var_modifiers := m;
     var_name := var_name v;
     var_type := var_type v |}.

(** [identify_intrinsic]: the position of the name in the intrinsic table,
    after dropping a leading dollar sign; [kNotIntrinsic] when absent. *)
Definition kNotIntrinsic : Z := -1.

Fixpoint find_intrinsic (functionName : string) (table : list string) (k : Z) : Z :=
  match table with
  | [] => kNotIntrinsic
  | n :: rest => if String.eqb n functionName then k
                 else find_intrinsic functionName rest (k + 1)
  end.

Definition identify_intrinsic (functionName : string) : Z :=
  let functionName :=
    if starts_with functionName "$"%char then remove_prefix functionName
    else functionName in
  find_intrinsic functionName SKSL_INTRINSIC_LIST 0.

(** *** Signature validator *)

(** [check_modifiers].  The result of [checkPermitted] is not looked at: a
    flag that is not permitted is reported and the check goes on. *)
Definition check_modifiers (context : Context) (pos : Position)
    (modifiers : ModifiersT) : bool * Errors :=
  let permitted :=
    Z.lor (Z.lor (Z.lor Modifiers.kHasSideEffects_Flag Modifiers.kInline_Flag)
                 Modifiers.kNoInline_Flag)
          (if fIsBuiltinCode context then Modifiers.kES3_Flag else 0) in
  let '(_, e) := checkPermitted modifiers pos permitted 0 in
  if negb (Z.land (fFlags modifiers) Modifiers.kInline_Flag =? 0) &&
     negb (Z.land (fFlags modifiers) Modifiers.kNoInline_Flag =? 0)
  then (false, e ++ [(pos, "functions cannot be both 'inline' and 'noinline'"%string)])
  else (true, e).

(** [check_return_type]: no array, no struct holding an array in strict ES2
    mode, no opaque component type outside builtin code. *)
Definition check_return_type (context : Context) (pos : Position)
    (returnType : Ty) : bool * Errors :=
  if isArray returnType then
    (false, [(pos, "functions may not return type '" +:+ displayName returnType +:+ "'")])
  else if strictES2Mode context && isOrContainsArray returnType then
    (false, [(pos, "functions may not return structs containing arrays"%string)])
  else if negb (fIsBuiltinCode context) && isOpaque (componentType returnType) then
    (false, [(pos, "functions may not return opaque type '" +:+ displayName returnType +:+ "'")])
  else (true, []).

(** The lambda [typeIsValidForColor]: half4 or float4. *)
Definition typeIsValidForColor (type : Ty) : bool :=
  matches type fHalf4 || matches type fFloat4.

(** The first color parameter passed to main() is the input color; the second
    is the dest color. *)
Definition kBuiltinColorIDs : list Z :=
  [SK_INPUT_COLOR_BUILTIN; SK_DEST_COLOR_BUILTIN].

(** The assignment [m.fLayout.fBuiltin = b]. *)
Definition setBuiltin (m : ModifiersT) (b : Z) : ModifiersT :=
  {| fFlags := fFlags m;
     fLayout := {| fLayoutFlags := fLayoutFlags (fLayout m); fBuiltin := b |} |}.

(** The flags a parameter of this type may carry. *)
Definition permittedParameterFlags (type : Ty) : Z :=
  let permittedFlags := Z.lor Modifiers.kConst_Flag Modifiers.kIn_Flag in
  let permittedFlags :=
    if negb (isOpaque type) then Z.lor permittedFlags Modifiers.kOut_Flag
    else permittedFlags in
  if isTexture type
  then Z.lor permittedFlags (Z.lor Modifiers.kReadOnly_Flag Modifiers.kWriteOnly_Flag)
  else permittedFlags.

(** The implicit [in]: [in float x] becomes [float x]. *)
Definition stripImplicitIn (m : ModifiersT) : ModifiersT :=
  if Z.land (fFlags m) (Z.lor Modifiers.kOut_Flag Modifiers.kIn_Flag) =? Modifiers.kIn_Flag
  then {| fFlags := Z.land (fFlags m)
                      (Z.lnot (Z.lor Modifiers.kOut_Flag Modifiers.kIn_Flag));
          fLayout := fLayout m |}
  else m.

(** Role inference on one parameter of [main]; returns the modifiers and the
    next [builtinColorIndex]. *)
Definition inferMainRole (context : Context) (type : Ty) (m : ModifiersT)
    (builtinColorIndex : nat) : ModifiersT * nat :=
  if IsRuntimeEffect (fKind context) &&
     negb (bool_decide (fKind context = kMeshFragment)) &&
     negb (bool_decide (fKind context = kMeshVertex))
  then
    if matches type fFloat2 then (setBuiltin m SK_MAIN_COORDS_BUILTIN, builtinColorIndex)
    else if typeIsValidForColor type &&
            bool_decide (builtinColorIndex < length kBuiltinColorIDs)%nat
    then (setBuiltin m (default (-1) (kBuiltinColorIDs !! builtinColorIndex)),
          S builtinColorIndex)
    else (m, builtinColorIndex)
  else if IsFragment (fKind context) then
    if matches type fFloat2 then (setBuiltin m SK_MAIN_COORDS_BUILTIN, builtinColorIndex)
    else (m, builtinColorIndex)
  else (m, builtinColorIndex).

(** The loop of [check_parameters].  The parameters are modified in place, so
    the vector is part of the result: on the early return the parameters
    already visited keep their new modifiers. *)
Fixpoint check_parameters_from (context : Context) (isMain : bool)
    (builtinColorIndex : nat) (parameters : list VariableT)
    : bool * list VariableT * Errors :=
  match parameters with
  | [] => (true, [], [])
  | param :: rest =>
      let type := var_type param in
      let '(_, e) := checkPermitted (var_modifiers param) (var_modifiersPosition param)
                       (permittedParameterFlags type) 0 in
      if isEffectChild type && negb (fIsBuiltinCode context) then
        (false, param :: rest,
         e ++ [(var_fPosition param,
                "parameters of type '" +:+ displayName type +:+ "' not allowed")])
      else
        let m := stripImplicitIn (var_modifiers param) in
        let '(m, builtinColorIndex) :=
          if isMain then inferMainRole context type m builtinColorIndex
          else (m, builtinColorIndex) in
        let '(ok, rest', e') :=
          check_parameters_from context isMain builtinColorIndex rest in
        (ok, setModifiers param m :: rest', e ++ e')
  end.

(** [check_parameters]: the loop, with [builtinColorIndex] starting at 0. *)
Definition check_parameters (context : Context) (parameters : list VariableT)
    (isMain : bool) : bool * list VariableT * Errors :=
  check_parameters_from context isMain 0%nat parameters.

(** *** Entry-point convention checker *)

Definition typeIsValidForAttributes (type : Ty) : bool :=
  isStruct type && String.eqb (typeName type) "Attributes".

Definition typeIsValidForVaryings (type : Ty) : bool :=
  isStruct type && String.eqb (typeName type) "Varyings".

(** The [paramIs...] lambdas read [parameters[idx]]; every call is guarded by
    a test of [parameters.size()], so the index is in range when they run. *)
Definition paramIs (parameters : list VariableT) (idx : nat)
    (pred : VariableT → bool) : bool :=
  match parameters !! idx with
  | Some p => pred p
  | None => false
  end.

Definition paramIsCoords (parameters : list VariableT) (idx : nat) : bool :=
  paramIs parameters idx (λ p,
    matches (var_type p) fFloat2 &&
    (fFlags (var_modifiers p) =? 0) &&
    (fBuiltin (fLayout (var_modifiers p)) =? SK_MAIN_COORDS_BUILTIN)).

Definition paramIsBuiltinColor (parameters : list VariableT) (idx : nat)
    (builtinID : Z) : bool :=
  paramIs parameters idx (λ p,
    typeIsValidForColor (var_type p) &&
    (fFlags (var_modifiers p) =? 0) &&
    (fBuiltin (fLayout (var_modifiers p)) =? builtinID)).

Definition paramIsInAttributes (parameters : list VariableT) (idx : nat) : bool :=
  paramIs parameters idx (λ p,
    typeIsValidForAttributes (var_type p) && (fFlags (var_modifiers p) =? 0)).

Definition paramIsOutVaryings (parameters : list VariableT) (idx : nat) : bool :=
  paramIs parameters idx (λ p,
    typeIsValidForVaryings (var_type p) &&
    (fFlags (var_modifiers p) =? Modifiers.kOut_Flag)).

Definition paramIsInVaryings (parameters : list VariableT) (idx : nat) : bool :=
  paramIs parameters idx (λ p,
    typeIsValidForVaryings (var_type p) && (fFlags (var_modifiers p) =? 0)).

Definition paramIsOutColor (parameters : list VariableT) (idx : nat) : bool :=
  paramIs parameters idx (λ p,
    typeIsValidForColor (var_type p) &&
    (fFlags (var_modifiers p) =? Modifiers.kOut_Flag)).

Definition paramIsInputColor (parameters : list VariableT) (n : nat) : bool :=
  paramIsBuiltinColor parameters n SK_INPUT_COLOR_BUILTIN.

Definition paramIsDestColor (parameters : list VariableT) (n : nat) : bool :=
  paramIsBuiltinColor parameters n SK_DEST_COLOR_BUILTIN.

(** [check_main_signature]: the shape of [main] for each program kind. *)
Definition check_main_signature (context : Context) (pos : Position)
    (returnType : Ty) (parameters : list VariableT) : bool * Errors :=
  let size := length parameters in
  match fKind context with
  | kRuntimeColorFilter =>
      if negb (typeIsValidForColor returnType) then
        (false, [(pos, "'main' must return: 'vec4', 'float4', or 'half4'"%string)])
      else if negb ((size =? 1)%nat && paramIsInputColor parameters 0) then
        (false, [(pos, "'main' parameter must be 'vec4', 'float4', or 'half4'"%string)])
      else (true, [])
  | kRuntimeShader | kPrivateRuntimeShader =>
      if negb (typeIsValidForColor returnType) then
        (false, [(pos, "'main' must return: 'vec4', 'float4', or 'half4'"%string)])
      else if negb (((size =? 1)%nat && paramIsCoords parameters 0) ||
                    ((size =? 2)%nat && paramIsCoords parameters 0 &&
                     paramIsInputColor parameters 1)) then
        (false, [(pos, "'main' parameters must be (float2, (vec4|float4|half4)?)"%string)])
      else (true, [])
  | kRuntimeBlender =>
      if negb (typeIsValidForColor returnType) then
        (false, [(pos, "'main' must return: 'vec4', 'float4', or 'half4'"%string)])
      else if negb ((size =? 2)%nat && paramIsInputColor parameters 0 &&
                    paramIsDestColor parameters 1) then
        (false, [(pos, "'main' parameters must be (vec4|float4|half4, vec4|float4|half4)"%string)])
      else (true, [])
  | kMeshVertex =>
      if negb (matches returnType fFloat2) then
        (false, [(pos, "'main' must return: 'vec2' or 'float2'"%string)])
      else if negb ((size =? 2)%nat && paramIsInAttributes parameters 0 &&
                    paramIsOutVaryings parameters 1) then
        (false, [(pos, "'main' parameters must be (Attributes, out Varyings"%string)])
      else (true, [])
  | kMeshFragment =>
      if negb (matches returnType fFloat2) && negb (matches returnType fVoid) then
        (false, [(pos, "'main' must return: 'vec2', 'float2', 'or' 'void'"%string)])
      else if negb (((size =? 1)%nat && paramIsInVaryings parameters 0) ||
                    ((size =? 2)%nat && paramIsInVaryings parameters 0 &&
                     paramIsOutColor parameters 1)) then
        (false, [(pos, "'main' parameters must be (Varyings, (out (half4|float4))?)"%string)])
      else (true, [])
  | kGeneric => (true, [])
  | kFragment | kGraphiteFragment =>
      if negb ((size =? 0)%nat || ((size =? 1)%nat && paramIsCoords parameters 0)) then
        (false, [(pos, "shader 'main' must be main() or main(float2)"%string)])
      else (true, [])
  | kVertex | kGraphiteVertex | kCompute =>
      if negb (matches returnType fVoid) then
        (false, [(pos, "'main' must return 'void'"%string)])
      else if negb (size =? 0)%nat then
        (false, [(pos, "shader 'main' must have zero parameters"%string)])
      else (true, [])
  end.

(** *** Generic resolver *)

(** Given a concrete type ([float3]) and a generic type ([$genType]), returns
    the index of the concrete type within the generic type's typelist.
    Returns -1 if there is no match. *)
Fixpoint find_generic_index_from (concreteType : Ty) (genericTypes : list Ty)
    (allowNarrowing : bool) (index : Z) : Z :=
  match genericTypes with
  | [] => -1
  | candidate :: rest =>
      if canCoerceTo concreteType candidate allowNarrowing then index
      else find_generic_index_from concreteType rest allowNarrowing (index + 1)
  end.

Definition find_generic_index (concreteType genericType : Ty)
    (allowNarrowing : bool) : Z :=
  find_generic_index_from concreteType (coercibleTypes genericType) allowNarrowing 0.

(** Returns true if the types match, or if [concreteType] can be found in
    [maybeGenericType]. *)
Definition type_generically_matches (concreteType maybeGenericType : Ty) : bool :=
  if isGeneric maybeGenericType
  then negb (find_generic_index concreteType maybeGenericType false =? -1)
  else matches concreteType maybeGenericType.

(** First loop of [parameters_match]: figure out a consistent generic index,
    or bail ([None]) on a contradiction. *)
Fixpoint consistent_generic_index (params otherParams : list VariableT)
    (genericIndex : Z) : option Z :=
  match params, otherParams with
  | param :: params', other :: otherParams' =>
      if isGeneric (var_type other) then
        let genericIndexForThisParam :=
          find_generic_index (var_type param) (var_type other) false in
        if genericIndexForThisParam =? -1 then None
        else if negb (genericIndex =? -1) &&
                negb (genericIndex =? genericIndexForThisParam) then None
        else consistent_generic_index params' otherParams' genericIndexForThisParam
      else consistent_generic_index params' otherParams' genericIndex
  | _, _ => Some genericIndex
  end.

(** Second loop: make generic types concrete and detect type mismatches.  The
    source asserts that the index is inside the family; outside it there is
    no type to compare with. *)
Fixpoint concrete_types_match (params otherParams : list VariableT)
    (genericIndex : Z) : bool :=
  match params, otherParams with
  | param :: params', other :: otherParams' =>
      let otherParamType :=
        if isGeneric (var_type other)
        then coercibleTypes (var_type other) !! Z.to_nat genericIndex
        else Some (var_type other) in
      match otherParamType with
      | Some t =>
          if negb (matches (var_type param) t) then false
          else concrete_types_match params' otherParams' genericIndex
      | None => false
      end
  | _, _ => true
  end.

(** Checks a parameter list ([params]) against the parameters of a function
    that was declared earlier ([otherParams]). *)
Definition parameters_match (params otherParams : list VariableT) : bool :=
  if negb (length params =? length otherParams)%nat then false
  else
    match consistent_generic_index params otherParams (-1) with
    | None => false
    | Some genericIndex => concrete_types_match params otherParams genericIndex
    end.

(** *** Declarations and the symbol table *)

(** [FunctionDeclaration].  [fd_definition] tells whether a body is attached
    ([fDefinition] is not null); it is null at construction and set later. *)
Record FunctionDeclaration := mkFunctionDeclaration {
  fd_fPosition : Position;
  fd_modifiers : ModifiersT;
  fd_name : string;
  fd_parameters : list VariableT;
  fd_returnType : Ty;
  fd_isBuiltin : bool;
  fd_isMain : bool;
  fd_intrinsicKind : Z;
  fd_definition : bool
}.

(** The constructor. *)
Definition newFunctionDeclaration (pos : Position) (modifiers : ModifiersT)
    (name : string) (parameters : list VariableT) (returnType : Ty)
    (builtin : bool) : FunctionDeclaration :=
  {| fd_fPosition := pos;
     fd_modifiers := modifiers;
     fd_name := name;
     fd_parameters := parameters;
     fd_returnType := returnType;
     fd_isBuiltin := builtin;
     fd_isMain := String.eqb name "main";
     fd_intrinsicKind := if builtin then identify_intrinsic name else kNotIntrinsic;
     fd_definition := false |}.

(** [description]: [returntype name(type p, type q)]. *)
Fixpoint describe_parameters (separator : string) (parameters : list VariableT)
    : string :=
  match parameters with
  | [] => ""
  | p :: rest =>
      separator +:+ displayName (var_type p) +:+ " " +:+ var_name p +:+
      describe_parameters ", " rest
  end.

Definition description (f : FunctionDeclaration) : string :=
  displayName (fd_returnType f) +:+ " " +:+ fd_name f +:+ "(" +:+
  describe_parameters "" (fd_parameters f) +:+ ")".

(** A symbol is a function, given by its overload chain in the order in which
    [nextOverload] walks it, or something else (a variable, a type). *)
Inductive Symbol :=
  | SymbolFunction (overloads : list FunctionDeclaration)
  | SymbolOther.

(** One scope: the symbols by name, and the parameters the table owns. *)
Record SymbolTable := mkSymbolTable {
  fSymbols : gmap string Symbol;
  fOwnedSymbols : list VariableT
}.

Definition emptySymbolTable : SymbolTable :=
  {| fSymbols := ∅; fOwnedSymbols := [] |}.

(** The overload chain bound to a name (empty when the name is unbound). *)
Definition overloads (symbols : SymbolTable) (name : string)
    : list FunctionDeclaration :=
  match fSymbols symbols !! name with
  | Some (SymbolFunction chain) => chain
  | _ => []
  end.

(** A pointer to a declaration owned by the table: its name and its place in
    the overload chain. *)
Definition DeclRef : Type := string * nat.

Definition deref (symbols : SymbolTable) (r : DeclRef) : option FunctionDeclaration :=
  overloads symbols r.1 !! r.2.

(** Modelled from the spec: [SymbolTable::takeOwnershipOfSymbol], which is
    outside the slice: the table takes ownership of a parameter record. *)
Definition takeOwnershipOfSymbol (symbols : SymbolTable) (param : VariableT)
    : SymbolTable :=
  {| fSymbols := fSymbols symbols;
     fOwnedSymbols := fOwnedSymbols symbols ++ [param] |}.

(** Modelled from the spec: [SymbolTable::add] for a function declaration,
    which is outside the slice: the new declaration is appended to the
    overload chain of its name, which is kept in declaration order.  A name
    bound to another kind of symbol is left alone. *)
Definition add (symbols : SymbolTable) (decl : FunctionDeclaration)
    : SymbolTable * DeclRef :=
  match fSymbols symbols !! fd_name decl with
  | Some SymbolOther => (symbols, (fd_name decl, 0%nat))
  | _ =>
      let chain := overloads symbols (fd_name decl) in
      ({| fSymbols := <[fd_name decl := SymbolFunction (chain ++ [decl])]> (fSymbols symbols);
          fOwnedSymbols := fOwnedSymbols symbols |},
       (fd_name decl, length chain))
  end.

(** *** Overload resolver *)

(** The loop comparing modifiers of corresponding parameters; the first
    difference is the error. *)
Fixpoint find_modifier_mismatch (parameters otherParameters : list VariableT)
    (i : nat) : option (Position * string) :=
  match parameters, otherParameters with
  | param :: parameters', other :: otherParameters' =>
      if bool_decide (var_modifiers param ≠ var_modifiers other) then
        Some (var_fPosition param,
              "modifiers on parameter " +:+ pretty (i + 1)%nat +:+
              " differ between declaration and definition")
      else find_modifier_mismatch parameters' otherParameters' (S i)
  | _, _ => None
  end.

(** The walk over the overload chain in [find_existing_declaration].  [index]
    is the place of the head of [chain] in the whole chain. *)
Fixpoint scan_overloads (context : Context) (pos : Position) (name : string)
    (parameters : list VariableT) (returnTypePos : Position) (returnType : Ty)
    (chain : list FunctionDeclaration) (index : nat)
    : bool * option nat * Errors :=
  match chain with
  | [] => (true, None, [])
  | other :: next =>
      if negb (parameters_match parameters (fd_parameters other)) then
        scan_overloads context pos name parameters returnTypePos returnType
                       next (S index)
      else if negb (type_generically_matches returnType (fd_returnType other)) then
        let invalidDecl :=
          newFunctionDeclaration pos (fd_modifiers other) name parameters
                                 returnType (fIsBuiltinCode context) in
        (false, None,
         [(returnTypePos,
           "functions '" +:+ description invalidDecl +:+ "' and '" +:+
           description other +:+ "' differ only in return type")])
      else
        match find_modifier_mismatch parameters (fd_parameters other) 0 with
        | Some e => (false, None, [e])
        | None =>
            if fd_definition other || fd_isBuiltin other then
              (false, None, [(pos, "duplicate definition of " +:+ description other)])
            else (true, Some index, [])
        end
  end.

(** Checks for a previously existing declaration of this function, reporting
    errors if there is an incompatible symbol.  Returns true and the existing
    declaration (or none) on success, false on error. *)
Definition find_existing_declaration (context : Context) (symbols : SymbolTable)
    (pos : Position) (name : string) (parameters : list VariableT)
    (returnTypePos : Position) (returnType : Ty)
    : bool * option nat * Errors :=
  match fSymbols symbols !! name with
  | None => (true, None, [])
  | Some SymbolOther =>
      (false, None, [(pos, "symbol '" +:+ name +:+ "' was already defined")])
  | Some (SymbolFunction chain) =>
      scan_overloads context pos name parameters returnTypePos returnType chain 0
  end.

(** [FunctionDeclaration::Convert].  The result is the declaration returned
    (none for [nullptr]), the symbol table afterwards and the errors
    reported. *)
Definition Convert (context : Context) (symbols : SymbolTable) (pos : Position)
    (modifiersPosition : Position) (modifiers : ModifiersT) (name : string)
    (parameters : list VariableT) (returnTypePos : Position) (returnType : Ty)
    : option DeclRef * SymbolTable * Errors :=
  let isMain := String.eqb name "main" in
  let '(ok, e1) := check_modifiers context modifiersPosition modifiers in
  if negb ok then (None, symbols, e1) else
  let '(ok, e2) := check_return_type context returnTypePos returnType in
  if negb ok then (None, symbols, e1 ++ e2) else
  let '(ok, parameters, e3) := check_parameters context parameters isMain in
  if negb ok then (None, symbols, e1 ++ e2 ++ e3) else
  let '(ok, e4) :=
    if isMain then check_main_signature context pos returnType parameters
    else (true, []) in
  if negb ok then (None, symbols, e1 ++ e2 ++ e3 ++ e4) else
  let '(ok, decl, e5) :=
    find_existing_declaration context symbols pos name parameters
                              returnTypePos returnType in
  let errors := e1 ++ e2 ++ e3 ++ e4 ++ e5 in
  if negb ok then (None, symbols, errors) else
  let symbols := foldl takeOwnershipOfSymbol symbols parameters in
  match decl with
  | Some index => (Some (name, index), symbols, errors)
  | None =>
      let result :=
        newFunctionDeclaration pos modifiers name parameters returnType
                               (fIsBuiltinCode context) in
      let '(symbols, r) := add symbols result in
      (Some r, symbols, errors)
  end.

(** *** Name mangler *)

Definition mangledName (f : FunctionDeclaration) : string :=
  if (fd_isBuiltin f && negb (fd_definition f)) || fd_isMain f then fd_name f
  else
    let name := fd_name f in
    let '(name, builtinMarker) :=
      if starts_with name "$"%char then (remove_prefix name, "Q"%string)
      else (name, ""%string) in
    let splitter := if ends_with name "_"%char then "x_"%string else "_"%string in
    let result :=
      name +:+ splitter +:+ builtinMarker +:+ abbreviatedName (fd_returnType f) in
    foldl (λ result p, result +:+ abbreviatedName (var_type p)) result
          (fd_parameters f).

(** [FunctionDeclaration::matches]. *)
Fixpoint parameter_types_match (parameters otherParameters : list VariableT) : bool :=
  match parameters, otherParameters with
  | p :: ps, o :: os =>
      if negb (matches (var_type p) (var_type o)) then false
      else parameter_types_match ps os
  | _, _ => true
  end.

Definition FunctionDeclaration_matches (this f : FunctionDeclaration) : bool :=
  if negb (String.eqb (fd_name this) (fd_name f)) then false
  else if negb (length (fd_parameters this) =? length (fd_parameters f))%nat then false
  else parameter_types_match (fd_parameters this) (fd_parameters f).

(** *** Call-site resolution *)

(** The loop of [determineFinalTypes] over the arguments (given by their
    types); [parameters] are the parameters from the current index on. *)
Fixpoint determineFinalTypes_from (arguments : list Ty)
    (parameters : list VariableT) (genericIndex : Z)
    (outParameterTypes : list Ty) : Outcome (Z * list Ty) :=
  match arguments with
  | [] => Returns (genericIndex, outParameterTypes)
  | argument :: arguments' =>
      match parameters with
      | [] => OutOfRange
      | parameter :: parameters' =>
          let parameterType := var_type parameter in
          if negb (isGeneric parameterType) then
            determineFinalTypes_from arguments' parameters' genericIndex
                                     (outParameterTypes ++ [parameterType])
          else
            let genericIndex :=
              if genericIndex =? -1
              then find_generic_index argument parameterType true
              else genericIndex in
            if genericIndex =? -1 then ReturnsFalse
            else
              match coercibleTypes parameterType !! Z.to_nat genericIndex with
              | Some t =>
                  determineFinalTypes_from arguments' parameters' genericIndex
                                           (outParameterTypes ++ [t])
              | None => OutOfRange
              end
      end
  end.

Definition determineFinalTypes (f : FunctionDeclaration) (arguments : list Ty)
    : Outcome (list Ty * Ty) :=
  match determineFinalTypes_from arguments (fd_parameters f) (-1) [] with
  | Returns (genericIndex, outParameterTypes) =>
      let returnType := fd_returnType f in
      if isGeneric returnType then
        if genericIndex =? -1 then ReturnsFalse
        else
          match coercibleTypes returnType !! Z.to_nat genericIndex with
          | Some t => Returns (outParameterTypes, t)
          | None => OutOfRange
          end
      else Returns (outParameterTypes, returnType)
  | ReturnsFalse => ReturnsFalse
  | OutOfRange => OutOfRange
  end.

(** *** Sequences of declarations and the properties stated about them *)

(** The four validation steps of [Convert], in its order and with its short
    circuit: the verdict, the parameters as the steps leave them and the
    errors reported. *)
Definition validate (context : Context) (pos modifiersPosition : Position)
    (modifiers : ModifiersT) (name : string) (parameters : list VariableT)
    (returnTypePos : Position) (returnType : Ty)
    : bool * list VariableT * Errors :=
  let isMain := String.eqb name "main" in
  let '(ok, e1) := check_modifiers context modifiersPosition modifiers in
  if negb ok then (false, parameters, e1) else
  let '(ok, e2) := check_return_type context returnTypePos returnType in
  if negb ok then (false, parameters, e1 ++ e2) else
  let '(ok, parameters, e3) := check_parameters context parameters isMain in
  if negb ok then (false, parameters, e1 ++ e2 ++ e3) else
  let '(ok, e4) :=
    if isMain then check_main_signature context pos returnType parameters
    else (true, []) in
  (ok, parameters, e1 ++ e2 ++ e3 ++ e4).

(** A candidate declaration as the parser hands it to [Convert]. *)
Record Candidate := mkCandidate {
  c_context : Context;
  c_pos : Position;
  c_modifiersPosition : Position;
  c_modifiers : ModifiersT;
  c_name : string;
  c_parameters : list VariableT;
  c_returnTypePos : Position;
  c_returnType : Ty
}.

Definition ConvertCandidate (symbols : SymbolTable) (c : Candidate)
    : option DeclRef * SymbolTable * Errors :=
  Convert (c_context c) symbols (c_pos c) (c_modifiersPosition c)
          (c_modifiers c) (c_name c) (c_parameters c) (c_returnTypePos c)
          (c_returnType c).

(** The symbol table after a sequence of declarations went through
    [Convert], one after the other. *)
Fixpoint ConvertAll (symbols : SymbolTable) (cs : list Candidate) : SymbolTable :=
  match cs with
  | [] => symbols
  | c :: cs' => ConvertAll (ConvertCandidate symbols c).1.2 cs'
  end.

(** Two declarations have the same signature: parameter lists of the same
    length whose types match one by one, and matching return types. *)
Definition same_signature (d1 d2 : FunctionDeclaration) : bool :=
  (length (fd_parameters d1) =? length (fd_parameters d2))%nat &&
  parameter_types_match (fd_parameters d1) (fd_parameters d2) &&
  matches (fd_returnType d1) (fd_returnType d2).

(** No two declarations recorded under one name have the same signature. *)
Definition signatures_unique (symbols : SymbolTable) : Prop :=
  ∀ name (i j : nat) di dj,
    overloads symbols name !! i = Some di →
    overloads symbols name !! j = Some dj →
    i ≠ j →
    same_signature di dj = false.

(** No recorded declaration matches, parameter list against parameter list
    with the generic types of the earlier one resolved, a declaration
    recorded earlier under the same name. *)
Definition never_matches_earlier (symbols : SymbolTable) : Prop :=
  ∀ name (i j : nat) di dj,
    overloads symbols name !! i = Some di →
    overloads symbols name !! j = Some dj →
    (i < j)%nat →
    fd_name di = name ∧ fd_name dj = name ∧
    parameters_match (fd_parameters dj) (fd_parameters di) = false.

(** What the walk decides at a declaration whose parameters match. *)
Definition decide_at (context : Context) (pos : Position) (name : string)
    (parameters : list VariableT) (returnTypePos : Position) (returnType : Ty)
    (other : FunctionDeclaration) (index : nat) : bool * option nat * Errors :=
  if negb (type_generically_matches returnType (fd_returnType other)) then
    (false, None,
     [(returnTypePos,
       "functions '" +:+
       description (newFunctionDeclaration pos (fd_modifiers other) name
                      parameters returnType (fIsBuiltinCode context)) +:+
       "' and '" +:+ description other +:+ "' differ only in return type")])
  else
    match find_modifier_mismatch parameters (fd_parameters other) 0 with
    | Some e => (false, None, [e])
    | None =>
        if fd_definition other || fd_isBuiltin other then
          (false, None, [(pos, "duplicate definition of " +:+ description other)])
        else (true, Some index, [])
    end.

(** Every declaration of an overload chain carries the name of the chain. *)
Definition names_agree (symbols : SymbolTable) : Prop :=
  ∀ name (i : nat) d, overloads symbols name !! i = Some d → fd_name d = name.

(** None of the parameter types is generic. *)
Definition no_generic_parameter (parameters : list VariableT) : Prop :=
  Forall (λ p, isGeneric (var_type p) = false) parameters.

(** The declaration takes the literal-name branch of [mangledName]. *)
Definition keeps_literal_name (f : FunctionDeclaration) : bool :=
  (fd_isBuiltin f && negb (fd_definition f)) || fd_isMain f.

(** The abbreviated return type followed by the abbreviated parameter types,
    the tail of a mangled name. *)
Definition abbreviatedSignature (f : FunctionDeclaration) : string :=
  foldl (λ result p, result +:+ abbreviatedName (var_type p))
        (abbreviatedName (fd_returnType f)) (fd_parameters f).

(** The normalisation of one parameter: the implicit [in], then the role. *)
Definition normalise (context : Context) (isMain : bool) (type : Ty)
    (m : ModifiersT) (k : nat) : ModifiersT * nat :=
  if isMain then inferMainRole context type (stripImplicitIn m) k
  else (stripImplicitIn m, k).

(** The part of a mangled name that comes from the name alone: the name
    without its dollar sign, the splitter and the builtin marker. *)
Definition mangledStem (name : string) : string :=
  let '(name, builtinMarker) :=
    if starts_with name "$"%char then (remove_prefix name, "Q"%string)
    else (name, ""%string) in
  let splitter := if ends_with name "_"%char then "x_"%string else "_"%string in
  name +:+ splitter +:+ builtinMarker.

(** Declarations that differ in a parameter type have different mangled
    names. *)
Definition mangling_injective : Prop :=
  ∀ f1 f2 : FunctionDeclaration,
    map var_type (fd_parameters f1) ≠ map var_type (fd_parameters f2) →
    mangledName f1 ≠ mangledName f2.

(** The string begins with a character that passes the test. *)
Definition starts_with_test (test : ascii → bool) (s : string) : bool :=
  match s with
  | String a _ => test a
  | EmptyString => false
  end.

(** Every character of the string passes the test. *)
Fixpoint all_chars (test : ascii → bool) (s : string) : bool :=
  match s with
  | EmptyString => true
  | String a rest => test a && all_chars test rest
  end.

(** The types of a signature: the return type, then the parameter types. *)
Definition signatureTypes (f : FunctionDeclaration) : list Ty :=
  fd_returnType f :: map var_type (fd_parameters f).

(** An abbreviation that can be found again in a mangled name: one leading
    character, then characters that lead no abbreviation and are no
    underscore. *)
Definition delimited (leads : ascii → bool) (w : string) : Prop :=
  ∃ c rest,
    w = String c rest ∧ leads c = true ∧
    all_chars (λ x, negb (leads x) && negb (Ascii.eqb x "_"%char)) rest = true.

(** Overloading on the return type alone is rejected against whichever
    declaration of the name the candidate's parameters match: the resolver
    fails with the error "functions ... differ only in return type". *)
Definition return_type_overloading_rejected : Prop :=
  ∀ context symbols pos name parameters rtpos returnType (i : nat) other,
    overloads symbols name !! i = Some other →
    parameters_match parameters (fd_parameters other) = true →
    type_generically_matches returnType (fd_returnType other) = false →
    ∃ d1 d2,
      find_existing_declaration context symbols pos name parameters rtpos returnType =
      (false, None,
       [(rtpos,
         "functions '" +:+ d1 +:+ "' and '" +:+ d2 +:+ "' differ only in return type")]).

(** A full re-declaration of whichever declaration of the name is a
    duplicate definition exactly when that declaration has a body or is a
    builtin, and is otherwise answered with that declaration. *)
Definition redeclaration_decided_by_declaration : Prop :=
  ∀ context symbols pos name parameters rtpos returnType (i : nat) other,
    overloads symbols name !! i = Some other →
    parameters_match parameters (fd_parameters other) = true →
    type_generically_matches returnType (fd_returnType other) = true →
    map var_modifiers parameters = map var_modifiers (fd_parameters other) →
    find_existing_declaration context symbols pos name parameters rtpos returnType =
    if fd_definition other || fd_isBuiltin other
    then (false, None, [(pos, "duplicate definition of " +:+ description other)])
    else (true, Some i, []).

(** Re-running the signature validator on a recorded declaration, with the
    positions of the modifiers and of the return type. *)
Definition revalidate (context : Context) (modifiersPosition returnTypePos : Position)
    (f : FunctionDeclaration) : bool * list VariableT * Errors :=
  let '(ok1, e1) := check_modifiers context modifiersPosition (fd_modifiers f) in
  let '(ok2, e2) := check_return_type context returnTypePos (fd_returnType f) in
  let '(ok3, parameters, e3) :=
    check_parameters context (fd_parameters f) (fd_isMain f) in
  (ok1 && ok2 && ok3, parameters, e1 ++ e2 ++ e3).

(** Running the validator again on a newly recorded declaration reports
    nothing. *)
Definition revalidation_silent : Prop :=
  ∀ context symbols symbols' pos mpos modifiers name parameters rtpos returnType r
    errors f,
    Convert context symbols pos mpos modifiers name parameters rtpos returnType =
      (Some r, symbols', errors) →
    r.2 = length (overloads symbols name) →
    deref symbols' r = Some f →
    (revalidate context mpos rtpos f).2 = [].

(** A parameter of [main] that is a plain colour: a type valid for a colour
    (and so not the coordinate type), legal in this code, and no modifier or
    layout flag. *)
Definition color_parameter (context : Context) (p : VariableT) : Prop :=
  typeIsValidForColor (var_type p) = true ∧
  matches (var_type p) fFloat2 = false ∧
  isEffectChild (var_type p) && negb (fIsBuiltinCode context) = false ∧
  fFlags (var_modifiers p) = 0 ∧
  fLayoutFlags (fLayout (var_modifiers p)) = 0.

(** The role given to the colour parameter number [k]: the entry [k] of the
    two-slot table, and nothing beyond the table. *)
Definition tagColor (k : nat) (p : VariableT) : VariableT :=
  match kBuiltinColorIDs !! k with
  | Some builtinID => setModifiers p (setBuiltin (var_modifiers p) builtinID)
  | None => p
  end.

(** *** Further properties stated about the code *)


(** The name the mangler works on: the name without a leading dollar sign. *)
Definition strippedName (name : string) : string :=
  if starts_with name "$"%char then remove_prefix name else name.

(** The flags hold [in] without [out]. *)
Definition lone_in (m : ModifiersT) : bool :=
  Z.land (fFlags m) (Z.lor Modifiers.kOut_Flag Modifiers.kIn_Flag) =? Modifiers.kIn_Flag.

(** What the validator has established of a declaration that [Convert]
    recorded: the modifiers are not both inline and noinline, the return type
    is no array, no parameter carries a lone [in], no body is attached, the
    entry-point flag follows the name; and for user code the return type has
    no opaque component, no parameter is an effect child, and the declaration
    is no intrinsic. *)
Definition validated_declaration (d : FunctionDeclaration) : Prop :=
  (Z.land (fFlags (fd_modifiers d)) Modifiers.kInline_Flag = 0 ∨
   Z.land (fFlags (fd_modifiers d)) Modifiers.kNoInline_Flag = 0) ∧
  isArray (fd_returnType d) = false ∧
  Forall (λ p, lone_in (var_modifiers p) = false) (fd_parameters d) ∧
  fd_definition d = false ∧
  fd_isMain d = String.eqb (fd_name d) "main" ∧
  (fd_isBuiltin d = false →
   isOpaque (componentType (fd_returnType d)) = false ∧
   Forall (λ p, isEffectChild (var_type p) = false) (fd_parameters d) ∧
   fd_intrinsicKind d = kNotIntrinsic).

(** Every declaration of the table is a validated one. *)
Definition all_validated (symbols : SymbolTable) : Prop :=
  ∀ name (i : nat) d, overloads symbols name !! i = Some d → validated_declaration d.

(** A parameter of [main] that is plain coordinates: the coordinate type,
    legal in this code, written with no modifier or with [in] alone, and no
    layout flag. *)
Definition coords_parameter (context : Context) (p : VariableT) : Prop :=
  matches (var_type p) fFloat2 = true ∧
  isEffectChild (var_type p) && negb (fIsBuiltinCode context) = false ∧
  (fFlags (var_modifiers p) = 0 ∨ fFlags (var_modifiers p) = Modifiers.kIn_Flag) ∧
  fLayoutFlags (fLayout (var_modifiers p)) = 0.

(** The coordinate parameter as [check_parameters] leaves it. *)
Definition tagCoords (p : VariableT) : VariableT :=
  setModifiers p {| fFlags := 0;
                    fLayout := {| fLayoutFlags := 0;
                                  fBuiltin := SK_MAIN_COORDS_BUILTIN |} |}.

(** The program kinds for whose [main] a parameter gets no role. *)
Definition infers_no_role (kind : ProgramKind) : bool :=
  match kind with
  | kMeshVertex | kMeshFragment | kGeneric | kVertex | kGraphiteVertex | kCompute => true
  | _ => false
  end.

(** The runtime effects whose [main] takes colours and coordinates. *)
Definition is_color_effect (kind : ProgramKind) : bool :=
  match kind with
  | kRuntimeColorFilter | kRuntimeShader | kPrivateRuntimeShader | kRuntimeBlender => true
  | _ => false
  end.

(** The program kinds whose [main] takes no parameter. *)
Definition takes_no_parameter (kind : ProgramKind) : bool :=
  match kind with
  | kVertex | kGraphiteVertex | kCompute => true
  | _ => false
  end.

(** A parameter list matches an earlier one with the generic types of the
    earlier one resolved at the index [genericIndex]: a generic parameter
    resolves, without narrowing, to that index, and the candidate's type
    matches the member of the family at that index; any other parameter's
    type is matched by the candidate's type. *)
Definition resolved_match (params otherParams : list VariableT) (genericIndex : Z)
    : Prop :=
  ∀ (i : nat) p o,
    params !! i = Some p → otherParams !! i = Some o →
    if isGeneric (var_type o)
    then find_generic_index (var_type p) (var_type o) false = genericIndex ∧
         genericIndex ≠ -1 ∧
         ∃ t, coercibleTypes (var_type o) !! Z.to_nat genericIndex = Some t ∧
              matches (var_type p) t = true
    else matches (var_type p) (var_type o) = true.

(** The types a call resolves to, for the parameters from some place on and
    the index [genericIndex]: the declared type of a parameter that is not
    generic, the member of the family at the index for a generic one. *)
Definition resolved_types (parameters : list VariableT) (genericIndex : Z)
    (types : list Ty) : Prop :=
  ∀ (i : nat) p t,
    parameters !! i = Some p → types !! i = Some t →
    if isGeneric (var_type p)
    then genericIndex ≠ -1 ∧
         coercibleTypes (var_type p) !! Z.to_nat genericIndex = Some t
    else t = var_type p.

End FunctionDeclaration.

Arguments VariableT Ty : clear implicits.
Arguments Candidate Ty : clear implicits.
Arguments FunctionDeclaration Ty : clear implicits.
Arguments Symbol Ty : clear implicits.
Arguments SymbolTable Ty : clear implicits.

(** ** A small instance of the type system *)

(** Modelled from the spec: a few SkSL types with the capabilities of
    [TypeOps].  The type system is outside the slice; this instance has the
    scalar and vector types the scenarios name, two generic families in their
    declared order, a struct, an array and two opaque types.  Types match when
    they are the same type; a half type widens to the float type of the same
    size, and a float type coerces to the half type of the same size only
    when narrowing is allowed. *)
Module SkSL.

Inductive Type_ :=
  | Void | Int
  | Float | Float2 | Float3 | Float4
  | Half | Half2 | Half3 | Half4
  | GenType | GenHType
  | Struct (name : string)
  | FloatArray
  | Shader
  | Texture2D.

#[global] Instance Type_eq_dec : EqDecision Type_.
Proof. solve_decision. Defined.

Definition family (t : Type_) : list Type_ :=
  match t with
  | GenType => [Float; Float2; Float3; Float4]
  | GenHType => [Half; Half2; Half3; Half4]
  | _ => []
  end.

Definition widens (from to : Type_) : bool :=
  match from, to with
  | Half, Float | Half2, Float2 | Half3, Float3 | Half4, Float4 => true
  | _, _ => false
  end.

Definition coerces (from to : Type_) (allowNarrowing : bool) : bool :=
  bool_decide (from = to) || widens from to ||
  (allowNarrowing && widens to from) ||
  bool_decide (to ∈ family from).

Definition name (t : Type_) : string :=
  match t with
  | Void => "void" | Int => "int"
  | Float => "float" | Float2 => "float2" | Float3 => "float3" | Float4 => "float4"
  | Half => "half" | Half2 => "half2" | Half3 => "half3" | Half4 => "half4"
  | GenType => "$genType" | GenHType => "$genHType"
  | Struct n => n
  | FloatArray => "float[4]"
  | Shader => "shader"
  | Texture2D => "texture2D"
  end.

Definition abbreviation (t : Type_) : string :=
  match t with
  | Void => "v" | Int => "i"
  | Float => "f" | Float2 => "f2" | Float3 => "f3" | Float4 => "f4"
  | Half => "h" | Half2 => "h2" | Half3 => "h3" | Half4 => "h4"
  | GenType | GenHType => "G"
  | Struct _ => "S"
  | FloatArray => "A"
  | Shader => "Es"
  | Texture2D => "T"
  end.

#[global] Instance ops : TypeOps Type_ := {|
  matches a b := bool_decide (a = b);
  canCoerceTo := coerces;
  isGeneric t := match t with GenType | GenHType => true | _ => false end;
  coercibleTypes := family;
  isArray t := match t with FloatArray => true | _ => false end;
  isOrContainsArray t := match t with FloatArray => true | _ => false end;
  isOpaque t := match t with Shader | Texture2D => true | _ => false end;
  isEffectChild t := match t with Shader => true | _ => false end;
  isTexture t := match t with Texture2D => true | _ => false end;
  isStruct t := match t with Struct _ => true | _ => false end;
  componentType t :=
    match t with
    | Float2 | Float3 | Float4 | FloatArray => Float
    | Half2 | Half3 | Half4 => Half
    | _ => t
    end;
  typeName := name;
  abbreviatedName := abbreviation;
  displayName := name;
  fHalf4 := Half4;
  fFloat4 := Float4;
  fFloat2 := Float2;
  fVoid := Void
|}.

#[global] Instance intrinsics : Intrinsics :=
  {| SKSL_INTRINSIC_LIST := ["abs"; "sin"; "cos"; "sqrt"; "mix"]%string |}.

(** A parameter with no modifiers. *)
Definition noModifiers : ModifiersT :=
  {| fFlags := 0; fLayout := {| fLayoutFlags := 0; fBuiltin := -1 |} |}.

Definition param (n : string) (t : Type_) : VariableT Type_ :=
  {| var_fPosition := 0%nat; var_modifiersPosition := 0%nat;
     var_modifiers := noModifiers; var_name := n; var_type := t |}.

Definition userCode (kind : ProgramKind) : Context :=
  {| fIsBuiltinCode := false; strictES2Mode := false; fKind := kind |}.

Definition builtinCode (kind : ProgramKind) : Context :=
  {| fIsBuiltinCode := true; strictES2Mode := false; fKind := kind |}.

Definition candidate (context : Context) (modifiers : ModifiersT)
    (returnType : Type_) (n : string) (parameters : list (VariableT Type_))
    : Candidate Type_ :=
  {| c_context := context; c_pos := 0%nat; c_modifiersPosition := 0%nat;
     c_modifiers := modifiers; c_name := n; c_parameters := parameters;
     c_returnTypePos := 0%nat; c_returnType := returnType |}.

(** [float foo(float3 x)], [float foo(float2 x)] and [int foo(float3 x)] in
    user code. *)
Definition foo3 : Candidate Type_ :=
  candidate (userCode kGeneric) noModifiers Float "foo" [param "x" Float3].
Definition foo2 : Candidate Type_ :=
  candidate (userCode kGeneric) noModifiers Float "foo" [param "x" Float2].
Definition fooInt : Candidate Type_ :=
  candidate (userCode kGeneric) noModifiers Int "foo" [param "x" Float3].

Definition foo3Decl : FunctionDeclaration Type_ :=
  newFunctionDeclaration 0%nat noModifiers "foo" [param "x" Float3] Float false.
Definition foo2Decl : FunctionDeclaration Type_ :=
  newFunctionDeclaration 0%nat noModifiers "foo" [param "x" Float2] Float false.

(** The scope after the first two went through [Convert]. *)
Definition fooScope : SymbolTable Type_ :=
  ConvertAll emptySymbolTable [foo3; foo2].

(** [$genType sin($genType x)] in builtin code. *)
Definition genericSin : Candidate Type_ :=
  candidate (builtinCode kGeneric) noModifiers GenType "sin" [param "x" GenType].
Definition genericSinDecl : FunctionDeclaration Type_ :=
  newFunctionDeclaration 0%nat noModifiers "sin" [param "x" GenType] GenType true.

(** The builtins [float length(float2 x)] and [float length(float3 x)]. *)
Definition length2Decl : FunctionDeclaration Type_ :=
  newFunctionDeclaration 0%nat noModifiers "length" [param "x" Float2] Float true.
Definition length3Decl : FunctionDeclaration Type_ :=
  newFunctionDeclaration 0%nat noModifiers "length" [param "x" Float3] Float true.

(** A builtin [$genType make(float x)]: a generic return type and no
    generic parameter. *)
Definition makeDecl : FunctionDeclaration Type_ :=
  newFunctionDeclaration 0%nat noModifiers "make" [param "x" Float] GenType true.

(** A parameter written with an explicit [in]. *)
Definition inParam (n : string) (t : Type_) : VariableT Type_ :=
  {| var_fPosition := 0%nat; var_modifiersPosition := 0%nat;
     var_modifiers := {| fFlags := Modifiers.kIn_Flag;
                         fLayout := {| fLayoutFlags := 0; fBuiltin := -1 |} |};
     var_name := n; var_type := t |}.

(** A parameter written with [out]. *)
Definition outParam (n : string) (t : Type_) : VariableT Type_ :=
  {| var_fPosition := 0%nat; var_modifiersPosition := 0%nat;
     var_modifiers := {| fFlags := Modifiers.kOut_Flag;
                         fLayout := {| fLayoutFlags := 0; fBuiltin := -1 |} |};
     var_name := n; var_type := t |}.

(** A scope in which [foo] is a variable. *)
Definition variableScope : SymbolTable Type_ :=
  {| fSymbols := {["foo"%string := SymbolOther]}; fOwnedSymbols := [] |}.


(** The builtin [float $helper(float x)] with its body attached, and a user
    function [float helper(float x)]. *)
Definition helperBuiltin : FunctionDeclaration Type_ :=
  {| fd_fPosition := 0%nat; fd_modifiers := noModifiers; fd_name := "$helper";
     fd_parameters := [param "x" Float]; fd_returnType := Float;
     fd_isBuiltin := true; fd_isMain := false; fd_intrinsicKind := kNotIntrinsic;
     fd_definition := true |}.
Definition helperUser : FunctionDeclaration Type_ :=
  newFunctionDeclaration 0%nat noModifiers "helper" [param "x" Float] Float false.

(** The builtin [$genType mix($genType x, $genType y, float a)]. *)
Definition mixDecl : FunctionDeclaration Type_ :=
  newFunctionDeclaration 0%nat noModifiers "mix"
    [param "x" GenType; param "y" GenType; param "a" Float] GenType true.

(** [float f(float x)] in user code, and the builtins
    [$genHType f($genType x)] and [$genType f($genType x)]. *)
Definition fFloat : Candidate Type_ :=
  candidate (userCode kGeneric) noModifiers Float "f" [param "x" Float].
Definition fGenericHalf : Candidate Type_ :=
  candidate (builtinCode kGeneric) noModifiers GenHType "f" [param "x" GenType].
Definition fGeneric : Candidate Type_ :=
  candidate (builtinCode kGeneric) noModifiers GenType "f" [param "x" GenType].
Definition fGenericHalfDecl : FunctionDeclaration Type_ :=
  newFunctionDeclaration 0%nat noModifiers "f" [param "x" GenType] GenHType true.
Definition fGenericDecl : FunctionDeclaration Type_ :=
  newFunctionDeclaration 0%nat noModifiers "f" [param "x" GenType] GenType true.

(** The scope after [float f(float x)] and then the builtin
    [$genHType f($genType x)] went through [Convert]; and the same with
    [$genType f($genType x)]. *)
Definition fHalfScope : SymbolTable Type_ :=
  ConvertAll emptySymbolTable [fFloat; fGenericHalf].
Definition fScope : SymbolTable Type_ :=
  ConvertAll emptySymbolTable [fFloat; fGeneric].

(** A scope that holds the builtin [float length(float2 x)]. *)
Definition lengthScope : SymbolTable Type_ :=
  {| fSymbols := {["length"%string := SymbolFunction [length2Decl]]};
     fOwnedSymbols := [] |}.

(** The user functions [float area(Circle s)] and [float area(Square s)],
    on two struct types. *)
Definition areaCircle : FunctionDeclaration Type_ :=
  newFunctionDeclaration 0%nat noModifiers "area" [param "s" (Struct "Circle")]
    Float false.
Definition areaSquare : FunctionDeclaration Type_ :=
  newFunctionDeclaration 0%nat noModifiers "area" [param "s" (Struct "Square")]
    Float false.

(** [$es3 float f(float x)] in user code, where [$es3] is not permitted. *)
Definition es3Modifiers : ModifiersT :=
  {| fFlags := Modifiers.kES3_Flag;
     fLayout := {| fLayoutFlags := 0; fBuiltin := -1 |} |}.
Definition fEs3 : Candidate Type_ :=
  candidate (userCode kGeneric) es3Modifiers Float "f" [param "x" Float].

(** The parameters of a blender's [main] with their roles. *)
Definition blenderParameters : list (VariableT Type_) :=
  [tagColor 0 (param "src" Half4); tagColor 1 (param "dst" Half4)].

End SkSL.

(** ** Properties *)

Section Properties.
Context {Ty : Type} `{!TypeOps Ty} `{!Intrinsics}.

Implicit Types (params otherParams parameters : list (VariableT Ty)).
Implicit Types (chain : list (FunctionDeclaration Ty)).

(** *** The generic resolver *)

(** The scan from position [k]: either nothing in the list accepts the type,
    or the result is the position of the first candidate that does. *)
Lemma find_generic_index_from_first (c : Ty) (l : list Ty) (n : bool) (k : Z) :
  (find_generic_index_from c l n k = -1 ∧ (0 ≤ k → ∀ t, t ∈ l → canCoerceTo c t n = false))
  ∨ (∃ (i : nat) t,
        find_generic_index_from c l n k = k + Z.of_nat i ∧
        l !! i = Some t ∧ canCoerceTo c t n = true ∧
        ∀ (j : nat) t', (j < i)%nat → l !! j = Some t' → canCoerceTo c t' n = false).
Proof.
  revert k. induction l as [|g l IH]; intros k; simpl.
  - left. split; [done|]. intros _ t Ht. by apply elem_of_nil in Ht.
  - destruct (canCoerceTo c g n) eqn:Hg.
    + destruct (decide (k = -1)) as [->|Hk].
      * left. split; [done|]. lia.
      * right. exists 0%nat, g. repeat split; [lia|done|]. intros j t' Hj. lia.
    + destruct (IH (k + 1)) as [[Hr Hall]|(i & t & Hr & Hi & Ht & Hbefore)].
      * left. split; [done|]. intros Hk t Ht.
        apply elem_of_cons in Ht as [->|Ht]; [done|]. apply Hall; [lia|done].
      * right. exists (S i), t. repeat split; [lia|done|done|].
        intros [|j] t' Hj Hl; simpl in Hl.
        -- by injection Hl as <-.
        -- apply (Hbefore j); [lia|done].
Qed.

(** A result other than -1 is never negative. *)
Lemma find_generic_index_from_range (c : Ty) (l : list Ty) (n : bool) (k : Z) :
  0 ≤ k →
  find_generic_index_from c l n k = -1 ∨
  (k ≤ find_generic_index_from c l n k < k + Z.of_nat (length l)).
Proof.
  revert k. induction l as [|g l IH]; intros k Hk; simpl; [by left|].
  destruct (canCoerceTo c g n); [right; lia|].
  destruct (IH (k + 1)) as [?|?]; [lia|by left|right; lia].
Qed.

(** C3.  [find_generic_index] returns -1 exactly when no candidate of the
    family accepts the concrete type (with narrowing conversions counted only
    as [allowNarrowing] says); otherwise it returns the index of the first
    candidate, in the family's declared order, that accepts it: a candidate
    at a smaller index never does. *)
Theorem find_generic_index_first_match (concreteType genericType : Ty)
    (allowNarrowing : bool) :
  (find_generic_index concreteType genericType allowNarrowing = -1 ∧
   ∀ t, t ∈ coercibleTypes genericType →
        canCoerceTo concreteType t allowNarrowing = false)
  ∨ (∃ (i : nat) t,
        find_generic_index concreteType genericType allowNarrowing = Z.of_nat i ∧
        coercibleTypes genericType !! i = Some t ∧
        canCoerceTo concreteType t allowNarrowing = true ∧
        ∀ (j : nat) t', (j < i)%nat → coercibleTypes genericType !! j = Some t' →
                        canCoerceTo concreteType t' allowNarrowing = false).
Proof.
  unfold find_generic_index.
  destruct (find_generic_index_from_first concreteType (coercibleTypes genericType)
              allowNarrowing 0) as [[Hr Hall]|(i & t & Hr & Hrest)].
  - left. split; [done|]. apply Hall. lia.
  - right. exists i, t. split; [lia|done].
Qed.

(** What the first loop of [parameters_match] establishes: an index once
    fixed stays, and every generic parameter resolves to the final index. *)
Lemma consistent_generic_index_spec params otherParams (g g' : Z) :
  consistent_generic_index params otherParams g = Some g' →
  (g ≠ -1 → g' = g) ∧
  ∀ (i : nat) p o, params !! i = Some p → otherParams !! i = Some o →
    isGeneric (var_type o) = true →
    find_generic_index (var_type p) (var_type o) false = g' ∧ g' ≠ -1.
Proof.
  revert otherParams g.
  induction params as [|p ps IH]; intros [|o os] g Hc; simpl in Hc;
    try (injection Hc as <-; split; [done|]; intros [|i] ? ? ? ?; done).
  destruct (isGeneric (var_type o)) eqn:Hgen.
  - destruct (find_generic_index (var_type p) (var_type o) false =? -1) eqn:Hm1;
      [done|].
    apply Z.eqb_neq in Hm1.
    destruct (negb (g =? -1) && negb (g =? find_generic_index (var_type p) (var_type o) false))
      eqn:Hcontra; [done|].
    destruct (IH _ _ Hc) as [Hfix Hall]. specialize (Hfix Hm1). subst g'.
    split.
    + intros Hg. apply andb_false_iff in Hcontra as [Hx|Hx];
        apply negb_false_iff, Z.eqb_eq in Hx; congruence.
    + intros [|i] p' o' Hp Ho Hgen'; simpl in Hp, Ho.
      * injection Hp as <-. injection Ho as <-. done.
      * by apply (Hall i).
  - destruct (IH _ _ Hc) as [Hfix Hall]. split; [done|].
    intros [|i] p' o' Hp Ho Hgen'; simpl in Hp, Ho.
    + injection Ho as <-. congruence.
    + by apply (Hall i).
Qed.

Lemma parameters_match_length params otherParams :
  parameters_match params otherParams = true →
  length params = length otherParams.
Proof.
  unfold parameters_match.
  destruct (length params =? length otherParams)%nat eqn:Hlen; [|done].
  intros _. by apply Nat.eqb_eq.
Qed.

Lemma parameters_match_consistent params otherParams :
  parameters_match params otherParams = true →
  ∃ g, consistent_generic_index params otherParams (-1) = Some g ∧
       concrete_types_match params otherParams g = true.
Proof.
  unfold parameters_match.
  destruct (negb _); [done|].
  destruct (consistent_generic_index params otherParams (-1)) as [g|]; [|done].
  intros Hc. by exists g.
Qed.

(** C2.  Parameter lists of different lengths never match.  When the lists
    match, every generic parameter of the earlier declaration resolves,
    without narrowing, to one and the same family index; so two generic
    parameters that resolve to different indices make [parameters_match]
    return false.  That is no error: the walk over the overload chain skips
    the declaration and goes on, reporting nothing for it. *)
Theorem parameters_match_generic_consistency params otherParams :
  (length params ≠ length otherParams →
   parameters_match params otherParams = false) ∧
  (parameters_match params otherParams = true →
   ∃ genericIndex,
     ∀ (i : nat) p o, params !! i = Some p → otherParams !! i = Some o →
       isGeneric (var_type o) = true →
       find_generic_index (var_type p) (var_type o) false = genericIndex ∧
       genericIndex ≠ -1) ∧
  (∀ (i j : nat) p o p' o',
     params !! i = Some p → otherParams !! i = Some o →
     params !! j = Some p' → otherParams !! j = Some o' →
     isGeneric (var_type o) = true → isGeneric (var_type o') = true →
     find_generic_index (var_type p) (var_type o) false ≠
       find_generic_index (var_type p') (var_type o') false →
     parameters_match params otherParams = false) ∧
  (parameters_match params otherParams = false →
   ∀ context pos name returnTypePos returnType other next index,
     fd_parameters other = otherParams →
     scan_overloads context pos name params returnTypePos returnType
                    (other :: next) index =
     scan_overloads context pos name params returnTypePos returnType
                    next (S index)).
Proof.
  assert (Hcons : parameters_match params otherParams = true →
     ∃ genericIndex,
     ∀ (i : nat) p o, params !! i = Some p → otherParams !! i = Some o →
       isGeneric (var_type o) = true →
       find_generic_index (var_type p) (var_type o) false = genericIndex ∧
       genericIndex ≠ -1).
  { intros Hm. destruct (parameters_match_consistent _ _ Hm) as (g & Hc & _).
    exists g. by apply (consistent_generic_index_spec _ _ _ _ Hc). }
  split; [|split; [done|split]].
  - intros Hlen. unfold parameters_match.
    by apply Nat.eqb_neq in Hlen as ->.
  - intros i j p o p' o' Hp Ho Hp' Ho' Hg Hg' Hne.
    destruct (parameters_match params otherParams) eqn:Hm; [|done].
    destruct (Hcons eq_refl) as (g & Hall).
    destruct (Hall i p o Hp Ho Hg) as [H1 _].
    destruct (Hall j p' o' Hp' Ho' Hg') as [H2 _]. congruence.
  - intros Hm context pos name returnTypePos returnType other next index <-.
    simpl. by rewrite Hm.
Qed.

(** *** Parameters through the validator *)

(** [check_parameters] changes modifiers only: types are kept, also on the
    early return. *)
Lemma check_parameters_from_types context isMain k parameters :
  map var_type (check_parameters_from context isMain k parameters).1.2 =
  map var_type parameters.
Proof.
  revert k. induction parameters as [|p ps IH]; intros k; simpl; [done|].
  destruct (isEffectChild (var_type p) && negb (fIsBuiltinCode context)); [done|].
  destruct (if isMain then _ else _) as [m k'].
  specialize (IH k').
  destruct (check_parameters_from context isMain k' ps) as [[ok rest'] e'].
  simpl in *. by rewrite IH.
Qed.

Lemma validate_types context pos mpos modifiers name parameters rtpos returnType :
  map var_type (validate context pos mpos modifiers name parameters rtpos returnType).1.2 =
  map var_type parameters.
Proof.
  unfold validate.
  destruct (check_modifiers _ _ _) as [[] e1]; simpl; [|done].
  destruct (check_return_type _ _ _) as [[] e2]; simpl; [|done].
  pose proof (check_parameters_from_types context (String.eqb name "main") 0
                parameters) as Ht.
  unfold check_parameters.
  destruct (check_parameters_from _ _ _ _) as [[[] ps] e3]; simpl in *; [|done].
  by destruct (if String.eqb name "main" then _ else _) as [ok e4].
Qed.

(** The generic match reads nothing of the candidate but its types. *)
Lemma consistent_generic_index_types params params' otherParams g :
  map var_type params = map var_type params' →
  consistent_generic_index params otherParams g =
  consistent_generic_index params' otherParams g.
Proof.
  revert params' otherParams g.
  induction params as [|p ps IH]; intros [|p' ps'] os g Hmap; try done.
  injection Hmap as Hty Hrest. simpl.
  destruct os as [|o os]; [done|].
  rewrite Hty. destruct (isGeneric (var_type o)); [|by apply IH].
  repeat case_match; try done. by apply IH.
Qed.

Lemma concrete_types_match_types params params' otherParams g :
  map var_type params = map var_type params' →
  concrete_types_match params otherParams g =
  concrete_types_match params' otherParams g.
Proof.
  revert params' otherParams.
  induction params as [|p ps IH]; intros [|p' ps'] os Hmap; try done.
  injection Hmap as Hty Hrest. simpl.
  destruct os as [|o os]; [done|].
  rewrite Hty.
  destruct (if isGeneric (var_type o) then _ else _) as [t|]; [|done].
  destruct (negb (matches (var_type p') t)); [done|]. by apply IH.
Qed.

Lemma parameters_match_types params params' otherParams :
  map var_type params = map var_type params' →
  parameters_match params otherParams = parameters_match params' otherParams.
Proof.
  intros Hmap. unfold parameters_match.
  assert (length params = length params') as ->.
  { by rewrite <- (length_map var_type params), Hmap, length_map. }
  rewrite (consistent_generic_index_types _ _ _ _ Hmap).
  destruct (negb _); [done|].
  destruct (consistent_generic_index _ _ _); [|done].
  by apply concrete_types_match_types.
Qed.

(** When the earlier declaration has no generic parameter, the generic match
    is the plain comparison of the types, one by one. *)
Lemma concrete_types_match_plain params otherParams g :
  no_generic_parameter otherParams →
  concrete_types_match params otherParams g =
  parameter_types_match params otherParams.
Proof.
  intros Hng. revert params.
  induction Hng as [|o os Ho Hos IH]; intros [|p ps]; simpl; try done.
  rewrite Ho. destruct (negb _); [done|]. apply IH.
Qed.

Lemma consistent_generic_index_plain params otherParams g :
  no_generic_parameter otherParams →
  consistent_generic_index params otherParams g = Some g.
Proof.
  intros Hng. revert params.
  induction Hng as [|o os Ho Hos IH]; intros [|p ps]; simpl; try done.
  rewrite Ho. apply IH.
Qed.

Lemma parameters_match_plain params otherParams :
  no_generic_parameter otherParams →
  parameters_match params otherParams =
  (length params =? length otherParams)%nat &&
  parameter_types_match params otherParams.
Proof.
  intros Hng. unfold parameters_match.
  destruct (length params =? length otherParams)%nat; simpl; [|done].
  rewrite consistent_generic_index_plain by done.
  by apply concrete_types_match_plain.
Qed.

(** *** The walk over the overload chain *)

(** The walk stops at the first declaration whose parameters match. *)
Lemma scan_overloads_first_match context pos name parameters rtpos returnType
    (earlier later : list (FunctionDeclaration Ty)) other index :
  Forall (λ d, parameters_match parameters (fd_parameters d) = false) earlier →
  parameters_match parameters (fd_parameters other) = true →
  scan_overloads context pos name parameters rtpos returnType
                 (earlier ++ other :: later) index =
  decide_at context pos name parameters rtpos returnType other
            (index + length earlier).
Proof.
  intros Hearlier Hother. revert index.
  induction Hearlier as [|d ds Hd Hds IH]; intros index; simpl.
  - rewrite Hother. simpl. unfold decide_at. by rewrite Nat.add_0_r.
  - rewrite Hd. simpl. rewrite IH. f_equal. lia.
Qed.

(** The walk finds nothing exactly when no declaration matches; it then
    reports nothing. *)
Lemma scan_overloads_none context pos name parameters rtpos returnType chain index :
  Forall (λ d, parameters_match parameters (fd_parameters d) = false) chain →
  scan_overloads context pos name parameters rtpos returnType chain index =
  (true, None, []).
Proof.
  intros Hall. revert index.
  induction Hall as [|d ds Hd Hds IH]; intros index; simpl; [done|].
  rewrite Hd. simpl. apply IH.
Qed.

Lemma scan_overloads_new context pos name parameters rtpos returnType chain index e :
  scan_overloads context pos name parameters rtpos returnType chain index =
  (true, None, e) →
  Forall (λ d, parameters_match parameters (fd_parameters d) = false) chain.
Proof.
  revert index. induction chain as [|d ds IH]; intros index; simpl; [done|].
  destruct (parameters_match parameters (fd_parameters d)) eqn:Hd; simpl.
  - repeat case_match; done.
  - intros Hs. constructor; [done|]. by apply (IH (S index)).
Qed.

(** A success of the walk with a declaration points into the chain. *)
Lemma scan_overloads_existing context pos name parameters rtpos returnType chain
    index i e :
  scan_overloads context pos name parameters rtpos returnType chain index =
  (true, Some i, e) →
  (index ≤ i < index + length chain)%nat.
Proof.
  revert index. induction chain as [|d ds IH]; intros index; simpl; [done|].
  destruct (parameters_match parameters (fd_parameters d)) eqn:Hd; simpl.
  - repeat case_match; intros; simplify_eq; lia.
  - intros Hs. apply IH in Hs. lia.
Qed.

(** *** [Convert] *)

Lemma fSymbols_takeOwnership (symbols : SymbolTable Ty) parameters :
  fSymbols (foldl takeOwnershipOfSymbol symbols parameters) = fSymbols symbols.
Proof.
  revert symbols. induction parameters as [|p ps IH]; intros symbols; simpl;
    [done|]. by rewrite IH.
Qed.

Lemma overloads_takeOwnership (symbols : SymbolTable Ty) parameters name :
  overloads (foldl takeOwnershipOfSymbol symbols parameters) name =
  overloads symbols name.
Proof. unfold overloads. by rewrite fSymbols_takeOwnership. Qed.

(** [Convert] is the validation followed by the resolution. *)
Lemma Convert_validate context (symbols : SymbolTable Ty) pos mpos modifiers name
    parameters rtpos returnType :
  Convert context symbols pos mpos modifiers name parameters rtpos returnType =
  match validate context pos mpos modifiers name parameters rtpos returnType with
  | (false, _, e) => (None, symbols, e)
  | (true, ps, e) =>
      match find_existing_declaration context symbols pos name ps rtpos returnType with
      | (false, _, e5) => (None, symbols, e ++ e5)
      | (true, Some index, e5) =>
          (Some (name, index), foldl takeOwnershipOfSymbol symbols ps, e ++ e5)
      | (true, None, e5) =>
          let '(symbols', r) :=
            add (foldl takeOwnershipOfSymbol symbols ps)
                (newFunctionDeclaration pos modifiers name ps returnType
                   (fIsBuiltinCode context)) in
          (Some r, symbols', e ++ e5)
      end
  end.
Proof.
  unfold Convert, validate.
  destruct (check_modifiers _ _ _) as [[] e1]; simpl; [|done].
  destruct (check_return_type _ _ _) as [[] e2]; simpl; [|done].
  destruct (check_parameters _ _ _) as [[[] ps] e3]; simpl; [|done].
  destruct (if String.eqb name "main" then _ else _) as [[] e4]; simpl; [|done].
  destruct (find_existing_declaration _ _ _ _ _ _ _) as [[[] decl] e5]; simpl.
  - destruct decl; simpl.
    + by rewrite !app_assoc.
    + destruct (add _ _). by rewrite !app_assoc.
  - by rewrite !app_assoc.
Qed.

(** C9.  A rejection is atomic: whenever [Convert] returns no declaration,
    whatever step rejected the candidate, the symbol table is the one it was
    given: no declaration was registered and no parameter was handed over. *)
Theorem Convert_rejection_atomic context (symbols symbols' : SymbolTable Ty)
    pos mpos modifiers name parameters rtpos returnType errors :
  Convert context symbols pos mpos modifiers name parameters rtpos returnType =
    (None, symbols', errors) →
  symbols' = symbols ∧
  fSymbols symbols' = fSymbols symbols ∧
  fOwnedSymbols symbols' = fOwnedSymbols symbols.
Proof.
  rewrite Convert_validate.
  destruct (validate _ _ _ _ _ _ _ _) as [[[] ps] e].
  - destruct (find_existing_declaration _ _ _ _ _ _ _) as [[[] [index|]] e5].
    + done.
    + destruct (add _ _). done.
    + by intros [= <- _].
    + by intros [= <- _].
  - by intros [= <- _].
Qed.

(** The chain of a name after [add]. *)
Lemma overloads_add (symbols : SymbolTable Ty) decl name :
  fSymbols symbols !! fd_name decl ≠ Some SymbolOther →
  overloads (add symbols decl).1 name =
  if decide (name = fd_name decl)
  then overloads symbols (fd_name decl) ++ [decl]
  else overloads symbols name.
Proof.
  intros Hother. unfold add.
  destruct (fSymbols symbols !! fd_name decl) as [[chain|]|] eqn:Hl; [|done|].
  - unfold overloads at 1. simpl. case_decide as Hn.
    + subst name. by rewrite lookup_insert_eq.
    + by rewrite lookup_insert_ne.
  - unfold overloads at 1. simpl. case_decide as Hn.
    + subst name. by rewrite lookup_insert_eq.
    + by rewrite lookup_insert_ne.
Qed.

Lemma find_existing_declaration_overloads context (symbols : SymbolTable Ty) pos
    name parameters rtpos returnType ok decl e :
  find_existing_declaration context symbols pos name parameters rtpos returnType =
    (ok, decl, e) →
  ok = true →
  fSymbols symbols !! name ≠ Some SymbolOther ∧
  scan_overloads context pos name parameters rtpos returnType
                 (overloads symbols name) 0 = (ok, decl, e).
Proof.
  unfold find_existing_declaration, overloads.
  destruct (fSymbols symbols !! name) as [[chain|]|]; intros Hf Hok.
  - done.
  - by simplify_eq.
  - by simplify_eq.
Qed.

Lemma add_fresh (symbols : SymbolTable Ty) decl :
  fSymbols symbols !! fd_name decl = None →
  add symbols decl =
  ({| fSymbols := <[fd_name decl := SymbolFunction [decl]]> (fSymbols symbols);
      fOwnedSymbols := fOwnedSymbols symbols |},
   (fd_name decl, 0%nat)).
Proof. intros Hfree. unfold add, overloads. by rewrite Hfree. Qed.

(** What one [Convert] does to the overload chains: it leaves every chain as
    it is, returning nothing or a declaration of the chain; or no recorded
    declaration of that name matches the candidate, and the new declaration
    goes to the end of the chain of its name. *)
Lemma Convert_overloads context (symbols : SymbolTable Ty) pos mpos modifiers name
    parameters rtpos returnType :
  let r := Convert context symbols pos mpos modifiers name parameters rtpos returnType in
  ((r.1.1 = None ∨
    ∃ i, r.1.1 = Some (name, i) ∧ (i < length (overloads symbols name))%nat) ∧
   ∀ name', overloads r.1.2 name' = overloads symbols name')
  ∨ (∃ ps,
       map var_type ps = map var_type parameters ∧
       Forall (λ d, parameters_match ps (fd_parameters d) = false)
              (overloads symbols name) ∧
       r.1.1 = Some (name, length (overloads symbols name)) ∧
       ∀ name', overloads r.1.2 name' =
         if decide (name' = name)
         then overloads symbols name ++
              [newFunctionDeclaration pos modifiers name ps returnType
                 (fIsBuiltinCode context)]
         else overloads symbols name').
Proof.
  intros r. subst r. rewrite Convert_validate.
  pose proof (validate_types context pos mpos modifiers name parameters rtpos
                returnType) as Hty.
  destruct (validate _ _ _ _ _ _ _ _) as [[[] ps] e]; simpl in Hty;
    [|left; split; [by left|done]].
  destruct (find_existing_declaration _ _ _ _ _ _ _) as [[[] decl] e5] eqn:Hf;
    [|left; split; [by left|done]].
  apply find_existing_declaration_overloads in Hf as [Hno Hscan]; [|done].
  destruct decl as [index|].
  - left. simpl. split.
    + right. exists index. split; [done|].
      apply scan_overloads_existing in Hscan. lia.
    + intros name'. apply overloads_takeOwnership.
  - right. exists ps. split; [done|].
    split; [by apply scan_overloads_new in Hscan|].
    set (d := newFunctionDeclaration pos modifiers name ps returnType
                (fIsBuiltinCode context)).
    set (owned := foldl takeOwnershipOfSymbol symbols ps).
    assert (Hno' : fSymbols owned !! fd_name d ≠ Some SymbolOther).
    { subst owned. by rewrite fSymbols_takeOwnership. }
    pose proof (overloads_add owned d) as Hadd.
    assert (Hr : (add owned d).2 = (name, length (overloads symbols name))).
    { unfold add. destruct (fSymbols owned !! fd_name d) as [[chain|]|] eqn:Hl;
        [|done|]; simpl; subst owned; by rewrite overloads_takeOwnership. }
    destruct (add owned d) as [symbols' ref]. simpl in *. subst ref.
    split; [done|]. intros name'. rewrite Hadd by done.
    subst owned. by rewrite !overloads_takeOwnership.
Qed.

(** Every declaration of a chain carries the name of the chain. *)
Lemma Convert_names_agree context (symbols : SymbolTable Ty) pos mpos modifiers name
    parameters rtpos returnType :
  names_agree symbols →
  names_agree (Convert context symbols pos mpos modifiers name parameters rtpos
                 returnType).1.2.
Proof.
  intros Hn.
  destruct (Convert_overloads context symbols pos mpos modifiers name parameters
              rtpos returnType) as [[_ Hsame]|(ps & _ & _ & _ & Hnew)];
    intros name' i d; [rewrite Hsame; apply Hn|].
  rewrite Hnew. case_decide as Hd; [subst name'|apply Hn].
  intros Hl. apply lookup_app_Some in Hl as [Hl|[_ Hl]]; [by apply (Hn _ i)|].
  apply list_lookup_singleton_Some in Hl as [_ <-]. done.
Qed.

Lemma Convert_never_matches_earlier context (symbols : SymbolTable Ty) pos mpos
    modifiers name parameters rtpos returnType :
  names_agree symbols →
  never_matches_earlier symbols →
  never_matches_earlier (Convert context symbols pos mpos modifiers name parameters
                           rtpos returnType).1.2.
Proof.
  intros Hn Hinv.
  destruct (Convert_overloads context symbols pos mpos modifiers name parameters
              rtpos returnType) as [[_ Hsame]|(ps & _ & Hnone & _ & Hnew)];
    intros name' i j di dj; [rewrite !Hsame; apply Hinv|].
  rewrite !Hnew. case_decide as Hd; [subst name'|apply Hinv].
  intros Hi Hj Hlt.
  apply lookup_app_Some in Hj as [Hj|[Hlen Hj]].
  - assert (overloads symbols name !! i = Some di) as Hi'.
    { apply lookup_lt_Some in Hj. rewrite lookup_app_l in Hi; [done|lia]. }
    by apply (Hinv name i j).
  - apply list_lookup_singleton_Some in Hj as [Hj <-].
    assert (overloads symbols name !! i = Some di) as Hi'.
    { rewrite lookup_app_l in Hi; [done|lia]. }
    split; [by apply (Hn _ i)|]. split; [done|]. simpl.
    rewrite Forall_forall in Hnone. apply Hnone.
    by apply list_elem_of_lookup_2 in Hi'.
Qed.

Lemma ConvertAll_invariants (symbols : SymbolTable Ty) (cs : list (Candidate Ty)) :
  names_agree symbols → never_matches_earlier symbols →
  names_agree (ConvertAll symbols cs) ∧ never_matches_earlier (ConvertAll symbols cs).
Proof.
  revert symbols. induction cs as [|c cs IH]; intros symbols Hn Hinv; simpl;
    [done|].
  apply IH.
  - by apply Convert_names_agree.
  - by apply Convert_never_matches_earlier.
Qed.

Lemma emptySymbolTable_overloads name :
  overloads (emptySymbolTable (Ty := Ty)) name = [].
Proof. unfold overloads, emptySymbolTable. simpl. by rewrite lookup_empty. Qed.

(** C1, as it holds.  For every sequence of declarations processed by
    [Convert] into one scope: no recorded declaration matches a declaration
    recorded earlier under the same name, when its parameter list is compared
    with the earlier one after the generic types of the earlier one are
    resolved ([parameters_match]); in particular its parameter types never
    match, one by one, those of an earlier declaration without generic
    parameters.  And a candidate whose parameter list matches in this way a
    recorded declaration of its name is rejected or linked to a recorded
    declaration: every overload chain stays as it was. *)
Theorem recorded_overloads_never_match_earlier (cs : list (Candidate Ty)) :
  never_matches_earlier (ConvertAll emptySymbolTable cs) ∧
  (∀ name (i j : nat) di dj,
     overloads (ConvertAll emptySymbolTable cs) name !! i = Some di →
     overloads (ConvertAll emptySymbolTable cs) name !! j = Some dj →
     (i < j)%nat →
     no_generic_parameter (fd_parameters di) →
     (length (fd_parameters dj) =? length (fd_parameters di))%nat &&
     parameter_types_match (fd_parameters dj) (fd_parameters di) = false) ∧
  (∀ (symbols : SymbolTable Ty) (c : Candidate Ty) other,
     other ∈ overloads symbols (c_name c) →
     parameters_match (c_parameters c) (fd_parameters other) = true →
     (∀ name, overloads (ConvertCandidate symbols c).1.2 name =
              overloads symbols name) ∧
     ((ConvertCandidate symbols c).1.1 = None ∨
      ∃ i, (ConvertCandidate symbols c).1.1 = Some (c_name c, i) ∧
           (i < length (overloads symbols (c_name c)))%nat)).
Proof.
  assert (Hinv : never_matches_earlier (ConvertAll (emptySymbolTable (Ty := Ty)) cs)).
  { apply ConvertAll_invariants.
    - intros name i d. by rewrite emptySymbolTable_overloads.
    - intros name i j di dj. by rewrite emptySymbolTable_overloads. }
  split; [done|split].
  - intros name i j di dj Hi Hj Hlt Hng.
    destruct (Hinv name i j di dj Hi Hj Hlt) as (_ & _ & Hm).
    by rewrite parameters_match_plain in Hm.
  - intros symbols c other Hin Hm. unfold ConvertCandidate.
    destruct (Convert_overloads (c_context c) symbols (c_pos c)
                (c_modifiersPosition c) (c_modifiers c) (c_name c)
                (c_parameters c) (c_returnTypePos c) (c_returnType c))
      as [[Href Hsame]|(ps & Hty & Hnone & _)]; [done|].
    rewrite Forall_forall in Hnone. specialize (Hnone other Hin).
    rewrite (parameters_match_types _ _ _ Hty) in Hnone. congruence.
Qed.

(** *** Conflicts with an existing declaration *)

(** The resolver decides at the first declaration of the chain whose
    parameter list matches the candidate. *)
Lemma find_existing_declaration_first_match context (symbols : SymbolTable Ty) pos
    name parameters rtpos returnType earlier other later :
  fSymbols symbols !! name = Some (SymbolFunction (earlier ++ other :: later)) →
  Forall (λ d, parameters_match parameters (fd_parameters d) = false) earlier →
  parameters_match parameters (fd_parameters other) = true →
  find_existing_declaration context symbols pos name parameters rtpos returnType =
  decide_at context pos name parameters rtpos returnType other (length earlier).
Proof.
  intros Hl Hearlier Hother. unfold find_existing_declaration. rewrite Hl.
  by rewrite scan_overloads_first_match.
Qed.

Lemma find_modifier_mismatch_same parameters otherParams i :
  map var_modifiers parameters = map var_modifiers otherParams →
  find_modifier_mismatch parameters otherParams i = None.
Proof.
  revert otherParams i.
  induction parameters as [|p ps IH]; intros [|o os] i Hmap; try done.
  injection Hmap as Hm Hrest. simpl.
  rewrite bool_decide_eq_false_2 by (intros Hne; by apply Hne).
  by apply IH.
Qed.

(** C4, as it holds.  Overloading on the return type alone is rejected
    against the first declaration whose parameters match.  Let a validated
    candidate reach the resolver, and let [other] be the declaration at which
    the walk over the chain of its name finds a parameter match (the first
    one whose parameter list matches; the walk examines no later one).  If
    the candidate's return type does not generically match the return type of
    [other], be that return type generic or not, the resolver fails with the
    error "functions ... differ only in return type", and [Convert] returns
    no declaration and leaves the symbol table as it was. *)
Theorem return_type_only_overload_rejected context (symbols : SymbolTable Ty) pos
    mpos modifiers name parameters rtpos returnType ps e earlier other later :
  validate context pos mpos modifiers name parameters rtpos returnType =
    (true, ps, e) →
  fSymbols symbols !! name = Some (SymbolFunction (earlier ++ other :: later)) →
  Forall (λ d, parameters_match ps (fd_parameters d) = false) earlier →
  parameters_match ps (fd_parameters other) = true →
  type_generically_matches returnType (fd_returnType other) = false →
  let differ :=
    (rtpos,
     "functions '" +:+
     description (newFunctionDeclaration pos (fd_modifiers other) name ps
                    returnType (fIsBuiltinCode context)) +:+
     "' and '" +:+ description other +:+ "' differ only in return type") in
  find_existing_declaration context symbols pos name ps rtpos returnType =
    (false, None, [differ]) ∧
  Convert context symbols pos mpos modifiers name parameters rtpos returnType =
    (None, symbols, e ++ [differ]).
Proof.
  intros Hv Hl Hearlier Hother Hret differ.
  assert (Hf : find_existing_declaration context symbols pos name ps rtpos
                 returnType = (false, None, [differ])).
  { rewrite (find_existing_declaration_first_match _ _ _ _ _ _ _ _ _ _ Hl Hearlier
               Hother).
    unfold decide_at. by rewrite Hret. }
  split; [done|]. by rewrite Convert_validate, Hv, Hf.
Qed.

(** C5, as it holds.  A full re-declaration of the first declaration whose
    parameters match.  Let a validated candidate reach the resolver, and let
    [other] be the declaration at which the walk over the chain of its name
    finds a parameter match (the first one whose parameter list matches; the
    walk examines no later one).  If the return type
    generically matches that of [other] and the modifiers of corresponding
    parameters are identical, the resolver fails with "duplicate definition"
    exactly when [other] has a body attached or is a builtin; otherwise it
    returns [other], [Convert] returns that declaration, and no declaration
    is added to any overload chain. *)
Theorem duplicate_definition_rejected context (symbols : SymbolTable Ty) pos mpos
    modifiers name parameters rtpos returnType ps e earlier other later :
  validate context pos mpos modifiers name parameters rtpos returnType =
    (true, ps, e) →
  fSymbols symbols !! name = Some (SymbolFunction (earlier ++ other :: later)) →
  Forall (λ d, parameters_match ps (fd_parameters d) = false) earlier →
  parameters_match ps (fd_parameters other) = true →
  type_generically_matches returnType (fd_returnType other) = true →
  map var_modifiers ps = map var_modifiers (fd_parameters other) →
  let duplicate := (pos, "duplicate definition of " +:+ description other) in
  find_existing_declaration context symbols pos name ps rtpos returnType =
    (if fd_definition other || fd_isBuiltin other
     then (false, None, [duplicate])
     else (true, Some (length earlier), [])) ∧
  Convert context symbols pos mpos modifiers name parameters rtpos returnType =
    (if fd_definition other || fd_isBuiltin other
     then (None, symbols, e ++ [duplicate])
     else (Some (name, length earlier), foldl takeOwnershipOfSymbol symbols ps,
           e)) ∧
  (fd_definition other || fd_isBuiltin other = false →
   deref symbols (name, length earlier) = Some other ∧
   ∀ name',
     overloads (Convert context symbols pos mpos modifiers name parameters rtpos
                  returnType).1.2 name' = overloads symbols name').
Proof.
  intros Hv Hl Hearlier Hother Hret Hmods duplicate.
  assert (Hf : find_existing_declaration context symbols pos name ps rtpos
                 returnType =
               if fd_definition other || fd_isBuiltin other
               then (false, None, [duplicate])
               else (true, Some (length earlier), [])).
  { rewrite (find_existing_declaration_first_match _ _ _ _ _ _ _ _ _ _ Hl Hearlier
               Hother).
    unfold decide_at. rewrite Hret. simpl.
    by rewrite find_modifier_mismatch_same. }
  assert (Hc : Convert context symbols pos mpos modifiers name parameters rtpos
                 returnType =
               if fd_definition other || fd_isBuiltin other
               then (None, symbols, e ++ [duplicate])
               else (Some (name, length earlier),
                     foldl takeOwnershipOfSymbol symbols ps, e)).
  { rewrite Convert_validate, Hv, Hf.
    destruct (fd_definition other || fd_isBuiltin other); [done|].
    by rewrite app_nil_r. }
  split; [done|split; [done|]].
  intros Hfree. rewrite Hc, Hfree. simpl. split.
  - unfold deref, overloads. simpl. rewrite Hl.
    by rewrite list_lookup_middle.
  - intros name'. apply overloads_takeOwnership.
Qed.

(** *** Call-site resolution *)

(** Parameters that are not generic are final as they are and leave the
    generic index alone. *)
Lemma determineFinalTypes_from_plain (arguments : list Ty) parameters rest g out :
  no_generic_parameter parameters →
  length arguments = length parameters →
  ∀ more,
    determineFinalTypes_from (arguments ++ more) (parameters ++ rest) g out =
    determineFinalTypes_from more rest g (out ++ map var_type parameters).
Proof.
  intros Hng. revert arguments out.
  induction Hng as [|p ps Hp Hps IH]; intros [|a args] out Hlen more;
    simplify_eq/=.
  - by rewrite app_nil_r.
  - rewrite Hp. simpl. rewrite IH by done. by rewrite <- app_assoc.
Qed.

(** Without a generic parameter the loop ends with the index it started
    with, or runs off the parameter vector. *)
Lemma determineFinalTypes_from_no_generic (arguments : list Ty) parameters g out :
  no_generic_parameter parameters →
  (∃ out', determineFinalTypes_from arguments parameters g out = Returns (g, out') ∧
           (length arguments ≤ length parameters)%nat) ∨
  (determineFinalTypes_from arguments parameters g out = OutOfRange ∧
   (length parameters < length arguments)%nat).
Proof.
  intros Hng. revert arguments out.
  induction Hng as [|p ps Hp Hps IH]; intros [|a args] out; simpl.
  - left. exists out. split; [done|lia].
  - right. split; [done|lia].
  - left. exists out. split; [done|lia].
  - rewrite Hp. simpl.
    destruct (IH args (out ++ [var_type p])) as [(out' & -> & Hl)|[-> Hl]].
    + left. exists out'. split; [done|lia].
    + right. split; [done|lia].
Qed.

(** Once the index is fixed it is never changed, and the loop cannot return
    false any more. *)
Lemma determineFinalTypes_from_fixed (arguments : list Ty) parameters g out :
  g ≠ -1 →
  (∃ out', determineFinalTypes_from arguments parameters g out = Returns (g, out')) ∨
  determineFinalTypes_from arguments parameters g out = OutOfRange.
Proof.
  intros Hg. revert parameters out.
  induction arguments as [|a args IH]; intros [|p ps] out; simpl;
    [left; by exists out|left; by exists out|by right|].
  destruct (negb (isGeneric (var_type p))); [apply IH|].
  apply Z.eqb_neq in Hg. rewrite !Hg.
  destruct (coercibleTypes (var_type p) !! Z.to_nat g); [apply IH|by right].
Qed.

(** With every family long enough and as many arguments as parameters, the
    loop with a fixed index returns. *)
Lemma determineFinalTypes_from_total (arguments : list Ty) parameters g out :
  g ≠ -1 →
  length arguments = length parameters →
  Forall (λ q, isGeneric (var_type q) = true →
               (Z.to_nat g < length (coercibleTypes (var_type q)))%nat) parameters →
  ∃ out', determineFinalTypes_from arguments parameters g out = Returns (g, out').
Proof.
  intros Hg Hlen Hall. revert arguments out Hlen.
  induction Hall as [|p ps Hp Hps IH]; intros [|a args] out Hlen; simplify_eq/=;
    [by exists out|].
  destruct (isGeneric (var_type p)) eqn:Hgen; simpl; [|by apply IH].
  pose proof Hg as Hg'. apply Z.eqb_neq in Hg'. rewrite !Hg'.
  destruct (lookup_lt_is_Some_2 (coercibleTypes (var_type p)) (Z.to_nat g)
              (Hp eq_refl)) as [t ->].
  by apply IH.
Qed.

Lemma find_generic_index_range (c g : Ty) (n : bool) :
  find_generic_index c g n ≠ -1 →
  0 ≤ find_generic_index c g n ∧
  (Z.to_nat (find_generic_index c g n) < length (coercibleTypes g))%nat.
Proof.
  intros Hne. unfold find_generic_index in *.
  destruct (find_generic_index_from_range c (coercibleTypes g) n 0) as [?|?];
    [lia|done|lia].
Qed.

(** C10.  A declaration whose return type is generic and none of whose
    parameter types is generic can never be resolved at a call site:
    [determineFinalTypes] returns true for no argument list, and returns
    false for every argument list of the length of the parameter list.  When
    a parameter is generic, the first generic parameter fixes the index (with
    narrowing allowed): if its argument fits no candidate the call returns
    false; otherwise whenever the call returns true the generic return type
    is resolved to the candidate of its family at that index, and the call
    does return true when the families are long enough for that index. *)
Theorem determineFinalTypes_generic_return (f : FunctionDeclaration Ty) :
  isGeneric (fd_returnType f) = true →
  (no_generic_parameter (fd_parameters f) →
   ∀ arguments,
     (∀ r, determineFinalTypes f arguments ≠ Returns r) ∧
     (length arguments = length (fd_parameters f) →
      determineFinalTypes f arguments = ReturnsFalse)) ∧
  (∀ before p after arguments argument,
     fd_parameters f = before ++ p :: after →
     no_generic_parameter before →
     isGeneric (var_type p) = true →
     length arguments = length (fd_parameters f) →
     arguments !! length before = Some argument →
     let genericIndex := find_generic_index argument (var_type p) true in
     (genericIndex = -1 → determineFinalTypes f arguments = ReturnsFalse) ∧
     (∀ outParameterTypes outReturnType,
        determineFinalTypes f arguments = Returns (outParameterTypes, outReturnType) →
        genericIndex ≠ -1 ∧
        coercibleTypes (fd_returnType f) !! Z.to_nat genericIndex = Some outReturnType) ∧
     (genericIndex ≠ -1 →
      Forall (λ q, isGeneric (var_type q) = true →
                   (Z.to_nat genericIndex < length (coercibleTypes (var_type q)))%nat)
             after →
      (Z.to_nat genericIndex < length (coercibleTypes (fd_returnType f)))%nat →
      ∃ outParameterTypes outReturnType,
        determineFinalTypes f arguments = Returns (outParameterTypes, outReturnType))).
Proof.
  intros Hret. split.
  - intros Hng arguments. unfold determineFinalTypes.
    destruct (determineFinalTypes_from_no_generic arguments (fd_parameters f) (-1) []
                Hng) as [(out' & -> & Hl)|[-> Hl]].
    + rewrite Hret. simpl. split; [done|done].
    + split; [done|lia].
  - intros before p after arguments argument Hps Hng Hgen Hlen Harg genericIndex.
    assert (Hsplit : arguments =
              take (length before) arguments ++ argument :: drop (S (length before)) arguments).
    { rewrite <- (take_drop (length before) arguments) at 1. f_equal.
      by apply drop_S. }
    assert (Hltk : length (take (length before) arguments) = length before).
    { rewrite length_take. apply lookup_lt_Some in Harg. lia. }
    assert (Hloop : determineFinalTypes_from arguments (fd_parameters f) (-1) [] =
              if genericIndex =? -1 then ReturnsFalse
              else match coercibleTypes (var_type p) !! Z.to_nat genericIndex with
                   | Some t =>
                       determineFinalTypes_from (drop (S (length before)) arguments)
                         after genericIndex (([] ++ map var_type before) ++ [t])
                   | None => OutOfRange
                   end).
    { rewrite Hps, Hsplit at 1.
      rewrite determineFinalTypes_from_plain by done.
      simpl. by rewrite Hgen. }
    unfold determineFinalTypes. rewrite Hloop. clear Hloop.
    destruct (genericIndex =? -1) eqn:Hidx.
    { apply Z.eqb_eq in Hidx. split; [done|]. split; [done|]. intros; lia. }
    apply Z.eqb_neq in Hidx.
    destruct (find_generic_index_range _ _ _ Hidx) as [Hnonneg Hin].
    fold genericIndex in Hnonneg, Hin.
    destruct (lookup_lt_is_Some_2 _ _ Hin) as [t ->].
    split; [done|]. split.
    + intros outs rt.
      destruct (determineFinalTypes_from_fixed (drop (S (length before)) arguments)
                  after genericIndex (([] ++ map var_type before) ++ [t]) Hidx)
        as [(out' & ->)| ->]; [|done].
      rewrite Hret. apply Z.eqb_neq in Hidx. rewrite Hidx.
      apply Z.eqb_neq in Hidx.
      destruct (coercibleTypes (fd_returnType f) !! Z.to_nat genericIndex); [|done].
      intros [= _ <-]. done.
    + intros _ Hafter Hfam.
      destruct (determineFinalTypes_from_total (drop (S (length before)) arguments)
                  after genericIndex (([] ++ map var_type before) ++ [t]) Hidx)
        as (out' & ->); [|done|].
      { rewrite length_drop, Hlen, Hps, length_app. simpl. lia. }
      rewrite Hret. apply Z.eqb_neq in Hidx. rewrite Hidx.
      destruct (lookup_lt_is_Some_2 _ _ Hfam) as [rt ->]. by eexists _, _.
Qed.

(** *** The name mangler *)

Lemma append_cons (x : ascii) (a b : string) :
  String x a +:+ b = String x (a +:+ b).
Proof. reflexivity. Qed.

Lemma append_assoc (a b c : string) : (a +:+ b) +:+ c = a +:+ (b +:+ c).
Proof.
  induction a as [|x a IH]; [done|]. by rewrite !append_cons, IH.
Qed.

Lemma append_cancel_l (a b c : string) : a +:+ b = a +:+ c → b = c.
Proof.
  induction a as [|x a IH]; [done|]. rewrite !append_cons.
  intros [= Heq]. by apply IH.
Qed.

Lemma foldl_append_prefix (g : VariableT Ty → string) (a b : string) parameters :
  foldl (λ result p, result +:+ g p) (a +:+ b) parameters =
  a +:+ foldl (λ result p, result +:+ g p) b parameters.
Proof.
  revert b. induction parameters as [|p ps IH]; intros b; simpl; [done|].
  by rewrite append_assoc, IH.
Qed.

(** A mangled name is the stem made from the name followed by the
    abbreviated signature. *)
Lemma mangledName_stem (f : FunctionDeclaration Ty) :
  keeps_literal_name f = false →
  mangledName f = mangledStem (fd_name f) +:+ abbreviatedSignature f.
Proof.
  unfold keeps_literal_name, mangledName, mangledStem, abbreviatedSignature.
  intros ->.
  destruct (starts_with (fd_name f) "$"); cbv beta iota.
  all: by rewrite !foldl_append_prefix, !append_assoc.
Qed.

Lemma abbreviatedSignature_types (f1 f2 : FunctionDeclaration Ty) :
  fd_returnType f1 = fd_returnType f2 →
  map var_type (fd_parameters f1) = map var_type (fd_parameters f2) →
  abbreviatedSignature f1 = abbreviatedSignature f2.
Proof.
  unfold abbreviatedSignature. intros -> Hmap.
  generalize (abbreviatedName (fd_returnType f2)).
  revert Hmap. generalize (fd_parameters f2).
  induction (fd_parameters f1) as [|p ps IH]; intros [|q qs] Hmap a; try done.
  injection Hmap as Hty Hrest. simpl. rewrite Hty. by apply IH.
Qed.

Lemma mangledStem_parts (name : string) :
  mangledStem name =
  strippedName name +:+
  ((if ends_with (strippedName name) "_" then "x_" else "_") +:+
   (if starts_with name "$" then "Q" else "")).
Proof. unfold mangledStem, strippedName. by destruct (starts_with name "$"). Qed.

Lemma append_nil_r (a : string) : a +:+ "" = a.
Proof. induction a as [|x a IH]; [done|]. by rewrite append_cons, IH. Qed.

(** The abbreviated signature is the abbreviations of the signature types,
    one after the other. *)
Lemma abbreviatedSignature_concat (f : FunctionDeclaration Ty) :
  abbreviatedSignature f =
  foldr String.append "" (map abbreviatedName (signatureTypes f)).
Proof.
  unfold abbreviatedSignature, signatureTypes. cbn [map foldr].
  generalize (abbreviatedName (fd_returnType f)).
  induction (fd_parameters f) as [|p ps IH]; intros a; cbn [foldl map foldr].
  - by rewrite append_nil_r.
  - by rewrite IH, append_assoc.
Qed.

Lemma all_chars_app (test : ascii → bool) (a b : string) :
  all_chars test (a +:+ b) = all_chars test a && all_chars test b.
Proof.
  induction a as [|x a IH]; [done|].
  rewrite append_cons. cbn [all_chars]. by rewrite IH, andb_assoc.
Qed.

Lemma all_chars_impl (test test' : ascii → bool) (a : string) :
  (∀ x, test x = true → test' x = true) →
  all_chars test a = true → all_chars test' a = true.
Proof.
  intros Himpl. induction a as [|x a IH]; [done|]. cbn [all_chars].
  intros [Hx Ha]%andb_true_iff. by rewrite (Himpl x Hx), IH.
Qed.

(** A string is cut in one way only at its last underscore. *)
Lemma last_underscore_split (a1 a2 b1 b2 : string) :
  all_chars (λ x, negb (Ascii.eqb x "_")) b1 = true →
  all_chars (λ x, negb (Ascii.eqb x "_")) b2 = true →
  a1 +:+ String "_" b1 = a2 +:+ String "_" b2 →
  a1 = a2 ∧ b1 = b2.
Proof.
  intros Hb1 Hb2. revert a2.
  induction a1 as [|x a1 IH]; intros [|y a2]; rewrite ?append_cons.
  - by intros [= ->].
  - intros [= <- ->]. by rewrite all_chars_app, andb_false_r in Hb1.
  - intros [= -> <-]. by rewrite all_chars_app, andb_false_r in Hb2.
  - intros [= -> Heq]. by destruct (IH _ Heq) as [-> ->].
Qed.

(** The text in front of a delimited abbreviation, or of the end, within
    characters that lead no abbreviation, is found in one way only. *)
Lemma delimited_tail_split (leads : ascii → bool) (r1 r2 a b : string) :
  all_chars (λ x, negb (leads x)) r1 = true →
  all_chars (λ x, negb (leads x)) r2 = true →
  (a = "" ∨ starts_with_test leads a = true) →
  (b = "" ∨ starts_with_test leads b = true) →
  r1 +:+ a = r2 +:+ b →
  r1 = r2 ∧ a = b.
Proof.
  intros Hr1 Hr2 Ha Hb. revert r2 Hr2.
  induction r1 as [|x r1 IH]; intros [|y r2] Hr2; rewrite ?append_cons.
  - done.
  - change ("" +:+ a) with a. intros ->.
    cbn [all_chars] in Hr2. apply andb_true_iff in Hr2 as [Hy _].
    destruct Ha as [?|Ha]; [done|]. cbn [starts_with_test] in Ha.
    by rewrite Ha in Hy.
  - change ("" +:+ b) with b. intros <-.
    cbn [all_chars] in Hr1. apply andb_true_iff in Hr1 as [Hx _].
    destruct Hb as [?|Hb]; [done|]. cbn [starts_with_test] in Hb.
    by rewrite Hb in Hx.
  - cbn [all_chars] in Hr1, Hr2.
    apply andb_true_iff in Hr1 as [_ Hr1]. apply andb_true_iff in Hr2 as [_ Hr2].
    intros [= -> Heq]. by destruct (IH Hr1 _ Hr2 Heq) as [-> ->].
Qed.

Lemma delimited_concat_starts (leads : ascii → bool) (ws : list string) :
  Forall (delimited leads) ws →
  foldr String.append "" ws = "" ∨
  starts_with_test leads (foldr String.append "" ws) = true.
Proof.
  intros [|w ws' (c & rest & -> & Hc & _) _]; [by left|].
  right. cbn [foldr]. by rewrite append_cons.
Qed.

(** Delimited abbreviations written one after the other are read back in
    one way only. *)
Lemma delimited_concat_inj (leads : ascii → bool) (ws vs : list string) :
  Forall (delimited leads) ws → Forall (delimited leads) vs →
  foldr String.append "" ws = foldr String.append "" vs →
  ws = vs.
Proof.
  intros Hws. revert vs.
  induction Hws as [|w ws (c & r & -> & Hc & Hr) Hws IH];
    intros vs Hvs; destruct Hvs as [|v vs (c' & r' & -> & Hc' & Hr') Hvs];
    cbn [foldr]; rewrite ?append_cons; try done.
  intros [= -> Heq].
  apply (delimited_tail_split leads) in Heq as [-> Heq].
  - f_equal. by apply IH.
  - eapply all_chars_impl; [|exact Hr]. by intros x [? _]%andb_true_iff.
  - eapply all_chars_impl; [|exact Hr']. by intros x [? _]%andb_true_iff.
  - by apply delimited_concat_starts.
  - by apply delimited_concat_starts.
Qed.

Lemma delimited_concat_no_underscore (leads : ascii → bool) (ws : list string) :
  leads "_"%char = false →
  Forall (delimited leads) ws →
  all_chars (λ x, negb (Ascii.eqb x "_")) (foldr String.append "" ws) = true.
Proof.
  intros Hu. induction 1 as [|w ws (c & r & -> & Hc & Hr) Hws IH]; [done|].
  cbn [foldr]. rewrite all_chars_app.
  apply andb_true_iff. split; [|exact IH].
  cbn [all_chars]. apply andb_true_iff. split.
  - destruct (Ascii.eqb_spec c "_") as [->|]; [congruence|done].
  - eapply all_chars_impl; [|exact Hr]. by intros x [_ ?]%andb_true_iff.
Qed.

(** A mangled name is cut at its last underscore: in front the name (and the
    [x] of the splitter), behind the marker and the abbreviated signature. *)
Lemma mangledName_split (f : FunctionDeclaration Ty) :
  keeps_literal_name f = false →
  ∃ front,
    mangledName f =
    front +:+ String "_" ((if starts_with (fd_name f) "$" then "Q" else "") +:+
                          abbreviatedSignature f).
Proof.
  intros Hk. rewrite mangledName_stem, mangledStem_parts by done.
  destruct (ends_with (strippedName (fd_name f)) "_").
  - exists (strippedName (fd_name f) +:+ "x"). by rewrite !append_assoc.
  - exists (strippedName (fd_name f)). by rewrite !append_assoc.
Qed.

(** Two mangled names are equal only if the abbreviations of the signature
    types are the same, one by one. *)
Lemma mangledName_abbreviations (leads : ascii → bool)
    (f1 f2 : FunctionDeclaration Ty) :
  leads "_"%char = false → leads "Q"%char = false →
  keeps_literal_name f1 = false → keeps_literal_name f2 = false →
  Forall (λ t, delimited leads (abbreviatedName t)) (signatureTypes f1) →
  Forall (λ t, delimited leads (abbreviatedName t)) (signatureTypes f2) →
  mangledName f1 = mangledName f2 →
  map abbreviatedName (signatureTypes f1) = map abbreviatedName (signatureTypes f2).
Proof.
  intros Hu Hq Hk1 Hk2 Hd1 Hd2 Heq.
  apply Forall_map in Hd1, Hd2.
  destruct (mangledName_split f1 Hk1) as [a1 Hm1].
  destruct (mangledName_split f2 Hk2) as [a2 Hm2].
  rewrite Hm1, Hm2, !abbreviatedSignature_concat in Heq.
  set (ws := map abbreviatedName (signatureTypes f1)) in *.
  set (vs := map abbreviatedName (signatureTypes f2)) in *.
  pose proof (delimited_concat_no_underscore leads ws Hu Hd1) as Hn1.
  pose proof (delimited_concat_no_underscore leads vs Hu Hd2) as Hn2.
  assert (Hstart : ∀ us, Forall (delimited leads) us →
            ∀ s, String "Q" s ≠ foldr String.append "" us).
  { intros us Hus s Hs.
    destruct (delimited_concat_starts leads us Hus) as [Hnil|Hlead].
    - by rewrite Hnil in Hs.
    - rewrite <- Hs in Hlead. cbn [starts_with_test] in Hlead. congruence. }
  apply last_underscore_split in Heq as [_ Heq].
  - apply (delimited_concat_inj leads); [done|done|].
    destruct (starts_with (fd_name f1) "$"), (starts_with (fd_name f2) "$");
      rewrite ?append_cons in Heq.
    + by injection Heq.
    + by apply Hstart in Heq.
    + symmetry in Heq. by apply Hstart in Heq.
    + done.
  - rewrite all_chars_app. apply andb_true_iff. split; [|exact Hn1].
    by destruct (starts_with (fd_name f1) "$").
  - rewrite all_chars_app. apply andb_true_iff. split; [|exact Hn2].
    by destruct (starts_with (fd_name f2) "$").
Qed.

(** C6, as it holds.  The mangled name is a function of the name, the
    builtin flag, the attached-definition flag, the return type and the
    parameter types in order (the entry-point flag is set from the name when
    the declaration is built): two declarations that agree on these have the
    same mangled name, whatever else they differ in; and the types enter
    through their abbreviations only, so that two types with one
    abbreviation are not told apart.  A builtin with no attached body and
    the entry point keep their literal name.  Two declarations that are both
    mangled, whatever their names, have different mangled names whenever
    they differ in the number of parameters or in the abbreviation of a
    parameter type, provided the abbreviations of their types are delimited:
    each is one leading character followed by characters that lead no
    abbreviation, and neither the underscore nor the marker [Q] leads
    one. *)
Theorem mangledName_deterministic (f1 f2 : FunctionDeclaration Ty) :
  (fd_name f1 = fd_name f2 →
   fd_isMain f1 = fd_isMain f2 →
   fd_isBuiltin f1 = fd_isBuiltin f2 →
   fd_definition f1 = fd_definition f2 →
   fd_returnType f1 = fd_returnType f2 →
   map var_type (fd_parameters f1) = map var_type (fd_parameters f2) →
   mangledName f1 = mangledName f2) ∧
  (fd_name f1 = fd_name f2 →
   fd_isMain f1 = fd_isMain f2 →
   fd_isBuiltin f1 = fd_isBuiltin f2 →
   fd_definition f1 = fd_definition f2 →
   map abbreviatedName (signatureTypes f1) = map abbreviatedName (signatureTypes f2) →
   mangledName f1 = mangledName f2) ∧
  (keeps_literal_name f1 = true → mangledName f1 = fd_name f1) ∧
  (∀ leads : ascii → bool,
     leads "_"%char = false → leads "Q"%char = false →
     keeps_literal_name f1 = false → keeps_literal_name f2 = false →
     Forall (λ t, delimited leads (abbreviatedName t)) (signatureTypes f1) →
     Forall (λ t, delimited leads (abbreviatedName t)) (signatureTypes f2) →
     map (λ p, abbreviatedName (var_type p)) (fd_parameters f1) ≠
       map (λ p, abbreviatedName (var_type p)) (fd_parameters f2) →
     mangledName f1 ≠ mangledName f2).
Proof.
  assert (Hsame : fd_name f1 = fd_name f2 →
                  fd_isMain f1 = fd_isMain f2 →
                  fd_isBuiltin f1 = fd_isBuiltin f2 →
                  fd_definition f1 = fd_definition f2 →
                  map abbreviatedName (signatureTypes f1) =
                    map abbreviatedName (signatureTypes f2) →
                  mangledName f1 = mangledName f2).
  { intros Hname Hmain Hbuiltin Hdef Habbr.
    destruct (keeps_literal_name f1) eqn:Hk1.
    - assert (keeps_literal_name f2 = true) as Hk2.
      { unfold keeps_literal_name in *. by rewrite <- Hmain, <- Hbuiltin, <- Hdef. }
      unfold keeps_literal_name in Hk1, Hk2. unfold mangledName.
      by rewrite Hk1, Hk2.
    - assert (keeps_literal_name f2 = false) as Hk2.
      { unfold keeps_literal_name in *. by rewrite <- Hmain, <- Hbuiltin, <- Hdef. }
      rewrite !mangledName_stem, !abbreviatedSignature_concat by done.
      by rewrite Hname, Habbr. }
  split; [|split; [done|split]].
  - intros Hname Hmain Hbuiltin Hdef Hret Hparams.
    apply Hsame; try done. unfold signatureTypes. by rewrite Hret, Hparams.
  - unfold keeps_literal_name, mangledName. by intros ->.
  - intros leads Hu Hq Hk1 Hk2 Hd1 Hd2 Hdiffer Heq. apply Hdiffer.
    pose proof (mangledName_abbreviations leads f1 f2 Hu Hq Hk1 Hk2 Hd1 Hd2 Heq)
      as Habbr.
    unfold signatureTypes in Habbr. cbn [map] in Habbr.
    injection Habbr as _ Habbr. by rewrite !map_map in Habbr.
Qed.

(** *** The signature validator run twice *)

Lemma stripImplicitIn_flags (m : ModifiersT) :
  (Z.land (fFlags (stripImplicitIn m))
          (Z.lor Modifiers.kOut_Flag Modifiers.kIn_Flag) =? Modifiers.kIn_Flag) = false.
Proof.
  unfold stripImplicitIn.
  destruct (Z.land (fFlags m) _ =? Modifiers.kIn_Flag) eqn:Hin; [|done].
  simpl. rewrite <- Z.land_assoc.
  replace (Z.land (Z.lnot (Z.lor Modifiers.kOut_Flag Modifiers.kIn_Flag))
                  (Z.lor Modifiers.kOut_Flag Modifiers.kIn_Flag)) with 0
    by reflexivity.
  by rewrite Z.land_0_r.
Qed.

Lemma stripImplicitIn_idempotent (m : ModifiersT) :
  stripImplicitIn (stripImplicitIn m) = stripImplicitIn m.
Proof.
  pose proof (stripImplicitIn_flags m) as Hf.
  unfold stripImplicitIn at 1. by rewrite Hf.
Qed.

Lemma stripImplicitIn_setBuiltin (m : ModifiersT) (b : Z) :
  stripImplicitIn (setBuiltin m b) = setBuiltin (stripImplicitIn m) b.
Proof. unfold stripImplicitIn, setBuiltin. simpl. by case_match. Qed.

Lemma stripImplicitIn_layoutFlags (m : ModifiersT) :
  fLayoutFlags (fLayout (stripImplicitIn m)) = fLayoutFlags (fLayout m).
Proof. unfold stripImplicitIn. by case_match. Qed.

(** Stripping the implicit [in] cannot make a flag illegal. *)
Lemma stripImplicitIn_permitted (m : ModifiersT) (permitted : Z) :
  Z.ldiff (fFlags m) permitted = 0 →
  Z.ldiff (fFlags (stripImplicitIn m)) permitted = 0.
Proof.
  intros Hp. unfold stripImplicitIn. case_match; [|done]. simpl.
  rewrite Z.ldiff_land in *.
  rewrite (Z.land_comm (fFlags m)), <- Z.land_assoc, Hp. apply Z.land_0_r.
Qed.

Lemma normalise_idempotent context isMain type m k :
  normalise context isMain type (normalise context isMain type m k).1 k =
  normalise context isMain type m k.
Proof.
  unfold normalise, inferMainRole. destruct isMain; simpl.
  - repeat case_match; simpl;
      by rewrite ?stripImplicitIn_setBuiltin, ?stripImplicitIn_idempotent.
  - by rewrite stripImplicitIn_idempotent.
Qed.

Lemma normalise_flags context isMain type m k :
  fFlags (normalise context isMain type m k).1 = fFlags (stripImplicitIn m) ∧
  fLayoutFlags (fLayout (normalise context isMain type m k).1) =
    fLayoutFlags (fLayout m).
Proof.
  unfold normalise, inferMainRole.
  destruct isMain; simpl; repeat case_match; simpl;
    by rewrite ?stripImplicitIn_layoutFlags.
Qed.

Lemma checkPermitted_quiet (m : ModifiersT) pos permitted permittedLayout :
  (checkPermitted m pos permitted permittedLayout).2 = [] ↔
  Z.ldiff (fFlags m) permitted = 0 ∧
  Z.ldiff (fLayoutFlags (fLayout m)) permittedLayout = 0.
Proof.
  unfold checkPermitted. simpl.
  destruct (Z.eqb_spec (Z.ldiff (fFlags m) permitted) 0) as [H1|H1];
    destruct (Z.eqb_spec (Z.ldiff (fLayoutFlags (fLayout m)) permittedLayout) 0)
      as [H2|H2];
    simpl; split; try done; intros [? ?]; done.
Qed.

(** [in] is permitted on a parameter of any type. *)
Lemma permitted_in (type : Ty) :
  Z.ldiff Modifiers.kIn_Flag (permittedParameterFlags type) = 0.
Proof.
  unfold permittedParameterFlags.
  by destruct (isOpaque type), (isTexture type).
Qed.

(** Where [in] is permitted, stripping the implicit [in] neither adds nor
    removes an illegal flag. *)
Lemma stripImplicitIn_ldiff (m : ModifiersT) (permitted : Z) :
  Z.ldiff Modifiers.kIn_Flag permitted = 0 →
  Z.ldiff (fFlags (stripImplicitIn m)) permitted = Z.ldiff (fFlags m) permitted.
Proof.
  intros Hin. unfold stripImplicitIn.
  remember (Z.lor Modifiers.kOut_Flag Modifiers.kIn_Flag) as both eqn:Hboth.
  remember Modifiers.kIn_Flag as kin eqn:Hkin. clear Hboth Hkin.
  destruct (Z.eqb_spec (Z.land (fFlags m) both) kin) as [Hlone|]; [|done].
  cbn [fFlags]. apply Z.bits_inj'. intros i Hi.
  rewrite !Z.ldiff_spec, Z.land_spec, Z.lnot_spec by done.
  apply (f_equal (λ z, Z.testbit z i)) in Hlone, Hin.
  cbv beta in Hlone, Hin.
  rewrite Z.land_spec in Hlone. rewrite Z.ldiff_spec, Z.bits_0 in Hin.
  destruct (Z.testbit (fFlags m) i), (Z.testbit both i), (Z.testbit permitted i),
    (Z.testbit kin i); simpl in *; congruence.
Qed.

(** The normalised modifiers of a parameter draw the diagnostics that the
    written ones drew. *)
Lemma checkPermitted_normalised context isMain (type : Ty) (m : ModifiersT) k pos :
  (checkPermitted (normalise context isMain type m k).1 pos
     (permittedParameterFlags type) 0).2 =
  (checkPermitted m pos (permittedParameterFlags type) 0).2.
Proof.
  destruct (normalise_flags context isMain type m k) as [Hf Hl].
  unfold checkPermitted. cbn [snd]. rewrite Hf, Hl.
  by rewrite stripImplicitIn_ldiff by apply permitted_in.
Qed.

(** One step of the loop of [check_parameters], in terms of [normalise]. *)
Lemma check_parameters_from_cons context isMain k (p : VariableT Ty) rest :
  check_parameters_from context isMain k (p :: rest) =
  let e := (checkPermitted (var_modifiers p) (var_modifiersPosition p)
              (permittedParameterFlags (var_type p)) 0).2 in
  if isEffectChild (var_type p) && negb (fIsBuiltinCode context) then
    (false, p :: rest,
     e ++ [(var_fPosition p,
            "parameters of type '" +:+ displayName (var_type p) +:+ "' not allowed")])
  else
    let n := normalise context isMain (var_type p) (var_modifiers p) k in
    let r := check_parameters_from context isMain n.2 rest in
    (r.1.1, setModifiers p n.1 :: r.1.2, e ++ r.2).
Proof.
  simpl. destruct (isEffectChild (var_type p) && negb (fIsBuiltinCode context));
    [done|].
  unfold normalise.
  destruct (if isMain then _ else _) as [m k'].
  simpl.
  by destruct (check_parameters_from context isMain k' rest) as [[ok rest'] e'].
Qed.

(** Running the loop again on its own result changes nothing, and is quiet
    when the first run was. *)
Lemma check_parameters_from_idempotent context isMain k parameters ps e :
  check_parameters_from context isMain k parameters = (true, ps, e) →
  (check_parameters_from context isMain k ps).1 = (true, ps) ∧
  (e = [] → (check_parameters_from context isMain k ps).2 = []).
Proof.
  revert k ps e. induction parameters as [|p rest IH]; intros k ps e.
  - simpl. by intros [= <- <-].
  - rewrite check_parameters_from_cons. cbv zeta.
    destruct (isEffectChild (var_type p) && negb (fIsBuiltinCode context)) eqn:Hchild;
      [done|].
    set (n := normalise context isMain (var_type p) (var_modifiers p) k).
    destruct (check_parameters_from context isMain n.2 rest) as [[ok rest1] e']
      eqn:Hrest.
    simpl. intros [= -> <- <-].
    destruct (IH _ _ _ Hrest) as [Hstate Hquiet].
    rewrite check_parameters_from_cons. cbv zeta. simpl. rewrite Hchild.
    pose proof (normalise_idempotent context isMain (var_type p) (var_modifiers p) k)
      as Hn. fold n in Hn. rewrite Hn.
    destruct (check_parameters_from context isMain n.2 rest1) as [[ok2 rest2] e2].
    simpl in *. injection Hstate as -> ->. split; [done|].
    intros Hnil. apply app_eq_nil in Hnil as [He1 He2].
    rewrite (Hquiet He2), app_nil_r.
    apply checkPermitted_quiet in He1 as [Hf Hl]. apply checkPermitted_quiet.
    destruct (normalise_flags context isMain (var_type p) (var_modifiers p) k)
      as [Hnf Hnl]. fold n in Hnf, Hnl.
    rewrite Hnf, Hnl. split; [by apply stripImplicitIn_permitted|done].
Qed.

(** Running the loop again on its own result reports what the first run
    reported. *)
Lemma check_parameters_from_repeats context isMain k parameters ps e :
  check_parameters_from context isMain k parameters = (true, ps, e) →
  (check_parameters_from context isMain k ps).2 = e.
Proof.
  revert k ps e. induction parameters as [|p rest IH]; intros k ps e.
  - simpl. by intros [= <- <-].
  - rewrite check_parameters_from_cons. cbv zeta.
    destruct (isEffectChild (var_type p) && negb (fIsBuiltinCode context)) eqn:Hchild;
      [done|].
    set (n := normalise context isMain (var_type p) (var_modifiers p) k).
    destruct (check_parameters_from context isMain n.2 rest) as [[ok rest1] e']
      eqn:Hrest.
    simpl. intros [= -> <- <-].
    pose proof (IH _ _ _ Hrest) as Hagain.
    rewrite check_parameters_from_cons. cbv zeta.
    cbn [setModifiers var_type var_modifiers var_modifiersPosition var_fPosition].
    rewrite Hchild.
    pose proof (normalise_idempotent context isMain (var_type p) (var_modifiers p) k)
      as Hn. fold n in Hn. rewrite Hn.
    pose proof (checkPermitted_normalised context isMain (var_type p)
                  (var_modifiers p) k (var_modifiersPosition p)) as Hp.
    fold n in Hp. rewrite Hp.
    cbn [snd]. by rewrite Hagain.
Qed.

(** An accepted [main] signature draws no diagnostic. *)
Lemma check_main_signature_quiet context pos (returnType : Ty) parameters e :
  check_main_signature context pos returnType parameters = (true, e) → e = [].
Proof.
  unfold check_main_signature.
  destruct (fKind context); repeat case_match; intros Heq; by simplify_eq.
Qed.

Lemma validate_accepts context pos mpos modifiers name parameters rtpos
    (returnType : Ty) ps e :
  validate context pos mpos modifiers name parameters rtpos returnType =
    (true, ps, e) →
  ∃ e1 e2 e3 e4,
    check_modifiers context mpos modifiers = (true, e1) ∧
    check_return_type context rtpos returnType = (true, e2) ∧
    check_parameters context parameters (String.eqb name "main") = (true, ps, e3) ∧
    e = e1 ++ e2 ++ e3 ++ e4.
Proof.
  unfold validate.
  destruct (check_modifiers _ _ _) as [[] e1]; simpl; [|done].
  destruct (check_return_type _ _ _) as [[] e2]; simpl; [|done].
  destruct (check_parameters _ _ _) as [[[] ps'] e3]; simpl; [|done].
  destruct (if String.eqb name "main" then _ else _) as [ok e4].
  intros [= -> <- <-]. by exists e1, e2, e3, e4.
Qed.

Lemma scan_overloads_quiet context pos name parameters rtpos (returnType : Ty)
    chain index decl e :
  scan_overloads context pos name parameters rtpos returnType chain index =
    (true, decl, e) →
  e = [].
Proof.
  revert index. induction chain as [|d ds IH]; intros index; simpl.
  - by intros [= _ <-].
  - repeat case_match; try done; try (by intros [= _ <-]). apply IH.
Qed.

(** C8, as it holds.  Validation is idempotent.  Running [check_parameters]
    again on the parameters it accepted succeeds and leaves every parameter
    as it is: the modifier flags (the redundant [in] is already stripped) and
    the inferred roles come out the same; and the second run reports what the
    first run reported, so if the first run was silent, so is the second.
    Hence, when [Convert] accepts a candidate and records a new declaration
    for it, running the signature validator ([check_modifiers],
    [check_return_type], [check_parameters]) again on the recorded
    declaration succeeds and returns its parameters unchanged, and reports
    exactly the diagnostics that [Convert] reported: none when the candidate
    was accepted without a diagnostic. *)
Theorem validation_idempotent context pos mpos modifiers name parameters rtpos
    (returnType : Ty) :
  (∀ isMain ps e,
     check_parameters context parameters isMain = (true, ps, e) →
     (check_parameters context ps isMain).1 = (true, ps) ∧
     (e = [] → (check_parameters context ps isMain).2 = []) ∧
     (check_parameters context ps isMain).2 = e) ∧
  (∀ (symbols symbols' : SymbolTable Ty) r errors,
     Convert context symbols pos mpos modifiers name parameters rtpos returnType =
       (Some r, symbols', errors) →
     r.2 = length (overloads symbols name) →
     ∃ f, deref symbols' r = Some f ∧
          (revalidate context mpos rtpos f).1 = (true, fd_parameters f) ∧
          (errors = [] → (revalidate context mpos rtpos f).2 = []) ∧
          (revalidate context mpos rtpos f).2 = errors).
Proof.
  split.
  { intros isMain ps e Hp.
    destruct (check_parameters_from_idempotent _ _ _ _ _ _ Hp) as [Hstate Hquiet].
    split; [done|]. split; [done|]. by apply check_parameters_from_repeats in Hp. }
  intros symbols symbols' r errors.
  rewrite Convert_validate.
  destruct (validate _ _ _ _ _ _ _ _) as [[[] ps] e] eqn:Hv; [|done].
  destruct (find_existing_declaration _ _ _ _ _ _ _) as [[[] decl] e5] eqn:Hf;
    [|done].
  apply find_existing_declaration_overloads in Hf as [Hno Hscan]; [|done].
  destruct decl as [index|].
  { intros [= <- _ _] Hidx. simpl in Hidx.
    apply scan_overloads_existing in Hscan. lia. }
  apply scan_overloads_quiet in Hscan as ->.
  set (f := newFunctionDeclaration pos modifiers name ps returnType
              (fIsBuiltinCode context)).
  set (owned := foldl takeOwnershipOfSymbol symbols ps).
  assert (Hno' : fSymbols owned !! fd_name f ≠ Some SymbolOther).
  { subst owned. by rewrite fSymbols_takeOwnership. }
  pose proof (overloads_add owned f name Hno') as Hadd.
  assert (Hr : (add owned f).2 = (name, length (overloads symbols name))).
  { unfold add. destruct (fSymbols owned !! fd_name f) as [[chain|]|] eqn:Hl;
      [|done|]; simpl; subst owned; by rewrite overloads_takeOwnership. }
  destruct (add owned f) as [symbols1 ref]. simpl in Hadd, Hr. subst ref.
  intros [= <- <- <-] _. exists f. split.
  - unfold deref. simpl. rewrite Hadd. rewrite decide_True by done.
    subst owned. rewrite overloads_takeOwnership.
    rewrite lookup_app_r by lia. by rewrite Nat.sub_diag.
  - assert (He4 : ∃ e1 e2 e3,
              check_modifiers context mpos modifiers = (true, e1) ∧
              check_return_type context rtpos returnType = (true, e2) ∧
              check_parameters context parameters (String.eqb name "main") =
                (true, ps, e3) ∧
              e = e1 ++ e2 ++ e3).
    { revert Hv. unfold validate.
      destruct (check_modifiers _ _ _) as [[] e1]; simpl; [|done].
      destruct (check_return_type _ _ _) as [[] e2]; simpl; [|done].
      destruct (check_parameters _ _ _) as [[[] ps'] e3]; simpl; [|done].
      destruct (String.eqb name "main").
      - destruct (check_main_signature _ _ _ _) as [[] e4] eqn:Hmain; [|done].
        intros [= <- <-].
        apply check_main_signature_quiet in Hmain as ->.
        exists e1, e2, e3. by rewrite app_nil_r.
      - intros [= <- <-]. exists e1, e2, e3. by rewrite app_nil_r. }
    destruct He4 as (e1 & e2 & e3 & Hm & Hrt & Hp & ->).
    unfold revalidate. simpl. rewrite Hm, Hrt.
    destruct (check_parameters_from_idempotent _ _ _ _ _ _ Hp) as [Hstate Hquiet].
    pose proof (check_parameters_from_repeats _ _ _ _ _ _ Hp) as Hagain.
    unfold check_parameters.
    destruct (check_parameters_from context (String.eqb name "main") 0 ps)
      as [[ok3 ps3] e3'].
    simpl in *. injection Hstate as -> ->. subst e3'. rewrite app_nil_r.
    split; [done|]. split; [|done].
    intros Hnil.
    apply app_eq_nil in Hnil as [-> Hnil].
    by apply app_eq_nil in Hnil as [-> ->].
Qed.

(** *** The entry point of a blender *)


Lemma setModifiers_same (p : VariableT Ty) : setModifiers p (var_modifiers p) = p.
Proof. by destruct p. Qed.

Lemma stripImplicitIn_no_flags (m : ModifiersT) :
  fFlags m = 0 → stripImplicitIn m = m.
Proof. intros Hf. unfold stripImplicitIn. by rewrite Hf. Qed.


Lemma tagColor_type (k : nat) (p : VariableT Ty) :
  var_type (tagColor k p) = var_type p.
Proof. unfold tagColor. by case_match. Qed.

Lemma paramIsBuiltinColor_tagged context (p : VariableT Ty) parameters
    (k idx : nat) builtinID :
  color_parameter context p →
  parameters !! idx = Some (tagColor k p) →
  kBuiltinColorIDs !! k = Some builtinID →
  paramIsBuiltinColor parameters idx builtinID = true.
Proof.
  intros (Hcolor & _ & _ & Hflags & _) Hidx Hk.
  unfold paramIsBuiltinColor, paramIs. rewrite Hidx.
  unfold tagColor. rewrite Hk. simpl. rewrite Hcolor, Hflags. simpl.
  apply Z.eqb_refl.
Qed.


End Properties.

(** ** The scenarios, on the small instance of the type system *)

(** C1, as stated, fails.  [$genType sin($genType x)] declared twice in
    builtin code is recorded twice: the generic parameter type of the
    candidate matches no candidate of the family of the earlier one, so the
    walk finds no match and a second declaration with the same parameter
    types and the same return type is added. *)
Lemma duplicate_generic_declaration_recorded :
  ¬ signatures_unique
      (ConvertAll emptySymbolTable [SkSL.genericSin; SkSL.genericSin]).
Proof.
  intros Hunique.
  assert (Hchain : overloads
            (ConvertAll emptySymbolTable [SkSL.genericSin; SkSL.genericSin])
            "sin" = [SkSL.genericSinDecl; SkSL.genericSinDecl])
    by (vm_compute; reflexivity).
  specialize (Hunique "sin"%string 0%nat 1%nat SkSL.genericSinDecl
                SkSL.genericSinDecl).
  rewrite Hchain in Hunique.
  specialize (Hunique eq_refl eq_refl ltac:(lia)).
  vm_compute in Hunique. discriminate.
Qed.

(** Re-declaring [float foo(float3 x)] in a scope that has it leaves the
    overload chain of [foo] as it was. *)
Lemma redeclaration_adds_nothing :
  overloads (ConvertCandidate SkSL.fooScope SkSL.foo3).1.2 "foo" =
  overloads SkSL.fooScope "foo".
Proof.
  refine (proj1 (proj2 (proj2 (recorded_overloads_never_match_earlier []))
                   SkSL.fooScope SkSL.foo3 SkSL.foo3Decl _ _) "foo"%string).
  - vm_compute. apply list_elem_of_here.
  - reflexivity.
Defined.

(** [(float3, float2)] against [($genType, $genType)]: the indices are 2 and
    1, so the lists do not match. *)
Lemma generic_indices_disagree :
  parameters_match [SkSL.param "x" SkSL.Float3; SkSL.param "y" SkSL.Float2]
                   [SkSL.param "a" SkSL.GenType; SkSL.param "b" SkSL.GenType] = false.
Proof.
  refine (proj1 (proj2 (proj2 (parameters_match_generic_consistency
            [SkSL.param "x" SkSL.Float3; SkSL.param "y" SkSL.Float2]
            [SkSL.param "a" SkSL.GenType; SkSL.param "b" SkSL.GenType])))
            0%nat 1%nat (SkSL.param "x" SkSL.Float3) (SkSL.param "a" SkSL.GenType)
            (SkSL.param "y" SkSL.Float2) (SkSL.param "b" SkSL.GenType)
            eq_refl eq_refl eq_refl eq_refl eq_refl eq_refl _).
  vm_compute. discriminate.
Defined.

(** C4, as stated, fails.  After [float f(float x)] and the builtin
    [$genHType f($genType x)], the candidate [float f(float x)] matches the
    parameters of the builtin, and its return type does not generically match
    [$genHType]; but the walk stops at the first declaration, which it
    re-declares, and the candidate is linked to it without an error. *)
Lemma later_return_type_conflict_not_examined :
  ¬ return_type_overloading_rejected (Ty := SkSL.Type_) ∧
  (ConvertCandidate SkSL.fHalfScope SkSL.fFloat).1.1 = Some ("f"%string, 0%nat) ∧
  (ConvertCandidate SkSL.fHalfScope SkSL.fFloat).2 = [].
Proof.
  split; [|by vm_compute].
  intros Hrejected.
  destruct (Hrejected (SkSL.userCode kGeneric) SkSL.fHalfScope 0%nat "f"%string
              [SkSL.param "x" SkSL.Float] 0%nat SkSL.Float 1%nat
              SkSL.fGenericHalfDecl) as (d1 & d2 & Hfails).
  - vm_compute. reflexivity.
  - reflexivity.
  - reflexivity.
  - assert (Hlinks : find_existing_declaration (SkSL.userCode kGeneric)
                       SkSL.fHalfScope 0%nat "f" [SkSL.param "x" SkSL.Float] 0%nat
                       SkSL.Float = (true, Some 0%nat, []))
      by (vm_compute; reflexivity).
    rewrite Hlinks in Hfails. discriminate.
Qed.

(** [float foo(float3 x)], [float foo(float2 x)], then [int foo(float3 x)]:
    the third differs from the first only in its return type. *)
Lemma int_foo_rejected :
  ConvertCandidate SkSL.fooScope SkSL.fooInt =
  (None, SkSL.fooScope,
   [(0%nat, "functions 'int foo(float3 x)' and 'float foo(float3 x)' differ only in return type"%string)]).
Proof.
  refine (proj2 (return_type_only_overload_rejected (SkSL.userCode kGeneric)
            SkSL.fooScope 0%nat 0%nat SkSL.noModifiers "foo"
            [SkSL.param "x" SkSL.Float3] 0%nat SkSL.Int
            [SkSL.param "x" SkSL.Float3] [] [] SkSL.foo3Decl [SkSL.foo2Decl]
            _ _ _ _ _)).
  - vm_compute. reflexivity.
  - vm_compute. reflexivity.
  - apply Forall_nil_2.
  - reflexivity.
  - reflexivity.
Defined.

(** C5, as stated, fails.  After [float f(float x)] and the builtin
    [$genType f($genType x)], the candidate [float f(float x)] fully
    re-declares the builtin (its parameters match, its return type generically
    matches, the modifiers are the same); but the walk stops at the first
    declaration, and the candidate is linked to it: no "duplicate
    definition". *)
Lemma later_builtin_redeclaration_linked :
  ¬ redeclaration_decided_by_declaration (Ty := SkSL.Type_) ∧
  (ConvertCandidate SkSL.fScope SkSL.fFloat).1.1 = Some ("f"%string, 0%nat) ∧
  (ConvertCandidate SkSL.fScope SkSL.fFloat).2 = [].
Proof.
  split; [|by vm_compute].
  intros Hdecided.
  pose proof (Hdecided (SkSL.userCode kGeneric) SkSL.fScope 0%nat "f"%string
                [SkSL.param "x" SkSL.Float] 0%nat SkSL.Float 1%nat
                SkSL.fGenericDecl) as Hduplicate.
  assert (Hlinks : find_existing_declaration (SkSL.userCode kGeneric)
                     SkSL.fScope 0%nat "f" [SkSL.param "x" SkSL.Float] 0%nat
                     SkSL.Float = (true, Some 0%nat, []))
    by (vm_compute; reflexivity).
  rewrite Hlinks in Hduplicate.
  assert (Hfails : (true, Some 0%nat, ([] : Errors)) =
                   (false, None,
                    [(0%nat, "duplicate definition of " +:+
                             description SkSL.fGenericDecl)])).
  { apply Hduplicate; [vm_compute|..]; reflexivity. }
  discriminate.
Qed.

(** Declaring [float foo(float3 x)] again, before any body is attached,
    returns the declaration already recorded; declaring the builtin
    [float length(float2 x)] again is a duplicate definition. *)
Lemma foo_redeclared_links :
  ConvertCandidate SkSL.fooScope SkSL.foo3 =
  (Some ("foo"%string, 0%nat),
   foldl takeOwnershipOfSymbol SkSL.fooScope [SkSL.param "x" SkSL.Float3], []) ∧
  Convert (SkSL.userCode kGeneric) SkSL.lengthScope 0%nat 0%nat SkSL.noModifiers
          "length" [SkSL.param "x" SkSL.Float2] 0%nat SkSL.Float =
  (None, SkSL.lengthScope,
   [(0%nat, "duplicate definition of float length(float2 x)"%string)]).
Proof.
  split.
  - refine (proj1 (proj2 (duplicate_definition_rejected (SkSL.userCode kGeneric)
              SkSL.fooScope 0%nat 0%nat SkSL.noModifiers "foo"
              [SkSL.param "x" SkSL.Float3] 0%nat SkSL.Float
              [SkSL.param "x" SkSL.Float3] [] [] SkSL.foo3Decl [SkSL.foo2Decl]
              _ _ _ _ _ _))).
    + vm_compute. reflexivity.
    + vm_compute. reflexivity.
    + apply Forall_nil_2.
    + reflexivity.
    + reflexivity.
    + reflexivity.
  - refine (proj1 (proj2 (duplicate_definition_rejected (SkSL.userCode kGeneric)
              SkSL.lengthScope 0%nat 0%nat SkSL.noModifiers "length"
              [SkSL.param "x" SkSL.Float2] 0%nat SkSL.Float
              [SkSL.param "x" SkSL.Float2] [] [] SkSL.length2Decl []
              _ _ _ _ _ _))).
    + vm_compute. reflexivity.
    + vm_compute. reflexivity.
    + apply Forall_nil_2.
    + reflexivity.
    + reflexivity.
    + reflexivity.
Defined.

(** C6, as stated, fails.  The builtins [float length(float2 x)] and
    [float length(float3 x)] have no body: both keep the literal name
    [length], though their parameter types differ.  And the user functions
    [float area(Circle s)] and [float area(Square s)] are both mangled to
    [area_fS]: their parameter types differ, the abbreviations of these types
    do not. *)
Lemma overloads_share_mangled_name :
  ¬ mangling_injective (Ty := SkSL.Type_) ∧
  (keeps_literal_name SkSL.length2Decl = true ∧
   keeps_literal_name SkSL.length3Decl = true ∧
   map var_type (fd_parameters SkSL.length2Decl) ≠
     map var_type (fd_parameters SkSL.length3Decl) ∧
   mangledName SkSL.length2Decl = mangledName SkSL.length3Decl) ∧
  (keeps_literal_name SkSL.areaCircle = false ∧
   keeps_literal_name SkSL.areaSquare = false ∧
   map var_type (fd_parameters SkSL.areaCircle) ≠
     map var_type (fd_parameters SkSL.areaSquare) ∧
   mangledName SkSL.areaCircle = mangledName SkSL.areaSquare).
Proof.
  split; [|split].
  - intros Hinjective.
    apply (Hinjective SkSL.length2Decl SkSL.length3Decl).
    + vm_compute. discriminate.
    + reflexivity.
  - repeat split; try reflexivity. vm_compute. discriminate.
  - repeat split; try reflexivity. vm_compute. discriminate.
Qed.

(** The user functions [float foo(float3 x)] and [float foo(float2 x)] are
    mangled to different names: the abbreviations [f], [f3] and [f2] are
    delimited, with [f] the one leading character. *)
Lemma foo_overloads_mangled_apart :
  mangledName SkSL.foo3Decl ≠ mangledName SkSL.foo2Decl.
Proof.
  refine (proj2 (proj2 (proj2 (mangledName_deterministic SkSL.foo3Decl
                                 SkSL.foo2Decl)))
            (λ c, Ascii.eqb c "f") eq_refl eq_refl eq_refl eq_refl _ _ _).
  - apply Forall_cons_2; [|apply Forall_cons_2; [|apply Forall_nil_2]].
    + exists "f"%char, ""%string. by repeat split.
    + exists "f"%char, "3"%string. by repeat split.
  - apply Forall_cons_2; [|apply Forall_cons_2; [|apply Forall_nil_2]].
    + exists "f"%char, ""%string. by repeat split.
    + exists "f"%char, "2"%string. by repeat split.
  - vm_compute. discriminate.
Defined.


(** C8, as stated, fails.  [$es3 float f(float x)] in user code is recorded,
    with the diagnostic that [$es3] is not permitted there, which does not
    stop [Convert]; validating the recorded declaration again succeeds and
    reports that diagnostic again. *)
Lemma unpermitted_modifier_reported_again :
  ¬ revalidation_silent (Ty := SkSL.Type_) ∧
  (ConvertCandidate emptySymbolTable SkSL.fEs3).1.1 = Some ("f"%string, 0%nat) ∧
  (ConvertCandidate emptySymbolTable SkSL.fEs3).2 =
    [(0%nat, "modifier is not permitted here"%string)].
Proof.
  split; [|by vm_compute].
  intros Hsilent.
  pose proof (Hsilent (SkSL.userCode kGeneric) emptySymbolTable
                (ConvertCandidate emptySymbolTable SkSL.fEs3).1.2
                0%nat 0%nat SkSL.es3Modifiers "f"%string
                [SkSL.param "x" SkSL.Float] 0%nat SkSL.Float ("f"%string, 0%nat)
                (ConvertCandidate emptySymbolTable SkSL.fEs3).2
                (newFunctionDeclaration 0%nat SkSL.es3Modifiers "f"
                   [SkSL.param "x" SkSL.Float] SkSL.Float false)) as Hquiet.
  assert (Hagain : (revalidate (SkSL.userCode kGeneric) 0%nat 0%nat
                      (newFunctionDeclaration 0%nat SkSL.es3Modifiers "f"
                         [SkSL.param "x" SkSL.Float] SkSL.Float false)).2 =
                   [(0%nat, "modifier is not permitted here"%string)])
    by (vm_compute; reflexivity).
  rewrite Hagain in Hquiet.
  assert (Hnil : [(0%nat, "modifier is not permitted here"%string)] = ([] : Errors)).
  { apply Hquiet; vm_compute; reflexivity. }
  discriminate.
Qed.

(** [void helper(in float x)] is recorded with the [in] stripped, and
    validating the recorded declaration again changes nothing and reports
    nothing. *)
Lemma helper_revalidated :
  ∃ f,
    deref (ConvertCandidate emptySymbolTable
             (SkSL.candidate (SkSL.userCode kGeneric) SkSL.noModifiers SkSL.Void
                "helper" [SkSL.inParam "x" SkSL.Float])).1.2
          ("helper"%string, 0%nat) = Some f ∧
    (revalidate (SkSL.userCode kGeneric) 0%nat 0%nat f).1 = (true, fd_parameters f) ∧
    (([] : Errors) = [] →
     (revalidate (SkSL.userCode kGeneric) 0%nat 0%nat f).2 = []) ∧
    (revalidate (SkSL.userCode kGeneric) 0%nat 0%nat f).2 = [].
Proof.
  refine (proj2 (validation_idempotent (SkSL.userCode kGeneric) 0%nat 0%nat
            SkSL.noModifiers "helper" [SkSL.inParam "x" SkSL.Float] 0%nat SkSL.Void)
            emptySymbolTable _ ("helper"%string, 0%nat) [] _ _).
  - vm_compute. reflexivity.
  - reflexivity.
Defined.

(** [float[4] bad(float x)] is rejected for its return type, and the scope
    is the one [Convert] was given. *)
Lemma array_return_rejected :
  let rejected :=
    Convert (SkSL.userCode kGeneric) SkSL.fooScope 0%nat 0%nat SkSL.noModifiers
            "bad" [SkSL.param "x" SkSL.Float] 0%nat SkSL.FloatArray in
  rejected.1.2 = SkSL.fooScope ∧
  fSymbols rejected.1.2 = fSymbols SkSL.fooScope ∧
  fOwnedSymbols rejected.1.2 = fOwnedSymbols SkSL.fooScope.
Proof.
  refine (Convert_rejection_atomic (SkSL.userCode kGeneric) SkSL.fooScope _
            0%nat 0%nat SkSL.noModifiers "bad"
            [SkSL.param "x" SkSL.Float] 0%nat SkSL.FloatArray
            [(0%nat, "functions may not return type 'float[4]'"%string)] _).
  vm_compute. reflexivity.
Defined.

(** The builtin [$genType make(float x)] cannot be called. *)
Lemma make_never_resolves :
  determineFinalTypes SkSL.makeDecl [SkSL.Float] = ReturnsFalse.
Proof.
  refine (proj2 (proj1 (determineFinalTypes_generic_return SkSL.makeDecl eq_refl)
                   _ [SkSL.Float]) eq_refl).
  apply Forall_cons_2; [reflexivity|apply Forall_nil_2].
Defined.

(** Further checks of the embedding on the instance. *)

(** [half4 main(float2 p)] in a runtime shader is recorded, and its parameter
    carries the coordinate role. *)
Example shader_main_coords :
  let converted :=
    Convert (SkSL.userCode kRuntimeShader) emptySymbolTable 0%nat 0%nat
            SkSL.noModifiers "main" [SkSL.param "p" SkSL.Float2] 0%nat SkSL.Half4 in
  converted.1.1 = Some ("main"%string, 0%nat) ∧
  (map (λ p, fBuiltin (fLayout (var_modifiers p))) <$>
     (fd_parameters <$> deref converted.1.2 ("main"%string, 0%nat)))
  = Some [SK_MAIN_COORDS_BUILTIN] ∧
  converted.2 = [].
Proof. vm_compute. done. Qed.

(** Mangled names: the plain case, a name that ends in an underscore, and a
    builtin with a dollar sign whose body is attached. *)
Example mangled_names :
  mangledName SkSL.foo3Decl = "foo_ff3"%string ∧
  mangledName (newFunctionDeclaration 0%nat SkSL.noModifiers "blend_"
                 [SkSL.param "src" SkSL.Half4] SkSL.Half4 false)
  = "blend_x_h4h4"%string ∧
  mangledName {| fd_fPosition := 0%nat; fd_modifiers := SkSL.noModifiers;
                 fd_name := "$helper";
                 fd_parameters := [SkSL.param "x" SkSL.Float];
                 fd_returnType := SkSL.Float; fd_isBuiltin := true;
                 fd_isMain := false; fd_intrinsicKind := kNotIntrinsic;
                 fd_definition := true |}
  = "helper_Qff"%string ∧
  mangledName SkSL.length2Decl = "length"%string.
Proof. vm_compute. done. Qed.

(** A call of [$genType mix($genType x, $genType y, float a)] with
    [(half3, float3, float)]: the first argument fixes index 2, so the call
    resolves to [float3 mix(float3, float3, float)]. *)
Example mix_resolved :
  determineFinalTypes
    (newFunctionDeclaration 0%nat SkSL.noModifiers "mix"
       [SkSL.param "x" SkSL.GenType; SkSL.param "y" SkSL.GenType;
        SkSL.param "a" SkSL.Float] SkSL.GenType true)
    [SkSL.Half3; SkSL.Float3; SkSL.Float]
  = Returns ([SkSL.Float3; SkSL.Float3; SkSL.Float], SkSL.Float3).
Proof. reflexivity. Qed.

(** ** Further properties of the code *)

Section Resolution.
Context {Ty : Type} `{!TypeOps Ty} `{!Intrinsics}.

Implicit Types (params otherParams parameters ps : list (VariableT Ty)).
Implicit Types (chain : list (FunctionDeclaration Ty)).
Implicit Types (symbols : SymbolTable Ty).

(** *** Rejections *)

Lemma app_cons_not_nil {A} (l : list A) (x : A) : l ++ [x] ≠ [].
Proof. by destruct l. Qed.

Lemma app_not_nil_r {A} (l k : list A) : k ≠ [] → l ++ k ≠ [].
Proof. intros Hk [_ ?]%app_eq_nil. done. Qed.

Lemma check_parameters_from_rejects context isMain k parameters ps e :
  check_parameters_from context isMain k parameters = (false, ps, e) → e ≠ [].
Proof.
  revert k ps e. induction parameters as [|p rest IH]; intros k ps e; [done|].
  rewrite check_parameters_from_cons. cbv zeta.
  destruct (isEffectChild (var_type p) && negb (fIsBuiltinCode context)).
  - intros Heq. simplify_eq. apply app_cons_not_nil.
  - destruct (check_parameters_from context isMain _ rest) as [[ok rest'] e']
      eqn:Hrest.
    simpl. intros Heq. simplify_eq. apply app_not_nil_r.
    by apply (IH _ _ _ Hrest).
Qed.

Lemma check_main_signature_rejects context pos (returnType : Ty) parameters e :
  check_main_signature context pos returnType parameters = (false, e) → e ≠ [].
Proof.
  unfold check_main_signature.
  destruct (fKind context); repeat case_match; intros Heq; by simplify_eq.
Qed.

Lemma check_modifiers_rejects context pos modifiers e :
  check_modifiers context pos modifiers = (false, e) → e ≠ [].
Proof.
  unfold check_modifiers. destruct (checkPermitted _ _ _ _) as [? e0].
  case_match; intros Heq; simplify_eq. apply app_cons_not_nil.
Qed.

Lemma check_return_type_rejects context pos (returnType : Ty) e :
  check_return_type context pos returnType = (false, e) → e ≠ [].
Proof.
  unfold check_return_type. repeat case_match; intros Heq; by simplify_eq.
Qed.

Lemma validate_rejects context pos mpos modifiers name parameters rtpos
    (returnType : Ty) ps e :
  validate context pos mpos modifiers name parameters rtpos returnType =
    (false, ps, e) →
  e ≠ [].
Proof.
  unfold validate.
  destruct (check_modifiers _ _ _) as [[] e1] eqn:Hm; simpl;
    [|intros Heq; simplify_eq; by apply check_modifiers_rejects in Hm].
  destruct (check_return_type _ _ _) as [[] e2] eqn:Hrt; simpl;
    [|intros Heq; simplify_eq; apply app_not_nil_r;
      by apply check_return_type_rejects in Hrt].
  destruct (check_parameters _ _ _) as [[[] ps'] e3] eqn:Hp; simpl;
    [|intros Heq; simplify_eq; do 2 apply app_not_nil_r;
      by apply check_parameters_from_rejects in Hp].
  destruct (String.eqb name "main"); [|intros Heq; by simplify_eq].
  destruct (check_main_signature _ _ _ _) as [ok e4] eqn:Hmain.
  intros Heq. simplify_eq. do 3 apply app_not_nil_r.
  by apply check_main_signature_rejects in Hmain.
Qed.

Lemma scan_overloads_rejects context pos name parameters rtpos (returnType : Ty)
    chain index decl e :
  scan_overloads context pos name parameters rtpos returnType chain index =
    (false, decl, e) →
  e ≠ [] ∧ decl = None.
Proof.
  revert index. induction chain as [|d ds IH]; intros index; simpl; [done|].
  repeat case_match; try (intros Heq; by simplify_eq). apply IH.
Qed.

Lemma find_existing_declaration_rejects context symbols pos name parameters rtpos
    returnType decl e :
  find_existing_declaration context symbols pos name parameters rtpos returnType =
    (false, decl, e) →
  e ≠ [] ∧ decl = None.
Proof.
  unfold find_existing_declaration.
  destruct (fSymbols symbols !! name) as [[chain|]|];
    [|intros Heq; by simplify_eq|done].
  apply scan_overloads_rejects.
Qed.

(** X1.  [Convert] never fails silently: whenever it returns no declaration
    it has reported at least one error. *)
Theorem Convert_failure_reported context symbols symbols' pos mpos modifiers name
    parameters rtpos returnType errors :
  Convert context symbols pos mpos modifiers name parameters rtpos returnType =
    (None, symbols', errors) →
  errors ≠ [].
Proof.
  rewrite Convert_validate.
  destruct (validate _ _ _ _ _ _ _ _) as [[[] ps] e] eqn:Hv.
  - destruct (find_existing_declaration _ _ _ _ _ _ _) as [[[] [index|]] e5] eqn:Hf;
      [done|by destruct (add _ _)| |];
      intros Heq; simplify_eq; apply app_not_nil_r;
      by apply find_existing_declaration_rejects in Hf as [He _].
  - intros Heq. simplify_eq. by apply validate_rejects in Hv.
Qed.

(** *** What a successful [Convert] does to the table *)

Lemma fOwnedSymbols_takeOwnership symbols parameters :
  fOwnedSymbols (foldl takeOwnershipOfSymbol symbols parameters) =
  fOwnedSymbols symbols ++ parameters.
Proof.
  revert symbols. induction parameters as [|p ps IH]; intros symbols; simpl.
  - by rewrite app_nil_r.
  - rewrite IH. simpl. by rewrite <- app_assoc.
Qed.

Lemma fOwnedSymbols_add symbols (decl : FunctionDeclaration Ty) :
  fOwnedSymbols (add symbols decl).1 = fOwnedSymbols symbols.
Proof. unfold add. by repeat case_match. Qed.

Lemma check_parameters_from_names context isMain k parameters :
  map var_name (check_parameters_from context isMain k parameters).1.2 =
  map var_name parameters.
Proof.
  revert k. induction parameters as [|p ps IH]; intros k; [done|].
  rewrite check_parameters_from_cons. cbv zeta.
  destruct (isEffectChild (var_type p) && negb (fIsBuiltinCode context)); [done|].
  simpl. by rewrite IH.
Qed.

(** X2.  When [Convert] returns a declaration, the symbol table has taken
    ownership of exactly the candidate's parameters as [check_parameters]
    left them, in order, after the parameters it already owned: also when the
    declaration returned is one recorded earlier.  These parameters have the
    candidate's types and names. *)
Theorem Convert_takes_ownership context symbols symbols' pos mpos modifiers name
    parameters rtpos returnType r errors :
  Convert context symbols pos mpos modifiers name parameters rtpos returnType =
    (Some r, symbols', errors) →
  let owned := (check_parameters context parameters (String.eqb name "main")).1.2 in
  fOwnedSymbols symbols' = fOwnedSymbols symbols ++ owned ∧
  map var_type owned = map var_type parameters ∧
  map var_name owned = map var_name parameters.
Proof.
  rewrite Convert_validate.
  destruct (validate _ _ _ _ _ _ _ _) as [[[] ps] e] eqn:Hv; [|done].
  apply validate_accepts in Hv as (e1 & e2 & e3 & e4 & _ & _ & Hp & _).
  rewrite Hp. simpl.
  assert (Hty : map var_type ps = map var_type parameters).
  { pose proof (check_parameters_from_types context (String.eqb name "main") 0
                  parameters) as H0. unfold check_parameters in Hp.
    by rewrite Hp in H0. }
  assert (Hnm : map var_name ps = map var_name parameters).
  { pose proof (check_parameters_from_names context (String.eqb name "main") 0
                  parameters) as H0. unfold check_parameters in Hp.
    by rewrite Hp in H0. }
  destruct (find_existing_declaration _ _ _ _ _ _ _) as [[[] [index|]] e5]; [| |done|done].
  - intros Heq. simplify_eq. by rewrite fOwnedSymbols_takeOwnership.
  - pose proof (fOwnedSymbols_add (foldl takeOwnershipOfSymbol symbols ps)
                  (newFunctionDeclaration pos modifiers name ps returnType
                     (fIsBuiltinCode context))) as Hadd.
    destruct (add _ _) as [symbols1 ref]. intros Heq. simplify_eq.
    simpl in Hadd. by rewrite Hadd, fOwnedSymbols_takeOwnership.
Qed.

(** X3.  [Convert] never removes, replaces or reorders a recorded
    declaration.  Either every overload chain is as it was, or one
    declaration carrying the candidate's name went to the end of the chain of
    that name and every other chain is as it was.  So a pointer into the
    table keeps its declaration. *)
Theorem Convert_keeps_declarations context symbols pos mpos modifiers name
    parameters rtpos returnType :
  let symbols' :=
    (Convert context symbols pos mpos modifiers name parameters rtpos returnType).1.2 in
  ((∀ name', overloads symbols' name' = overloads symbols name') ∨
   (∃ d, fd_name d = name ∧
         ∀ name', overloads symbols' name' =
                  if decide (name' = name) then overloads symbols name ++ [d]
                  else overloads symbols name')) ∧
  (∀ name', overloads symbols name' `prefix_of` overloads symbols' name') ∧
  (∀ ref d, deref symbols ref = Some d → deref symbols' ref = Some d).
Proof.
  intros symbols'.
  assert (Hcases :
    (∀ name', overloads symbols' name' = overloads symbols name') ∨
    (∃ d, fd_name d = name ∧
          ∀ name', overloads symbols' name' =
                   if decide (name' = name) then overloads symbols name ++ [d]
                   else overloads symbols name')).
  { destruct (Convert_overloads context symbols pos mpos modifiers name parameters
                rtpos returnType) as [[_ Hsame]|(ps & _ & _ & _ & Hnew)].
    - by left.
    - right. eexists. split; [|exact Hnew]. done. }
  assert (Hprefix : ∀ name', overloads symbols name' `prefix_of` overloads symbols' name').
  { intros name'. destruct Hcases as [Hsame|(d & _ & Hnew)].
    - by rewrite Hsame.
    - rewrite Hnew. case_decide; [subst; by apply prefix_app_r|done]. }
  split; [done|split; [done|]].
  intros [n i] d. unfold deref. simpl. intros Hd.
  by apply (prefix_lookup_Some _ _ _ _ Hd).
Qed.

(** X4.  A candidate that passes validation and matches no declaration
    recorded under its name (in particular when the name is unbound) is
    recorded: [Convert] returns a pointer to the end of the chain of that
    name, and the declaration found there has the candidate's name,
    modifiers and return type, the validated parameters, the builtin flag of
    the compilation, no body, and an intrinsic kind only in builtin code. *)
Theorem Convert_records_new context symbols pos mpos modifiers name parameters
    rtpos returnType ps e :
  validate context pos mpos modifiers name parameters rtpos returnType =
    (true, ps, e) →
  fSymbols symbols !! name ≠ Some SymbolOther →
  Forall (λ d, parameters_match ps (fd_parameters d) = false)
         (overloads symbols name) →
  ∃ symbols' d,
    Convert context symbols pos mpos modifiers name parameters rtpos returnType =
      (Some (name, length (overloads symbols name)), symbols', e) ∧
    deref symbols' (name, length (overloads symbols name)) = Some d ∧
    overloads symbols' name = overloads symbols name ++ [d] ∧
    fd_name d = name ∧ fd_modifiers d = modifiers ∧
    fd_returnType d = returnType ∧ fd_parameters d = ps ∧
    fd_isBuiltin d = fIsBuiltinCode context ∧ fd_definition d = false ∧
    (fIsBuiltinCode context = false → fd_intrinsicKind d = kNotIntrinsic).
Proof.
  intros Hv Hno Hnone.
  assert (Hf : find_existing_declaration context symbols pos name ps rtpos
                 returnType = (true, None, [])).
  { unfold find_existing_declaration. unfold overloads in Hnone.
    destruct (fSymbols symbols !! name) as [[chain|]|]; [|done|done].
    by apply scan_overloads_none. }
  rewrite Convert_validate, Hv, Hf.
  set (d := newFunctionDeclaration pos modifiers name ps returnType
              (fIsBuiltinCode context)).
  set (owned := foldl takeOwnershipOfSymbol symbols ps).
  assert (Hno' : fSymbols owned !! fd_name d ≠ Some SymbolOther).
  { subst owned. by rewrite fSymbols_takeOwnership. }
  pose proof (overloads_add owned d name Hno') as Hadd.
  assert (Hr : (add owned d).2 = (name, length (overloads symbols name))).
  { unfold add. destruct (fSymbols owned !! fd_name d) as [[chain|]|] eqn:Hl;
      [|done|]; simpl; subst owned; by rewrite overloads_takeOwnership. }
  destruct (add owned d) as [symbols1 ref]. simpl in Hadd, Hr. subst ref.
  rewrite decide_True in Hadd by done.
  subst owned. rewrite overloads_takeOwnership in Hadd.
  exists symbols1, d. split; [by rewrite app_nil_r|].
  split.
  { unfold deref. simpl. rewrite Hadd, lookup_app_r by lia.
    by rewrite Nat.sub_diag. }
  repeat split; try done.
  intros Hb. subst d. simpl. by rewrite Hb.
Qed.

(** X5.  A name bound to a symbol that is no function cannot be declared as
    a function: [Convert] returns no declaration for any candidate of that
    name and leaves the table as it was; a candidate that passes validation
    is rejected with the error "symbol ... was already defined". *)
Theorem Convert_name_collision context symbols pos mpos modifiers name parameters
    rtpos returnType :
  fSymbols symbols !! name = Some SymbolOther →
  (Convert context symbols pos mpos modifiers name parameters rtpos returnType).1 =
    (None, symbols) ∧
  ∀ ps e,
    validate context pos mpos modifiers name parameters rtpos returnType =
      (true, ps, e) →
    Convert context symbols pos mpos modifiers name parameters rtpos returnType =
      (None, symbols, e ++ [(pos, "symbol '" +:+ name +:+ "' was already defined")]).
Proof.
  intros Hother.
  assert (Hf : ∀ ps, find_existing_declaration context symbols pos name ps rtpos
                       returnType =
                     (false, None,
                      [(pos, "symbol '" +:+ name +:+ "' was already defined")])).
  { intros ps. unfold find_existing_declaration. by rewrite Hother. }
  rewrite Convert_validate.
  destruct (validate _ _ _ _ _ _ _ _) as [[[] ps] e].
  - rewrite Hf. split; [done|]. intros ps' e' Heq. by simplify_eq.
  - split; [done|]. intros ps' e' Heq. by simplify_eq.
Qed.

(** *** Modifiers of a re-declaration *)

Lemma find_modifier_mismatch_first parameters otherParams (k i : nat) p o :
  take i (map var_modifiers parameters) = take i (map var_modifiers otherParams) →
  parameters !! i = Some p → otherParams !! i = Some o →
  var_modifiers p ≠ var_modifiers o →
  find_modifier_mismatch parameters otherParams k =
  Some (var_fPosition p,
        "modifiers on parameter " +:+ pretty (k + i + 1)%nat +:+
        " differ between declaration and definition").
Proof.
  revert parameters otherParams k.
  induction i as [|i IH]; intros [|p0 ps] [|o0 os] k Htake Hp Ho Hne; try done.
  - simpl in Hp, Ho. simplify_eq. simpl.
    rewrite bool_decide_eq_true_2 by done. by rewrite Nat.add_0_r.
  - simpl in Htake, Hp, Ho. injection Htake as Hhead Htake. simpl.
    rewrite bool_decide_eq_false_2 by (intros Hd; by apply Hd).
    rewrite (IH ps os (S k) Htake Hp Ho Hne).
    by replace (S k + i + 1)%nat with (k + S i + 1)%nat by lia.
Qed.

Lemma find_modifier_mismatch_none parameters otherParams k :
  length parameters = length otherParams →
  find_modifier_mismatch parameters otherParams k = None →
  map var_modifiers parameters = map var_modifiers otherParams.
Proof.
  revert otherParams k.
  induction parameters as [|p ps IH]; intros [|o os] k Hlen; try done.
  simpl. case_bool_decide as Hd; [done|]. intros Hnone.
  rewrite Hd. f_equal. apply (IH os (S k)); [|done].
  simpl in Hlen. lia.
Qed.

(** X6.  Let a validated candidate reach the resolver, and let [other] be
    the first declaration of the chain of its name whose parameter list
    matches, with a return type that generically matches.  If parameter
    number [i] (counted from 0) is the first whose modifiers differ from
    those of the corresponding parameter of [other], the resolver fails with
    "modifiers on parameter i+1 differ between declaration and definition",
    reported at that parameter, whether or not [other] has a body or is a
    builtin; [Convert] returns no declaration and leaves the table as it
    was. *)
Theorem modifiers_differ_rejected context symbols pos mpos modifiers name parameters
    rtpos returnType ps e earlier other later (i : nat) p o :
  validate context pos mpos modifiers name parameters rtpos returnType =
    (true, ps, e) →
  fSymbols symbols !! name = Some (SymbolFunction (earlier ++ other :: later)) →
  Forall (λ d, parameters_match ps (fd_parameters d) = false) earlier →
  parameters_match ps (fd_parameters other) = true →
  type_generically_matches returnType (fd_returnType other) = true →
  take i (map var_modifiers ps) = take i (map var_modifiers (fd_parameters other)) →
  ps !! i = Some p → fd_parameters other !! i = Some o →
  var_modifiers p ≠ var_modifiers o →
  let differ :=
    (var_fPosition p,
     "modifiers on parameter " +:+ pretty (i + 1)%nat +:+
     " differ between declaration and definition") in
  find_existing_declaration context symbols pos name ps rtpos returnType =
    (false, None, [differ]) ∧
  Convert context symbols pos mpos modifiers name parameters rtpos returnType =
    (None, symbols, e ++ [differ]).
Proof.
  intros Hv Hl Hearlier Hother Hret Htake Hp Ho Hne differ.
  assert (Hf : find_existing_declaration context symbols pos name ps rtpos
                 returnType = (false, None, [differ])).
  { rewrite (find_existing_declaration_first_match _ _ _ _ _ _ _ _ _ _ Hl Hearlier
               Hother).
    unfold decide_at. rewrite Hret. simpl.
    by rewrite (find_modifier_mismatch_first _ _ 0 i p o Htake Hp Ho Hne). }
  split; [done|]. by rewrite Convert_validate, Hv, Hf.
Qed.

(** *** The declaration a candidate is linked to *)

Lemma scan_overloads_linked context pos name parameters rtpos (returnType : Ty)
    chain (index i : nat) e :
  scan_overloads context pos name parameters rtpos returnType chain index =
    (true, Some i, e) →
  ∃ other,
    (index ≤ i)%nat ∧ chain !! (i - index)%nat = Some other ∧
    parameters_match parameters (fd_parameters other) = true ∧
    type_generically_matches returnType (fd_returnType other) = true ∧
    map var_modifiers parameters = map var_modifiers (fd_parameters other) ∧
    fd_definition other = false ∧ fd_isBuiltin other = false ∧ e = [] ∧
    ∀ (j : nat) d, (j < i - index)%nat → chain !! j = Some d →
                   parameters_match parameters (fd_parameters d) = false.
Proof.
  revert index. induction chain as [|d ds IH]; intros index; simpl; [done|].
  destruct (parameters_match parameters (fd_parameters d)) eqn:Hd; simpl.
  - destruct (type_generically_matches returnType (fd_returnType d)) eqn:Hret;
      simpl; [|done].
    destruct (find_modifier_mismatch parameters (fd_parameters d) 0) eqn:Hmods;
      [done|].
    destruct (fd_definition d || fd_isBuiltin d) eqn:Hfree; [done|].
    apply orb_false_iff in Hfree as [Hdef Hb].
    intros Heq. simplify_eq. exists d. rewrite Nat.sub_diag.
    repeat split; try done.
    + apply (find_modifier_mismatch_none _ _ 0); [|done].
      by apply parameters_match_length.
    + intros j d' Hj. lia.
  - intros Hs. destruct (IH _ Hs) as (other & Hle & Hl & Hm & Hr & Hmods & Hdef & Hb & He & Hbefore).
    exists other. split; [lia|]. split.
    { replace (i - index)%nat with (S (i - S index))%nat by lia. done. }
    repeat split; try done.
    intros [|j] d' Hj Hl'; simpl in Hl'; [by simplify_eq|].
    apply (Hbefore j); [lia|done].
Qed.

(** X7.  The declaration the resolver links a candidate to is always a
    forward declaration of the same signature: it is a declaration of the
    chain of that name, the first whose parameter list matches the
    candidate, its return type generically matches, the modifiers of its
    parameters are those of the candidate's, it has no body and is no
    builtin; and nothing was reported. *)
Theorem linked_declaration_is_forward_declaration context symbols pos name
    parameters rtpos returnType (index : nat) e :
  find_existing_declaration context symbols pos name parameters rtpos returnType =
    (true, Some index, e) →
  ∃ other,
    deref symbols (name, index) = Some other ∧
    parameters_match parameters (fd_parameters other) = true ∧
    type_generically_matches returnType (fd_returnType other) = true ∧
    map var_modifiers parameters = map var_modifiers (fd_parameters other) ∧
    fd_definition other = false ∧ fd_isBuiltin other = false ∧ e = [] ∧
    ∀ (j : nat) d, (j < index)%nat → deref symbols (name, j) = Some d →
                   parameters_match parameters (fd_parameters d) = false.
Proof.
  unfold find_existing_declaration, deref, overloads. simpl.
  destruct (fSymbols symbols !! name) as [[chain|]|]; [|done|done].
  intros Hs. apply scan_overloads_linked in Hs as (other & _ & Hrest).
  rewrite !Nat.sub_0_r in Hrest. by exists other.
Qed.

(** *** What is known of every recorded declaration *)

Lemma check_parameters_from_accepts context isMain k parameters ps e :
  check_parameters_from context isMain k parameters = (true, ps, e) →
  Forall (λ p, lone_in (var_modifiers p) = false) ps ∧
  Forall (λ p, isEffectChild (var_type p) && negb (fIsBuiltinCode context) = false) ps.
Proof.
  revert k ps e. induction parameters as [|p rest IH]; intros k ps e.
  - simpl. intros Heq. by simplify_eq.
  - rewrite check_parameters_from_cons. cbv zeta.
    destruct (isEffectChild (var_type p) && negb (fIsBuiltinCode context)) eqn:Hchild;
      [done|].
    destruct (check_parameters_from context isMain _ rest) as [[ok rest'] e']
      eqn:Hrest.
    simpl. intros Heq. simplify_eq. destruct (IH _ _ _ Hrest) as [Hin Hch].
    split; apply Forall_cons_2; try done.
    simpl. unfold lone_in.
    destruct (normalise_flags context isMain (var_type p) (var_modifiers p) k)
      as [-> _].
    apply stripImplicitIn_flags.
Qed.

Lemma validate_establishes context pos mpos modifiers name parameters rtpos
    (returnType : Ty) ps e :
  validate context pos mpos modifiers name parameters rtpos returnType =
    (true, ps, e) →
  validated_declaration
    (newFunctionDeclaration pos modifiers name ps returnType (fIsBuiltinCode context)).
Proof.
  intros Hv. apply validate_accepts in Hv as (e1 & e2 & e3 & e4 & Hm & Hrt & Hp & _).
  apply check_parameters_from_accepts in Hp as [Hin Hchild].
  unfold validated_declaration. simpl.
  assert (Hflags : Z.land (fFlags modifiers) Modifiers.kInline_Flag = 0 ∨
                   Z.land (fFlags modifiers) Modifiers.kNoInline_Flag = 0).
  { unfold check_modifiers in Hm. destruct (checkPermitted _ _ _ _) as [? e0].
    destruct (negb (Z.land (fFlags modifiers) Modifiers.kInline_Flag =? 0) &&
              negb (Z.land (fFlags modifiers) Modifiers.kNoInline_Flag =? 0))
      eqn:Hboth; [done|].
    apply andb_false_iff in Hboth as [Hx|Hx];
      apply negb_false_iff, Z.eqb_eq in Hx; [by left|by right]. }
  unfold check_return_type in Hrt.
  destruct (isArray returnType) eqn:Harr; [done|].
  destruct (strictES2Mode context && isOrContainsArray returnType); [done|].
  destruct (negb (fIsBuiltinCode context) && isOpaque (componentType returnType))
    eqn:Hopaque; [done|].
  do 5 (split; [done|]).
  intros Hb. rewrite Hb in Hopaque, Hchild |- *. simpl in Hopaque.
  split; [done|]. split; [|done].
  eapply Forall_impl; [exact Hchild|].
  intros p Hq. simpl in Hq. by rewrite andb_true_r in Hq.
Qed.

Lemma Convert_all_validated context symbols pos mpos modifiers name parameters rtpos
    returnType :
  all_validated symbols →
  all_validated (Convert context symbols pos mpos modifiers name parameters rtpos
                   returnType).1.2.
Proof.
  intros Hall. rewrite Convert_validate.
  destruct (validate _ _ _ _ _ _ _ _) as [[[] ps] e] eqn:Hv; [|done].
  destruct (find_existing_declaration _ _ _ _ _ _ _) as [[[] decl] e5] eqn:Hf;
    [|done].
  apply find_existing_declaration_overloads in Hf as [Hno _]; [|done].
  destruct decl as [index|]; simpl.
  - intros name' i d. rewrite overloads_takeOwnership. apply Hall.
  - set (f := newFunctionDeclaration pos modifiers name ps returnType
                (fIsBuiltinCode context)).
    set (owned := foldl takeOwnershipOfSymbol symbols ps).
    assert (Hno' : fSymbols owned !! fd_name f ≠ Some SymbolOther).
    { subst owned. by rewrite fSymbols_takeOwnership. }
    pose proof (λ n, overloads_add owned f n Hno') as Hadd.
    destruct (add owned f) as [symbols1 ref]. simpl in Hadd |- *.
    intros name' i d. rewrite Hadd. subst owned.
    rewrite !overloads_takeOwnership.
    case_decide; [|apply Hall].
    intros [Hl|[_ Hl]]%lookup_app_Some; [by apply (Hall name i)|].
    apply list_lookup_singleton_Some in Hl as [_ <-].
    by apply (validate_establishes _ _ _ _ _ _ _ _ _ _ Hv).
Qed.

(** X8.  Every declaration recorded by a sequence of [Convert] calls is a
    validated one: its modifiers are not both inline and noinline, its
    return type is no array, none of its parameters carries an [in] without
    [out], no body is attached, its entry-point flag says whether its name
    is [main]; and when it comes from user code its return type has no
    opaque component, none of its parameters is an effect child, and it is
    no intrinsic. *)
Theorem recorded_declarations_validated (cs : list (Candidate Ty)) :
  all_validated (ConvertAll emptySymbolTable cs).
Proof.
  assert (Hgen : ∀ symbols, all_validated symbols →
                            all_validated (ConvertAll symbols cs)).
  { induction cs as [|c cs IH]; intros symbols Hall; [done|].
    simpl. apply IH. by apply Convert_all_validated. }
  apply Hgen. intros name i d. by rewrite emptySymbolTable_overloads.
Qed.

(** *** What [check_parameters] changes *)

Lemma check_parameters_from_modifiers_only context isMain k parameters :
  Forall2 (λ p p', p' = setModifiers p (var_modifiers p')) parameters
          (check_parameters_from context isMain k parameters).1.2.
Proof.
  revert k. induction parameters as [|p rest IH]; intros k; [by constructor|].
  rewrite check_parameters_from_cons. cbv zeta.
  destruct (isEffectChild (var_type p) && negb (fIsBuiltinCode context)); simpl.
  - apply Forall2_same_length_lookup_2; [done|].
    intros i x y Hx Hy. simplify_eq. by rewrite setModifiers_same.
  - constructor; [done|apply IH].
Qed.

Lemma check_parameters_from_verdict context isMain k parameters :
  (check_parameters_from context isMain k parameters).1.1 = true ↔
  Forall (λ p, isEffectChild (var_type p) && negb (fIsBuiltinCode context) = false)
         parameters.
Proof.
  revert k. induction parameters as [|p rest IH]; intros k; [done|].
  rewrite check_parameters_from_cons. cbv zeta.
  destruct (isEffectChild (var_type p) && negb (fIsBuiltinCode context)) eqn:Hchild;
    simpl.
  - split; [done|]. intros Hall. apply Forall_cons_1 in Hall as [Hp _]. congruence.
  - rewrite IH. split; [by apply Forall_cons_2|]. by intros [_ ?]%Forall_cons_1.
Qed.

Lemma check_parameters_from_flags context isMain k parameters :
  (check_parameters_from context isMain k parameters).1.1 = true →
  Forall2 (λ p p',
             fFlags (var_modifiers p') = fFlags (stripImplicitIn (var_modifiers p)) ∧
             fLayoutFlags (fLayout (var_modifiers p')) =
               fLayoutFlags (fLayout (var_modifiers p)))
          parameters (check_parameters_from context isMain k parameters).1.2.
Proof.
  revert k. induction parameters as [|p rest IH]; intros k; [by constructor|].
  rewrite check_parameters_from_cons. cbv zeta.
  destruct (isEffectChild (var_type p) && negb (fIsBuiltinCode context)); [done|].
  simpl. intros Hok. constructor; [|by apply IH].
  simpl. apply normalise_flags.
Qed.

Lemma normalise_no_role context isMain (type : Ty) m k :
  isMain = false ∨ infers_no_role (fKind context) = true →
  normalise context isMain type m k = (stripImplicitIn m, k).
Proof.
  unfold normalise, inferMainRole. intros [->|Hkind]; [done|].
  destruct isMain; [|done]. by destruct (fKind context).
Qed.

Lemma check_parameters_from_no_role context isMain k parameters :
  isMain = false ∨ infers_no_role (fKind context) = true →
  (check_parameters_from context isMain k parameters).1.1 = true →
  (check_parameters_from context isMain k parameters).1.2 =
  map (λ p, setModifiers p (stripImplicitIn (var_modifiers p))) parameters.
Proof.
  intros Hno. revert k. induction parameters as [|p rest IH]; intros k; [done|].
  rewrite check_parameters_from_cons. cbv zeta.
  destruct (isEffectChild (var_type p) && negb (fIsBuiltinCode context)); [done|].
  rewrite normalise_no_role by done. simpl. intros Hok. by rewrite IH.
Qed.

(** X9.  [check_parameters] changes nothing of a parameter but its
    modifiers: the vector keeps its length, and the types, names and
    positions.  It accepts exactly when no parameter is an effect child in
    user code.  When it accepts, each parameter's flags are the flags it had
    with a lone [in] stripped, and its layout flags are unchanged; and
    outside [main], or in a [main] of a program kind without parameter roles
    (mesh, generic, vertex, compute), stripping is all it does. *)
Theorem check_parameters_changes_modifiers_only context parameters isMain :
  let checked := check_parameters context parameters isMain in
  Forall2 (λ p p', p' = setModifiers p (var_modifiers p')) parameters checked.1.2 ∧
  (checked.1.1 = true ↔
   Forall (λ p, isEffectChild (var_type p) && negb (fIsBuiltinCode context) = false)
          parameters) ∧
  (checked.1.1 = true →
   Forall2 (λ p p',
              fFlags (var_modifiers p') = fFlags (stripImplicitIn (var_modifiers p)) ∧
              fLayoutFlags (fLayout (var_modifiers p')) =
                fLayoutFlags (fLayout (var_modifiers p)))
           parameters checked.1.2) ∧
  (checked.1.1 = true →
   isMain = false ∨ infers_no_role (fKind context) = true →
   checked.1.2 =
   map (λ p, setModifiers p (stripImplicitIn (var_modifiers p))) parameters).
Proof.
  unfold check_parameters. cbv zeta.
  split; [apply check_parameters_from_modifiers_only|].
  split; [apply check_parameters_from_verdict|].
  split; [apply check_parameters_from_flags|].
  intros Hok Hno. by apply check_parameters_from_no_role.
Qed.

(** *** The shape a [main] has when it is accepted *)

Ltac main_shape :=
  unfold paramIsInputColor, paramIsDestColor, paramIsBuiltinColor, paramIsCoords,
    paramIsInAttributes, paramIsOutVaryings, paramIsInVaryings, paramIsOutColor,
    paramIs;
  simpl;
  repeat match goal with
         | |- context [negb ?b] => destruct b eqn:?; simpl
         end;
  try done.

(** X10.  A [main] that [check_main_signature] accepts has the shape of its
    program kind, and nothing is reported for it.  Except for the generic
    kind it has at most two parameters.  In a colour filter, a shader or a
    blender it returns a colour type and has at least one parameter, and no
    parameter carries a modifier flag.  In a vertex or compute program it
    returns void and has no parameter. *)
Theorem accepted_main_shape context pos (returnType : Ty) parameters e :
  check_main_signature context pos returnType parameters = (true, e) →
  e = [] ∧
  (fKind context ≠ kGeneric → (length parameters ≤ 2)%nat) ∧
  (is_color_effect (fKind context) = true →
   typeIsValidForColor returnType = true ∧ (1 ≤ length parameters)%nat ∧
   Forall (λ p, fFlags (var_modifiers p) = 0) parameters) ∧
  (takes_no_parameter (fKind context) = true →
   parameters = [] ∧ matches returnType fVoid = true).
Proof.
  unfold check_main_signature.
  destruct (fKind context) eqn:Hkind;
    destruct parameters as [|p0 [|p1 [|p2 rest]]]; main_shape;
    intros Heq; simplify_eq;
    repeat match goal with
           | H : _ || _ = true |- _ => apply orb_true_iff in H as [?|?]
           | H : _ && _ = true |- _ => apply andb_true_iff in H as [? ?]
           | H : (_ =? _) = true |- _ => apply Z.eqb_eq in H
           end;
    try done;
    (split; [done|]);
    (split; [intros ?; first [done | simpl; lia]|]);
    (split; intros Hc; [|by try discriminate Hc]);
    try discriminate Hc;
    (split; [done|]); (split; [simpl; lia|]);
    repeat (apply Forall_cons_2; [done|]); apply Forall_nil_2.
Qed.

(** *** The entry point of a shader *)

Lemma coords_parameter_quiet context (p : VariableT Ty) :
  coords_parameter context p →
  (checkPermitted (var_modifiers p) (var_modifiersPosition p)
     (permittedParameterFlags (var_type p)) 0).2 = [] ∧
  stripImplicitIn (var_modifiers p) =
    {| fFlags := 0; fLayout := fLayout (var_modifiers p) |}.
Proof.
  intros (_ & _ & Hflags & Hlayout). split.
  - apply checkPermitted_quiet. rewrite Hlayout. split; [|done].
    destruct Hflags as [->| ->]; [apply Z.ldiff_0_l|apply permitted_in].
  - unfold stripImplicitIn. destruct (var_modifiers p) as [flags layout].
    simpl in *. by destruct Hflags as [->| ->].
Qed.

Lemma color_parameter_quiet context (p : VariableT Ty) :
  color_parameter context p →
  (checkPermitted (var_modifiers p) (var_modifiersPosition p)
     (permittedParameterFlags (var_type p)) 0).2 = [] ∧
  stripImplicitIn (var_modifiers p) = var_modifiers p.
Proof.
  intros (_ & _ & _ & Hflags & Hlayout). split.
  - apply checkPermitted_quiet. by rewrite Hflags, Hlayout, !Z.ldiff_0_l.
  - by apply stripImplicitIn_no_flags.
Qed.

(** Role inference in a colour effect: coordinates, then colours. *)
Lemma check_parameters_coords context k (p : VariableT Ty) rest :
  is_color_effect (fKind context) = true →
  coords_parameter context p →
  check_parameters_from context true k (p :: rest) =
  ((check_parameters_from context true k rest).1.1,
   tagCoords p :: (check_parameters_from context true k rest).1.2,
   (check_parameters_from context true k rest).2).
Proof.
  intros Hkind Hp. destruct (coords_parameter_quiet context p Hp) as [Hq Hs].
  destruct Hp as (Hcoords & Hchild & _ & Hlayout).
  rewrite check_parameters_from_cons. cbv zeta. rewrite Hchild, Hq.
  unfold normalise, inferMainRole. rewrite Hs, Hcoords.
  replace (IsRuntimeEffect (fKind context) &&
           negb (bool_decide (fKind context = kMeshFragment)) &&
           negb (bool_decide (fKind context = kMeshVertex))) with true
    by (by destruct (fKind context)).
  simpl. unfold tagCoords, setBuiltin. simpl. by rewrite Hlayout.
Qed.

Lemma check_parameters_color context (k : nat) (p : VariableT Ty) rest :
  is_color_effect (fKind context) = true →
  color_parameter context p →
  (k < 2)%nat →
  check_parameters_from context true k (p :: rest) =
  ((check_parameters_from context true (S k) rest).1.1,
   tagColor k p :: (check_parameters_from context true (S k) rest).1.2,
   (check_parameters_from context true (S k) rest).2).
Proof.
  intros Hkind Hp Hk. destruct (color_parameter_quiet context p Hp) as [Hq Hs].
  destruct Hp as (Hcolor & Hcoords & Hchild & _ & _).
  rewrite check_parameters_from_cons. cbv zeta. rewrite Hchild, Hq.
  unfold normalise, inferMainRole. rewrite Hs, Hcoords, Hcolor.
  replace (IsRuntimeEffect (fKind context) &&
           negb (bool_decide (fKind context = kMeshFragment)) &&
           negb (bool_decide (fKind context = kMeshVertex))) with true
    by (by destruct (fKind context)).
  rewrite bool_decide_eq_true_2 by (simpl; lia). simpl.
  unfold tagColor.
  destruct (lookup_lt_is_Some_2 kBuiltinColorIDs k) as [b Hb]; [simpl; lia|].
  by rewrite Hb.
Qed.

Lemma paramIsCoords_tagged (p : VariableT Ty) parameters (idx : nat) :
  matches (var_type p) fFloat2 = true →
  parameters !! idx = Some (tagCoords p) →
  paramIsCoords parameters idx = true.
Proof.
  intros Hcoords Hidx. unfold paramIsCoords, paramIs. rewrite Hidx. simpl.
  by rewrite Hcoords.
Qed.

(** X11.  In a runtime shader (also the private one), a [main] that returns
    a colour type and takes plain coordinates, written with or without [in],
    is accepted and recorded with the coordinate role on its parameter; so
    is one that takes the coordinates and then a plain colour, which gets the
    source-colour role.  A [main] that takes a colour alone is rejected with
    the error naming the expected parameters. *)
Theorem shader_main_signature context symbols pos mpos modifiers rtpos returnType
    e1 e2 :
  fKind context = kRuntimeShader ∨ fKind context = kPrivateRuntimeShader →
  check_modifiers context mpos modifiers = (true, e1) →
  check_return_type context rtpos returnType = (true, e2) →
  typeIsValidForColor returnType = true →
  fSymbols symbols !! "main"%string = None →
  (∀ coords,
     coords_parameter context coords →
     ∃ symbols' f,
       Convert context symbols pos mpos modifiers "main" [coords] rtpos returnType =
         (Some ("main"%string, 0%nat), symbols', e1 ++ e2) ∧
       deref symbols' ("main"%string, 0%nat) = Some f ∧
       fd_parameters f = [tagCoords coords]) ∧
  (∀ coords color,
     coords_parameter context coords → color_parameter context color →
     ∃ symbols' f,
       Convert context symbols pos mpos modifiers "main" [coords; color] rtpos
               returnType =
         (Some ("main"%string, 0%nat), symbols', e1 ++ e2) ∧
       deref symbols' ("main"%string, 0%nat) = Some f ∧
       fd_parameters f = [tagCoords coords; tagColor 0 color]) ∧
  (∀ color,
     color_parameter context color →
     Convert context symbols pos mpos modifiers "main" [color] rtpos returnType =
       (None, symbols,
        e1 ++ e2 ++
        [(pos, "'main' parameters must be (float2, (vec4|float4|half4)?)"%string)])).
Proof.
  intros Hkind Hm Hrt Hret Hfree.
  assert (Hmain : String.eqb "main" "main" = true) by reflexivity.
  assert (Heffect : is_color_effect (fKind context) = true)
    by (by destruct Hkind as [-> | ->]).
  assert (Hrecord : ∀ parameters ps,
    validate context pos mpos modifiers "main" parameters rtpos returnType =
      (true, ps, e1 ++ e2) →
    ∃ symbols' f,
      Convert context symbols pos mpos modifiers "main" parameters rtpos returnType =
        (Some ("main"%string, 0%nat), symbols', e1 ++ e2) ∧
      deref symbols' ("main"%string, 0%nat) = Some f ∧ fd_parameters f = ps).
  { intros parameters ps Hv. rewrite Convert_validate, Hv.
    unfold find_existing_declaration. rewrite Hfree.
    rewrite add_fresh by (by rewrite fSymbols_takeOwnership).
    eexists _, _. split; [by rewrite app_nil_r|].
    split; [unfold deref, overloads; simpl; by rewrite lookup_insert_eq|done]. }
  split; [|split].
  - intros coords Hcoords. apply Hrecord.
    unfold validate. rewrite Hm, Hrt, Hmain. simpl. unfold check_parameters.
    rewrite check_parameters_coords by done. cbn [check_parameters_from fst snd negb].
    unfold check_main_signature.
    rewrite (paramIsCoords_tagged coords [tagCoords coords] 0)
      by (done || apply Hcoords).
    destruct Hkind as [-> | ->]; rewrite Hret; simpl; by rewrite !app_nil_r.
  - intros coords color Hcoords Hcolor. apply Hrecord.
    unfold validate. rewrite Hm, Hrt, Hmain. simpl. unfold check_parameters.
    rewrite check_parameters_coords by done.
    rewrite check_parameters_color by (done || lia).
    cbn [check_parameters_from fst snd negb].
    unfold check_main_signature, paramIsInputColor.
    rewrite (paramIsCoords_tagged coords [tagCoords coords; tagColor 0 color] 0)
      by (done || apply Hcoords).
    rewrite (paramIsBuiltinColor_tagged context color _ 0 1 SK_INPUT_COLOR_BUILTIN)
      by done.
    destruct Hkind as [-> | ->]; rewrite Hret; simpl; by rewrite !app_nil_r.
  - intros color Hcolor.
    assert (Hv : validate context pos mpos modifiers "main" [color] rtpos returnType =
                   (false, [tagColor 0 color],
                    e1 ++ e2 ++
                    [(pos, "'main' parameters must be (float2, (vec4|float4|half4)?)"%string)])).
    { unfold validate. rewrite Hm, Hrt, Hmain. simpl. unfold check_parameters.
      rewrite check_parameters_color by (done || lia).
      cbn [check_parameters_from fst snd negb].
      unfold check_main_signature, paramIsInputColor, paramIsCoords, paramIs.
      cbn [lookup list_lookup length].
      rewrite tagColor_type. destruct Hcolor as (_ & -> & _).
      destruct Hkind as [-> | ->]; by rewrite Hret. }
    by rewrite Convert_validate, Hv.
Qed.

(** *** Mangled names *)





(** X13.  The marker keeps a mangled builtin apart from user code: a
    declaration named with a leading dollar sign and a declaration of the
    same name without it, both mangled, never get the same mangled name,
    whatever their types, as long as the abbreviated return type of the
    second does not begin with the marker character. *)
Theorem mangledName_marker_separates (f g : FunctionDeclaration Ty) c rest :
  keeps_literal_name f = false →
  keeps_literal_name g = false →
  fd_name f = String "$" (fd_name g) →
  starts_with (fd_name g) "$" = false →
  abbreviatedName (fd_returnType g) = String c rest →
  c ≠ "Q"%char →
  mangledName f ≠ mangledName g.
Proof.
  intros Hkf Hkg Hname Hplain Habbr Hc Heq.
  rewrite !mangledName_stem, !mangledStem_parts in Heq by done.
  rewrite Hname in Heq. unfold strippedName in Heq.
  rewrite Hplain in Heq. cbn [starts_with remove_prefix] in Heq.
  replace (Ascii.eqb "$" "$") with true in Heq by reflexivity.
  rewrite !append_assoc in Heq.
  do 2 apply append_cancel_l in Heq.
  unfold abbreviatedSignature in Heq at 2. rewrite Habbr in Heq.
  change (String c rest) with (String c "" +:+ rest) in Heq.
  rewrite foldl_append_prefix in Heq.
  change ("Q" +:+ abbreviatedSignature f) with (String "Q" (abbreviatedSignature f)) in Heq.
  rewrite append_cons in Heq. by injection Heq as <- _.
Qed.

(** *** Intrinsics *)

Lemma find_intrinsic_first (n : string) (table : list string) (k : Z) :
  (find_intrinsic n table k = kNotIntrinsic ∧ (0 ≤ k → n ∉ table))
  ∨ (∃ i : nat,
        find_intrinsic n table k = k + Z.of_nat i ∧ table !! i = Some n ∧
        ∀ j : nat, (j < i)%nat → table !! j ≠ Some n).
Proof.
  revert k. induction table as [|m table IH]; intros k; simpl.
  - left. split; [done|]. intros _. apply not_elem_of_nil.
  - destruct (String.eqb_spec m n) as [->|Hne].
    + destruct (decide (k = -1)) as [->|Hk]; [left; split; [done|lia]|].
      right. exists 0%nat. split; [lia|]. split; [done|]. intros j Hj. lia.
    + destruct (IH (k + 1)) as [[Hr Hnot]|(i & Hr & Hi & Hbefore)].
      * left. split; [done|]. intros Hk [?|?]%elem_of_cons; [done|].
        apply Hnot; [lia|done].
      * right. exists (S i). split; [lia|]. split; [done|].
        intros [|j] Hj; simpl; [congruence|]. apply Hbefore. lia.
Qed.

(** X14.  [identify_intrinsic] looks the name up without its leading dollar
    sign: the result is [kNotIntrinsic] exactly when that name is not in the
    intrinsic table, and otherwise the place of the name in the table.  So a
    name and the same name with a dollar sign in front are the same
    intrinsic. *)
Theorem identify_intrinsic_lookup (functionName : string) :
  ((identify_intrinsic functionName = kNotIntrinsic ∧
    strippedName functionName ∉ SKSL_INTRINSIC_LIST)
   ∨ (∃ i : nat,
        identify_intrinsic functionName = Z.of_nat i ∧
        SKSL_INTRINSIC_LIST !! i = Some (strippedName functionName) ∧
        ∀ j : nat, (j < i)%nat →
                   SKSL_INTRINSIC_LIST !! j ≠ Some (strippedName functionName))) ∧
  (starts_with functionName "$" = false →
   identify_intrinsic (String "$" functionName) = identify_intrinsic functionName).
Proof.
  split.
  - unfold identify_intrinsic. fold (strippedName functionName).
    destruct (find_intrinsic_first (strippedName functionName) SKSL_INTRINSIC_LIST 0)
      as [[Hr Hnot]|(i & Hr & Hi & Hbefore)].
    + left. split; [done|]. by apply Hnot.
    + right. exists i. split; [lia|done].
  - intros Hplain. unfold identify_intrinsic. rewrite Hplain.
    cbn [starts_with remove_prefix].
    by replace (Ascii.eqb "$" "$") with true by reflexivity.
Qed.

(** *** Resolution at a call *)

Lemma determineFinalTypes_from_lengths (arguments arguments' : list Ty) parameters
    g out :
  g ≠ -1 → length arguments = length arguments' →
  determineFinalTypes_from arguments parameters g out =
  determineFinalTypes_from arguments' parameters g out.
Proof.
  intros Hg. revert arguments' parameters out.
  induction arguments as [|a args IH]; intros [|a' args'] ps out Hlen; try done.
  simpl. destruct ps as [|p ps]; [done|].
  destruct (negb (isGeneric (var_type p))); [apply IH; simpl in Hlen; lia|].
  pose proof Hg as Hg'. apply Z.eqb_neq in Hg'. rewrite !Hg'.
  destruct (coercibleTypes (var_type p) !! Z.to_nat g); [|done].
  apply IH. simpl in Hlen. lia.
Qed.

(** X15.  Only the argument at the first generic parameter decides how a
    call resolves: two argument lists of the same length that agree at that
    place give the same result, whatever the other arguments are. *)
Theorem determineFinalTypes_first_generic_decides (f : FunctionDeclaration Ty)
    before p after (arguments arguments' : list Ty) argument :
  fd_parameters f = before ++ p :: after →
  no_generic_parameter before →
  isGeneric (var_type p) = true →
  length arguments = length arguments' →
  arguments !! length before = Some argument →
  arguments' !! length before = Some argument →
  determineFinalTypes f arguments = determineFinalTypes f arguments'.
Proof.
  intros Hps Hng Hgen Hlen Ha Ha'.
  assert (Hsplit : ∀ l : list Ty, l !! length before = Some argument →
            l = take (length before) l ++ argument :: drop (S (length before)) l ∧
            length (take (length before) l) = length before).
  { intros l Hl. split.
    - rewrite <- (take_drop (length before) l) at 1. f_equal. by apply drop_S.
    - rewrite length_take. apply lookup_lt_Some in Hl. lia. }
  destruct (Hsplit _ Ha) as [He Hl]. destruct (Hsplit _ Ha') as [He' Hl'].
  unfold determineFinalTypes. rewrite Hps.
  rewrite He, He' at 1.
  rewrite !determineFinalTypes_from_plain by done.
  simpl. rewrite Hgen. simpl.
  destruct (find_generic_index argument (var_type p) true =? -1) eqn:Hidx; [done|].
  apply Z.eqb_neq in Hidx.
  destruct (coercibleTypes (var_type p) !! _); [|done].
  rewrite (determineFinalTypes_from_lengths (drop (S (length before)) arguments)
             (drop (S (length before)) arguments')); [done|done|].
  rewrite !length_drop. lia.
Qed.

Lemma determineFinalTypes_from_resolved (arguments : list Ty) parameters g out g' out' :
  determineFinalTypes_from arguments parameters g out = Returns (g', out') →
  ∃ types,
    out' = out ++ types ∧ length types = length arguments ∧
    (g ≠ -1 → g' = g) ∧ resolved_types parameters g' types.
Proof.
  revert parameters g out.
  induction arguments as [|a args IH]; intros ps g out; simpl.
  - intros Heq. simplify_eq. exists []. rewrite app_nil_r.
    split; [done|]. split; [done|]. split; [done|]. by intros i p t _ Ht.
  - destruct ps as [|p ps]; [done|].
    destruct (isGeneric (var_type p)) eqn:Hgen; simpl.
    + set (gi := if g =? -1 then find_generic_index a (var_type p) true else g).
      destruct (gi =? -1) eqn:Hgi; [done|]. apply Z.eqb_neq in Hgi.
      destruct (coercibleTypes (var_type p) !! Z.to_nat gi) as [t|] eqn:Ht; [|done].
      intros Hloop. destruct (IH _ _ _ Hloop) as (types & -> & Hlen & Hfix & Hres).
      specialize (Hfix Hgi). subst g'.
      exists (t :: types). rewrite <- app_assoc.
      split; [done|]. split; [simpl; lia|]. split.
      * intros Hg. subst gi. apply Z.eqb_neq in Hg. by rewrite Hg.
      * intros [|i] p' t' Hp Ht'; simpl in Hp, Ht'; simplify_eq.
        -- by rewrite Hgen.
        -- by apply (Hres i).
    + intros Hloop. destruct (IH _ _ _ Hloop) as (types & -> & Hlen & Hfix & Hres).
      exists (var_type p :: types). rewrite <- app_assoc.
      split; [done|]. split; [simpl; lia|]. split; [done|].
      intros [|i] p' t' Hp Ht'; simpl in Hp, Ht'; simplify_eq.
      * by rewrite Hgen.
      * by apply (Hres i).
Qed.

(** X16.  When a call resolves, there is one index for the whole call: the
    resolved parameter types are as many as the arguments; a parameter that
    is not generic keeps its declared type, and every generic parameter
    becomes the member of its family at that index; the return type is
    resolved the same way. *)
Theorem determineFinalTypes_one_index (f : FunctionDeclaration Ty)
    (arguments outParameterTypes : list Ty) outReturnType :
  determineFinalTypes f arguments = Returns (outParameterTypes, outReturnType) →
  ∃ genericIndex,
    length outParameterTypes = length arguments ∧
    resolved_types (fd_parameters f) genericIndex outParameterTypes ∧
    if isGeneric (fd_returnType f)
    then genericIndex ≠ -1 ∧
         coercibleTypes (fd_returnType f) !! Z.to_nat genericIndex = Some outReturnType
    else outReturnType = fd_returnType f.
Proof.
  unfold determineFinalTypes.
  destruct (determineFinalTypes_from arguments (fd_parameters f) (-1) [])
    as [[g outs]| |] eqn:Hloop; [|done|done].
  apply determineFinalTypes_from_resolved in Hloop as (types & -> & Hlen & _ & Hres).
  simpl. destruct (isGeneric (fd_returnType f)).
  - destruct (g =? -1) eqn:Hg; [done|]. apply Z.eqb_neq in Hg.
    destruct (coercibleTypes (fd_returnType f) !! Z.to_nat g) as [t|] eqn:Ht; [|done].
    intros Heq. simplify_eq. by exists g.
  - intros Heq. simplify_eq. by exists g.
Qed.

(** *** The two comparisons of parameter lists *)

(** X17.  Against a declaration without generic parameters the resolver's
    comparison is the plain one: [FunctionDeclaration::matches] holds exactly
    when the names are equal and [parameters_match] holds. *)
Theorem matches_is_parameters_match (this f : FunctionDeclaration Ty) :
  no_generic_parameter (fd_parameters f) →
  FunctionDeclaration_matches this f =
  String.eqb (fd_name this) (fd_name f) &&
  parameters_match (fd_parameters this) (fd_parameters f).
Proof.
  intros Hng. unfold FunctionDeclaration_matches.
  rewrite parameters_match_plain by done.
  destruct (String.eqb (fd_name this) (fd_name f)); [|done]. simpl.
  by destruct (length (fd_parameters this) =? length (fd_parameters f))%nat.
Qed.

Lemma concrete_types_match_spec params otherParams g :
  concrete_types_match params otherParams g = true →
  ∀ (i : nat) p o,
    params !! i = Some p → otherParams !! i = Some o →
    if isGeneric (var_type o)
    then ∃ t, coercibleTypes (var_type o) !! Z.to_nat g = Some t ∧
              matches (var_type p) t = true
    else matches (var_type p) (var_type o) = true.
Proof.
  revert otherParams. induction params as [|p ps IH]; intros [|o os]; try done.
  simpl. destruct (isGeneric (var_type o)) eqn:Hgen.
  - destruct (coercibleTypes (var_type o) !! Z.to_nat g) as [t|] eqn:Ht; [|done].
    destruct (matches (var_type p) t) eqn:Hm; [|done]. simpl. intros Hrest.
    intros [|i] p' o' Hp Ho; simpl in Hp, Ho; simplify_eq.
    + rewrite Hgen. by exists t.
    + by apply (IH os Hrest i).
  - destruct (matches (var_type p) (var_type o)) eqn:Hm; [|done]. simpl.
    intros Hrest [|i] p' o' Hp Ho; simpl in Hp, Ho; simplify_eq.
    + by rewrite Hgen.
    + by apply (IH os Hrest i).
Qed.

Lemma concrete_types_match_complete params otherParams g :
  length params = length otherParams →
  (∀ (i : nat) p o,
     params !! i = Some p → otherParams !! i = Some o →
     if isGeneric (var_type o)
     then ∃ t, coercibleTypes (var_type o) !! Z.to_nat g = Some t ∧
               matches (var_type p) t = true
     else matches (var_type p) (var_type o) = true) →
  concrete_types_match params otherParams g = true.
Proof.
  revert otherParams. induction params as [|p ps IH]; intros [|o os] Hlen Hall;
    try done.
  simpl. pose proof (Hall 0%nat p o eq_refl eq_refl) as Hhead.
  assert (Htail : concrete_types_match ps os g = true).
  { apply IH; [simpl in Hlen; lia|]. intros i p' o'. apply (Hall (S i)). }
  destruct (isGeneric (var_type o)).
  - destruct Hhead as (t & -> & ->). done.
  - by rewrite Hhead.
Qed.

Lemma consistent_generic_index_complete params otherParams g g0 :
  (∀ (i : nat) p o,
     params !! i = Some p → otherParams !! i = Some o →
     isGeneric (var_type o) = true →
     find_generic_index (var_type p) (var_type o) false = g ∧ g ≠ -1) →
  g0 = -1 ∨ g0 = g →
  ∃ g', consistent_generic_index params otherParams g0 = Some g'.
Proof.
  revert otherParams g0. induction params as [|p ps IH]; intros [|o os] g0 Hall Hg0;
    try (by eexists).
  simpl. destruct (isGeneric (var_type o)) eqn:Hgen.
  - destruct (Hall 0%nat p o eq_refl eq_refl Hgen) as [Hfind Hne].
    rewrite Hfind. apply Z.eqb_neq in Hne. rewrite Hne.
    assert (negb (g0 =? -1) && negb (g0 =? g) = false) as ->.
    { destruct Hg0 as [-> | ->]; [done|]. by rewrite Z.eqb_refl, andb_false_r. }
    apply IH; [|by right]. intros i p' o'. apply (Hall (S i)).
  - apply IH; [|done]. intros i p' o'. apply (Hall (S i)).
Qed.

(** X18.  What [parameters_match] decides.  A candidate's parameter list
    matches an earlier one exactly when the lists have the same length and
    there is one index at which the earlier list, with its generic types
    resolved, is matched: every generic parameter of the earlier list
    resolves without narrowing to that index, the candidate's type matches
    the member of the family at the index, and the candidate's type matches
    every parameter type that is not generic. *)
Theorem parameters_match_resolved params otherParams :
  parameters_match params otherParams = true ↔
  length params = length otherParams ∧
  ∃ genericIndex, resolved_match params otherParams genericIndex.
Proof.
  split.
  - intros Hm. split; [by apply parameters_match_length|].
    destruct (parameters_match_consistent _ _ Hm) as (g & Hc & Hconcrete).
    destruct (consistent_generic_index_spec _ _ _ _ Hc) as [_ Hindex].
    pose proof (concrete_types_match_spec _ _ _ Hconcrete) as Htypes.
    exists g. intros i p o Hp Ho. specialize (Htypes i p o Hp Ho).
    destruct (isGeneric (var_type o)) eqn:Hgen; [|done].
    destruct (Hindex i p o Hp Ho Hgen) as [Hfind Hne]. done.
  - intros [Hlen (g & Hres)]. unfold parameters_match.
    apply Nat.eqb_eq in Hlen as Hlen'. rewrite Hlen'. simpl.
    destruct (consistent_generic_index_complete params otherParams g (-1))
      as [g' Hc]; [|by left|].
    { intros i p o Hp Ho Hgen. specialize (Hres i p o Hp Ho).
      rewrite Hgen in Hres. by destruct Hres as (? & ? & _). }
    rewrite Hc. destruct (consistent_generic_index_spec _ _ _ _ Hc) as [_ Hindex].
    apply concrete_types_match_complete; [done|].
    intros i p o Hp Ho. specialize (Hres i p o Hp Ho).
    destruct (isGeneric (var_type o)) eqn:Hgen; [|done].
    destruct Hres as (Hfind & _ & Ht).
    destruct (Hindex i p o Hp Ho Hgen) as [Hfind' _].
    assert (g' = g) as -> by congruence. done.
Qed.

End Resolution.

(** ** The further properties on the instance *)

(** [int foo(float3 x)] after [float foo(float3 x)]: the rejection comes with
    an error. *)
Lemma int_foo_reported :
  (ConvertCandidate SkSL.fooScope SkSL.fooInt).2 ≠ [].
Proof.
  refine (Convert_failure_reported (SkSL.userCode kGeneric) SkSL.fooScope
            SkSL.fooScope 0%nat 0%nat SkSL.noModifiers "foo"
            [SkSL.param "x" SkSL.Float3] 0%nat SkSL.Int _ _).
  vm_compute. reflexivity.
Defined.

(** Re-declaring [float foo(float3 x)]: the scope owns one more parameter,
    though no declaration was added. *)
Lemma redeclared_parameter_owned :
  fOwnedSymbols (ConvertCandidate SkSL.fooScope SkSL.foo3).1.2 =
  fOwnedSymbols SkSL.fooScope ++ [SkSL.param "x" SkSL.Float3].
Proof.
  refine (proj1 (Convert_takes_ownership (SkSL.userCode kGeneric) SkSL.fooScope _
            0%nat 0%nat SkSL.noModifiers "foo" [SkSL.param "x" SkSL.Float3] 0%nat
            SkSL.Float ("foo"%string, 0%nat) [] _)).
  vm_compute. reflexivity.
Defined.

(** [float foo(float3 x)] into the empty scope. *)
Lemma foo_recorded_first :
  (ConvertCandidate emptySymbolTable SkSL.foo3).1.1 = Some ("foo"%string, 0%nat).
Proof.
  destruct (Convert_records_new (SkSL.userCode kGeneric) emptySymbolTable 0%nat
              0%nat SkSL.noModifiers "foo" [SkSL.param "x" SkSL.Float3] 0%nat
              SkSL.Float [SkSL.param "x" SkSL.Float3] [])
    as (symbols' & d & Hconvert & _).
  - vm_compute. reflexivity.
  - vm_compute. discriminate.
  - rewrite emptySymbolTable_overloads. apply Forall_nil_2.
  - unfold ConvertCandidate. simpl. rewrite Hconvert.
    by rewrite emptySymbolTable_overloads.
Defined.

(** [foo] is a variable: a function [foo] is refused. *)
Lemma foo_is_a_variable :
  (ConvertCandidate SkSL.variableScope SkSL.foo3).1 = (None, SkSL.variableScope).
Proof.
  refine (proj1 (Convert_name_collision (SkSL.userCode kGeneric) SkSL.variableScope
            0%nat 0%nat SkSL.noModifiers "foo" [SkSL.param "x" SkSL.Float3] 0%nat
            SkSL.Float _)).
  vm_compute. reflexivity.
Defined.

(** [float foo(out float3 x)] after [float foo(float3 x)]. *)
Lemma out_foo_rejected :
  Convert (SkSL.userCode kGeneric) SkSL.fooScope 0%nat 0%nat SkSL.noModifiers "foo"
          [SkSL.outParam "x" SkSL.Float3] 0%nat SkSL.Float =
  (None, SkSL.fooScope,
   [(0%nat, "modifiers on parameter 1 differ between declaration and definition"%string)]).
Proof.
  refine (proj2 (modifiers_differ_rejected (SkSL.userCode kGeneric) SkSL.fooScope
            0%nat 0%nat SkSL.noModifiers "foo" [SkSL.outParam "x" SkSL.Float3]
            0%nat SkSL.Float [SkSL.outParam "x" SkSL.Float3] [] [] SkSL.foo3Decl
            [SkSL.foo2Decl] 0%nat (SkSL.outParam "x" SkSL.Float3)
            (SkSL.param "x" SkSL.Float3) _ _ _ _ _ _ _ _ _)).
  - vm_compute. reflexivity.
  - vm_compute. reflexivity.
  - apply Forall_nil_2.
  - reflexivity.
  - reflexivity.
  - reflexivity.
  - reflexivity.
  - reflexivity.
  - vm_compute. discriminate.
Defined.

(** The declaration that a second [float foo(float3 x)] is linked to. *)
Lemma foo_linked_to_forward_declaration :
  ∃ other,
    deref SkSL.fooScope ("foo"%string, 0%nat) = Some other ∧
    parameters_match [SkSL.param "x" SkSL.Float3] (fd_parameters other) = true ∧
    type_generically_matches SkSL.Float (fd_returnType other) = true ∧
    map var_modifiers [SkSL.param "x" SkSL.Float3] =
      map var_modifiers (fd_parameters other) ∧
    fd_definition other = false ∧ fd_isBuiltin other = false ∧
    ([] : Errors) = [] ∧
    ∀ (j : nat) d, (j < 0)%nat → deref SkSL.fooScope ("foo"%string, j) = Some d →
                   parameters_match [SkSL.param "x" SkSL.Float3] (fd_parameters d) = false.
Proof.
  refine (linked_declaration_is_forward_declaration (SkSL.userCode kGeneric)
            SkSL.fooScope 0%nat "foo" [SkSL.param "x" SkSL.Float3] 0%nat SkSL.Float
            0%nat [] _).
  vm_compute. reflexivity.
Defined.

(** The accepted [main] of a blender has two parameters. *)
Lemma blender_main_has_two_parameters :
  (length SkSL.blenderParameters ≤ 2)%nat.
Proof.
  refine (proj1 (proj2 (accepted_main_shape (SkSL.userCode kRuntimeBlender) 0%nat
            SkSL.Half4 SkSL.blenderParameters [] _)) _).
  - vm_compute. reflexivity.
  - discriminate.
Defined.

(** [half4 main(in float2 p)] in a runtime shader. *)
Lemma shader_main_accepted :
  ∃ symbols' f,
    Convert (SkSL.userCode kRuntimeShader) emptySymbolTable 0%nat 0%nat
            SkSL.noModifiers "main" [SkSL.inParam "p" SkSL.Float2] 0%nat SkSL.Half4 =
      (Some ("main"%string, 0%nat), symbols', []) ∧
    deref symbols' ("main"%string, 0%nat) = Some f ∧
    fd_parameters f = [tagCoords (SkSL.inParam "p" SkSL.Float2)].
Proof.
  refine (proj1 (shader_main_signature (SkSL.userCode kRuntimeShader)
            emptySymbolTable 0%nat 0%nat SkSL.noModifiers 0%nat SkSL.Half4 [] []
            (or_introl eq_refl) eq_refl eq_refl eq_refl eq_refl)
            (SkSL.inParam "p" SkSL.Float2) _).
  split; [reflexivity|]. split; [reflexivity|]. split; [by right|reflexivity].
Defined.


(** [$helper] with its body and the user's [helper]: [helper_Qff] and
    [helper_ff]. *)
Lemma helper_builtin_apart :
  mangledName SkSL.helperBuiltin ≠ mangledName SkSL.helperUser.
Proof.
  refine (mangledName_marker_separates SkSL.helperBuiltin SkSL.helperUser
            "f"%char ""%string eq_refl eq_refl eq_refl eq_refl eq_refl _).
  discriminate.
Defined.

(** [mix] called with [(half3, float3, float)] and with [(half3, float2,
    int)]: the same resolution. *)
Lemma mix_first_argument_decides :
  determineFinalTypes SkSL.mixDecl [SkSL.Half3; SkSL.Float3; SkSL.Float] =
  determineFinalTypes SkSL.mixDecl [SkSL.Half3; SkSL.Float2; SkSL.Int].
Proof.
  refine (determineFinalTypes_first_generic_decides SkSL.mixDecl []
            (SkSL.param "x" SkSL.GenType)
            [SkSL.param "y" SkSL.GenType; SkSL.param "a" SkSL.Float]
            [SkSL.Half3; SkSL.Float3; SkSL.Float] [SkSL.Half3; SkSL.Float2; SkSL.Int]
            SkSL.Half3 eq_refl _ eq_refl eq_refl eq_refl eq_refl).
  apply Forall_nil_2.
Defined.

(** [mix] called with [(half3, float3, float)] resolves at one index. *)
Lemma mix_resolved_at_one_index :
  ∃ genericIndex,
    length [SkSL.Float3; SkSL.Float3; SkSL.Float] =
      length [SkSL.Half3; SkSL.Float3; SkSL.Float] ∧
    resolved_types (fd_parameters SkSL.mixDecl) genericIndex
                   [SkSL.Float3; SkSL.Float3; SkSL.Float] ∧
    if isGeneric (fd_returnType SkSL.mixDecl)
    then genericIndex ≠ -1 ∧
         coercibleTypes (fd_returnType SkSL.mixDecl) !! Z.to_nat genericIndex =
           Some SkSL.Float3
    else SkSL.Float3 = fd_returnType SkSL.mixDecl.
Proof.
  refine (determineFinalTypes_one_index SkSL.mixDecl
            [SkSL.Half3; SkSL.Float3; SkSL.Float]
            [SkSL.Float3; SkSL.Float3; SkSL.Float] SkSL.Float3 _).
  reflexivity.
Defined.

(** [float foo(float3 x)] against [float foo(float2 x)]. *)
Lemma foo_overloads_compared :
  FunctionDeclaration_matches SkSL.foo3Decl SkSL.foo2Decl =
  String.eqb (fd_name SkSL.foo3Decl) (fd_name SkSL.foo2Decl) &&
  parameters_match (fd_parameters SkSL.foo3Decl) (fd_parameters SkSL.foo2Decl).
Proof.
  refine (matches_is_parameters_match SkSL.foo3Decl SkSL.foo2Decl _).
  apply Forall_cons_2; [reflexivity|apply Forall_nil_2].
Defined.
